(** * Document Reader + TTS: the playback core of [script.js]

    A shallow embedding of the playback and synchronisation code of
    [script.js]: chunking ([buildChunks]), jumping ([jumpToCharIndex]),
    the speech requests ([speakChunk], [playFromCurrentChunk]), the
    settings-change restart ([restartWithNewSettingsFromCurrentPosition])
    and the listeners that drive them; then the PDF text layer
    ([renderPDFToViewer], [findPDFSpanAt]), the file input and the voice
    list ([populateVoiceList]).

    Conventions.
    - A JavaScript string is the list of its UTF-16 code units; [length]
      and [slice] count code units, as in the source.
    - Character indices, chunk indices and offsets are integers ([Z]).
    - The global [let] variables of the script are the fields of [State].
      The utterance objects are shared between the script and the speech
      engine, so they live in a heap ([heap]) and the variable [utterance]
      holds a reference into it.
    - [setTimeout] callbacks are kept in [timers]; they fire through the
      event [EvTimer], in any order.
    - DOM scrolling and button styling are not modelled.  Of the
      textarea selection, the range last given to [setSelectionRange] is
      kept; the browser's own caret is not modelled.
    - [scheduleSettingRestart] is never called by the script and is left
      out. *)

From Stdlib Require Import ZArith QArith Lia.
From stdpp Require Import base list strings.

Local Open Scope Z_scope.

(** ** JavaScript strings *)

Module JS.

Abbreviation jsstring := (list N).

Definition len {A : Type} (t : list A) : Z := Z.of_nat (length t).

(** [relIndex] is the index normalisation of [String.prototype.slice]:
    a negative index counts from the end, and the result is clamped to
    [0, len]. *)
Definition relIndex (n k : Z) : Z :=
  if k <? 0 then Z.max (n + k) 0 else Z.min k n.

(** [t.slice(b, e)] *)
Definition slice {A : Type} (t : list A) (b e : Z) : list A :=
  let from := relIndex (len t) b in
  let to := relIndex (len t) e in
  take (Z.to_nat (to - from)) (drop (Z.to_nat from) t).

(** [t.slice(b)] *)
Definition sliceFrom {A : Type} (t : list A) (b : Z) : list A :=
  slice t b (len t).

(** Numbers that come out of [Number(slider.value)]: a finite value or
    [NaN]. *)
Inductive jsnum : Type :=
| JNaN
| JNum (q : Q).

(** Truthiness of a number: [0] and [NaN] are falsy. *)
Definition truthy (x : jsnum) : bool :=
  match x with
  | JNaN => false
  | JNum q => negb (Qeq_bool q 0)
  end.

(** [x || d] on numbers. *)
Definition orElse (x d : jsnum) : jsnum := if truthy x then x else d.

(** [k || d] on integers. *)
Definition orElseZ (k d : Z) : Z := if k =? 0 then d else k.

End JS.

Import JS.

(** ** Chunking *)

Definition internalChunkSize : Z := 3000.

(** The [for] loop of [buildChunks], from index [i] on, with the chunks
    pushed so far in [acc].  [fuel] bounds the number of iterations. *)
Fixpoint chunkLoop (fuel : nat) (chunkSize : Z) (text : jsstring) (i : Z)
    (acc : list jsstring) : option (list jsstring) :=
  if i <? len text then
    match fuel with
    | O => None
    | S fuel' =>
        chunkLoop fuel' chunkSize text (i + chunkSize)
          (acc ++ [slice text i (i + chunkSize)])
    end
  else Some acc.

(** The chunks [buildChunks] leaves in [currentChunks] for the text
    [text]. *)
Definition chunksOf (text : jsstring) : list jsstring :=
  default [] (chunkLoop (length text) internalChunkSize text 0 []).

(** ceil(n / d) on integers. *)
Definition ceilDiv (n d : Z) : Z := (n + d - 1) / d.

(** ** Voices, utterances and the speech engine *)

Record Voice : Type := mkVoice {
  v_name : string;
  v_lang : string;
  v_default : bool
}.

(** The completion callbacks the script hands to [speakChunk]: the only
    one is the arrow function of [playFromCurrentChunk], which advances
    to the next chunk. *)
Inductive Callback : Type :=
| AutoAdvance.

(** [utterance.onend], when set, is the arrow function of [speakChunk]
    closed over the parameter [onend]. *)
Inductive EndHandler : Type :=
| CallOnEnd (onend : option Callback).

(** A [SpeechSynthesisUtterance] as [speakChunk] sets it up.  [u_base] is
    the [baseOffset] that its [onboundary] closure captured. *)
Record Utterance : Type := mkUtterance {
  u_text : jsstring;
  u_rate : jsnum;
  u_volume : jsnum;
  u_voice : option Voice;
  u_base : Z;
  u_onend : option EndHandler;  (* None is null *)
  u_onerror : bool              (* false is null *)
}.

(** [utterance.onend = null; utterance.onerror = null] *)
Definition nullCallbacks (u : Utterance) : Utterance :=
  {| u_text := u_text u; u_rate := u_rate u; u_volume := u_volume u;
     u_voice := u_voice u; u_base := u_base u;
     u_onend := None; u_onerror := false |}.

(** A pending [setTimeout(() => playFromCurrentChunk(offset), delay)]. *)
Record Timer : Type := mkTimer {
  t_delay : Z;
  t_offset : Z
}.

(** What the script did to utterance objects and to the engine, in the
    order it did it. *)
Inductive Effect : Type :=
| ENullCallbacks (id : nat)
| ECancel
| ESpeak (id : nat)
| EPause
| EResume.

(** The event object of [onboundary]; [None] is a field that is not a
    number. *)
Record BoundaryEvent : Type := mkBoundary {
  charIndex : option Z;
  charLength : option Z
}.

(** ** The state of the page *)

Record State : Type := mkState {
  currentText : jsstring;  (* the document text *)
  currentChunks : list jsstring;  (* for chunked reading *)
  currentIndex : Z;  (* index of the chunk being read *)
  isPlaying : bool;
  utterance : option nat;  (* reference to the current utterance object, or null *)
  voices : list Voice;
  lastBoundaryGlobalStart : Z;  (* last known global char index where a boundary occurred *)
  restartInFlight : bool;  (* prevent races when restarting *)
  rateSlider : jsnum;  (* Number(rateSlider.value) *)
  volumeSlider : jsnum;  (* Number(volumeSlider.value) *)
  voiceSelect : string;  (* voiceSelect.value *)
  selection : Z * Z;  (* the range last given to pasteBox.setSelectionRange *)
  heap : list Utterance;  (* every utterance object created so far *)
  queue : list nat;  (* the engine's outstanding speech requests *)
  enginePaused : bool;  (* speechSynthesis.paused *)
  timers : list Timer;  (* pending setTimeout callbacks *)
  trace : list Effect;  (* the calls made on utterances and engine, oldest first *)
  errors : nat;  (* number of console.error calls *)
  alerts : nat  (* number of alert calls *)
}.

(** Field updates. *)
Definition set_currentText (v : jsstring) (s : State) : State :=
  {| currentText := v; currentChunks := currentChunks s;
     currentIndex := currentIndex s; isPlaying := isPlaying s;
     utterance := utterance s; voices := voices s;
     lastBoundaryGlobalStart := lastBoundaryGlobalStart s;
     restartInFlight := restartInFlight s; rateSlider := rateSlider s;
     volumeSlider := volumeSlider s; voiceSelect := voiceSelect s;
     selection := selection s; heap := heap s; queue := queue s;
     enginePaused := enginePaused s; timers := timers s; trace := trace s;
     errors := errors s; alerts := alerts s |}.

Definition set_currentChunks (v : list jsstring) (s : State) : State :=
  {| currentText := currentText s; currentChunks := v;
     currentIndex := currentIndex s; isPlaying := isPlaying s;
     utterance := utterance s; voices := voices s;
     lastBoundaryGlobalStart := lastBoundaryGlobalStart s;
     restartInFlight := restartInFlight s; rateSlider := rateSlider s;
     volumeSlider := volumeSlider s; voiceSelect := voiceSelect s;
     selection := selection s; heap := heap s; queue := queue s;
     enginePaused := enginePaused s; timers := timers s; trace := trace s;
     errors := errors s; alerts := alerts s |}.

Definition set_currentIndex (v : Z) (s : State) : State :=
  {| currentText := currentText s; currentChunks := currentChunks s;
     currentIndex := v; isPlaying := isPlaying s; utterance := utterance s;
     voices := voices s;
     lastBoundaryGlobalStart := lastBoundaryGlobalStart s;
     restartInFlight := restartInFlight s; rateSlider := rateSlider s;
     volumeSlider := volumeSlider s; voiceSelect := voiceSelect s;
     selection := selection s; heap := heap s; queue := queue s;
     enginePaused := enginePaused s; timers := timers s; trace := trace s;
     errors := errors s; alerts := alerts s |}.

Definition set_isPlaying (v : bool) (s : State) : State :=
  {| currentText := currentText s; currentChunks := currentChunks s;
     currentIndex := currentIndex s; isPlaying := v;
     utterance := utterance s; voices := voices s;
     lastBoundaryGlobalStart := lastBoundaryGlobalStart s;
     restartInFlight := restartInFlight s; rateSlider := rateSlider s;
     volumeSlider := volumeSlider s; voiceSelect := voiceSelect s;
     selection := selection s; heap := heap s; queue := queue s;
     enginePaused := enginePaused s; timers := timers s; trace := trace s;
     errors := errors s; alerts := alerts s |}.

Definition set_utterance (v : option nat) (s : State) : State :=
  {| currentText := currentText s; currentChunks := currentChunks s;
     currentIndex := currentIndex s; isPlaying := isPlaying s;
     utterance := v; voices := voices s;
     lastBoundaryGlobalStart := lastBoundaryGlobalStart s;
     restartInFlight := restartInFlight s; rateSlider := rateSlider s;
     volumeSlider := volumeSlider s; voiceSelect := voiceSelect s;
     selection := selection s; heap := heap s; queue := queue s;
     enginePaused := enginePaused s; timers := timers s; trace := trace s;
     errors := errors s; alerts := alerts s |}.

Definition set_voices (v : list Voice) (s : State) : State :=
  {| currentText := currentText s; currentChunks := currentChunks s;
     currentIndex := currentIndex s; isPlaying := isPlaying s;
     utterance := utterance s; voices := v;
     lastBoundaryGlobalStart := lastBoundaryGlobalStart s;
     restartInFlight := restartInFlight s; rateSlider := rateSlider s;
     volumeSlider := volumeSlider s; voiceSelect := voiceSelect s;
     selection := selection s; heap := heap s; queue := queue s;
     enginePaused := enginePaused s; timers := timers s; trace := trace s;
     errors := errors s; alerts := alerts s |}.

Definition set_lastBoundaryGlobalStart (v : Z) (s : State) : State :=
  {| currentText := currentText s; currentChunks := currentChunks s;
     currentIndex := currentIndex s; isPlaying := isPlaying s;
     utterance := utterance s; voices := voices s;
     lastBoundaryGlobalStart := v; restartInFlight := restartInFlight s;
     rateSlider := rateSlider s; volumeSlider := volumeSlider s;
     voiceSelect := voiceSelect s; selection := selection s; heap := heap s;
     queue := queue s; enginePaused := enginePaused s; timers := timers s;
     trace := trace s; errors := errors s; alerts := alerts s |}.

Definition set_restartInFlight (v : bool) (s : State) : State :=
  {| currentText := currentText s; currentChunks := currentChunks s;
     currentIndex := currentIndex s; isPlaying := isPlaying s;
     utterance := utterance s; voices := voices s;
     lastBoundaryGlobalStart := lastBoundaryGlobalStart s;
     restartInFlight := v; rateSlider := rateSlider s;
     volumeSlider := volumeSlider s; voiceSelect := voiceSelect s;
     selection := selection s; heap := heap s; queue := queue s;
     enginePaused := enginePaused s; timers := timers s; trace := trace s;
     errors := errors s; alerts := alerts s |}.

Definition set_rateSlider (v : jsnum) (s : State) : State :=
  {| currentText := currentText s; currentChunks := currentChunks s;
     currentIndex := currentIndex s; isPlaying := isPlaying s;
     utterance := utterance s; voices := voices s;
     lastBoundaryGlobalStart := lastBoundaryGlobalStart s;
     restartInFlight := restartInFlight s; rateSlider := v;
     volumeSlider := volumeSlider s; voiceSelect := voiceSelect s;
     selection := selection s; heap := heap s; queue := queue s;
     enginePaused := enginePaused s; timers := timers s; trace := trace s;
     errors := errors s; alerts := alerts s |}.

Definition set_volumeSlider (v : jsnum) (s : State) : State :=
  {| currentText := currentText s; currentChunks := currentChunks s;
     currentIndex := currentIndex s; isPlaying := isPlaying s;
     utterance := utterance s; voices := voices s;
     lastBoundaryGlobalStart := lastBoundaryGlobalStart s;
     restartInFlight := restartInFlight s; rateSlider := rateSlider s;
     volumeSlider := v; voiceSelect := voiceSelect s;
     selection := selection s; heap := heap s; queue := queue s;
     enginePaused := enginePaused s; timers := timers s; trace := trace s;
     errors := errors s; alerts := alerts s |}.

Definition set_voiceSelect (v : string) (s : State) : State :=
  {| currentText := currentText s; currentChunks := currentChunks s;
     currentIndex := currentIndex s; isPlaying := isPlaying s;
     utterance := utterance s; voices := voices s;
     lastBoundaryGlobalStart := lastBoundaryGlobalStart s;
     restartInFlight := restartInFlight s; rateSlider := rateSlider s;
     volumeSlider := volumeSlider s; voiceSelect := v;
     selection := selection s; heap := heap s; queue := queue s;
     enginePaused := enginePaused s; timers := timers s; trace := trace s;
     errors := errors s; alerts := alerts s |}.

Definition set_selection (v : Z * Z) (s : State) : State :=
  {| currentText := currentText s; currentChunks := currentChunks s;
     currentIndex := currentIndex s; isPlaying := isPlaying s;
     utterance := utterance s; voices := voices s;
     lastBoundaryGlobalStart := lastBoundaryGlobalStart s;
     restartInFlight := restartInFlight s; rateSlider := rateSlider s;
     volumeSlider := volumeSlider s; voiceSelect := voiceSelect s;
     selection := v; heap := heap s; queue := queue s;
     enginePaused := enginePaused s; timers := timers s; trace := trace s;
     errors := errors s; alerts := alerts s |}.

Definition set_heap (v : list Utterance) (s : State) : State :=
  {| currentText := currentText s; currentChunks := currentChunks s;
     currentIndex := currentIndex s; isPlaying := isPlaying s;
     utterance := utterance s; voices := voices s;
     lastBoundaryGlobalStart := lastBoundaryGlobalStart s;
     restartInFlight := restartInFlight s; rateSlider := rateSlider s;
     volumeSlider := volumeSlider s; voiceSelect := voiceSelect s;
     selection := selection s; heap := v; queue := queue s;
     enginePaused := enginePaused s; timers := timers s; trace := trace s;
     errors := errors s; alerts := alerts s |}.

Definition set_queue (v : list nat) (s : State) : State :=
  {| currentText := currentText s; currentChunks := currentChunks s;
     currentIndex := currentIndex s; isPlaying := isPlaying s;
     utterance := utterance s; voices := voices s;
     lastBoundaryGlobalStart := lastBoundaryGlobalStart s;
     restartInFlight := restartInFlight s; rateSlider := rateSlider s;
     volumeSlider := volumeSlider s; voiceSelect := voiceSelect s;
     selection := selection s; heap := heap s; queue := v;
     enginePaused := enginePaused s; timers := timers s; trace := trace s;
     errors := errors s; alerts := alerts s |}.

Definition set_enginePaused (v : bool) (s : State) : State :=
  {| currentText := currentText s; currentChunks := currentChunks s;
     currentIndex := currentIndex s; isPlaying := isPlaying s;
     utterance := utterance s; voices := voices s;
     lastBoundaryGlobalStart := lastBoundaryGlobalStart s;
     restartInFlight := restartInFlight s; rateSlider := rateSlider s;
     volumeSlider := volumeSlider s; voiceSelect := voiceSelect s;
     selection := selection s; heap := heap s; queue := queue s;
     enginePaused := v; timers := timers s; trace := trace s;
     errors := errors s; alerts := alerts s |}.

Definition set_timers (v : list Timer) (s : State) : State :=
  {| currentText := currentText s; currentChunks := currentChunks s;
     currentIndex := currentIndex s; isPlaying := isPlaying s;
     utterance := utterance s; voices := voices s;
     lastBoundaryGlobalStart := lastBoundaryGlobalStart s;
     restartInFlight := restartInFlight s; rateSlider := rateSlider s;
     volumeSlider := volumeSlider s; voiceSelect := voiceSelect s;
     selection := selection s; heap := heap s; queue := queue s;
     enginePaused := enginePaused s; timers := v; trace := trace s;
     errors := errors s; alerts := alerts s |}.

Definition set_trace (v : list Effect) (s : State) : State :=
  {| currentText := currentText s; currentChunks := currentChunks s;
     currentIndex := currentIndex s; isPlaying := isPlaying s;
     utterance := utterance s; voices := voices s;
     lastBoundaryGlobalStart := lastBoundaryGlobalStart s;
     restartInFlight := restartInFlight s; rateSlider := rateSlider s;
     volumeSlider := volumeSlider s; voiceSelect := voiceSelect s;
     selection := selection s; heap := heap s; queue := queue s;
     enginePaused := enginePaused s; timers := timers s; trace := v;
     errors := errors s; alerts := alerts s |}.

Definition set_errors (v : nat) (s : State) : State :=
  {| currentText := currentText s; currentChunks := currentChunks s;
     currentIndex := currentIndex s; isPlaying := isPlaying s;
     utterance := utterance s; voices := voices s;
     lastBoundaryGlobalStart := lastBoundaryGlobalStart s;
     restartInFlight := restartInFlight s; rateSlider := rateSlider s;
     volumeSlider := volumeSlider s; voiceSelect := voiceSelect s;
     selection := selection s; heap := heap s; queue := queue s;
     enginePaused := enginePaused s; timers := timers s; trace := trace s;
     errors := v; alerts := alerts s |}.

Definition set_alerts (v : nat) (s : State) : State :=
  {| currentText := currentText s; currentChunks := currentChunks s;
     currentIndex := currentIndex s; isPlaying := isPlaying s;
     utterance := utterance s; voices := voices s;
     lastBoundaryGlobalStart := lastBoundaryGlobalStart s;
     restartInFlight := restartInFlight s; rateSlider := rateSlider s;
     volumeSlider := volumeSlider s; voiceSelect := voiceSelect s;
     selection := selection s; heap := heap s; queue := queue s;
     enginePaused := enginePaused s; timers := timers s; trace := trace s;
     errors := errors s; alerts := v |}.
(** The page after [window.onload]: nothing loaded, nothing spoken, the
    rate slider at 1.  The volume slider and the selected voice come from
    the markup. *)
Definition initial (volume : jsnum) (voice : string) : State :=
  {| currentText := []; currentChunks := []; currentIndex := 0;
     isPlaying := false; utterance := None; voices := [];
     lastBoundaryGlobalStart := 0; restartInFlight := false;
     rateSlider := JNum 1; volumeSlider := volume; voiceSelect := voice;
     selection := (0, 0); heap := []; queue := []; enginePaused := false;
     timers := []; trace := []; errors := 0%nat; alerts := 0%nat |}.

(** ** Engine calls *)

Definition logEffect (e : Effect) (s : State) : State :=
  set_trace (trace s ++ [e]) s.

(** [speechSynthesis.cancel()] removes every utterance from the queue. *)
Definition engineCancel (s : State) : State :=
  logEffect ECancel (set_queue [] s).

(** [speechSynthesis.speak(u)] appends [u] to the queue. *)
Definition engineSpeak (id : nat) (s : State) : State :=
  logEffect (ESpeak id) (set_queue (queue s ++ [id]) s).

Definition enginePause (s : State) : State :=
  logEffect EPause (set_enginePaused true s).

Definition engineResume (s : State) : State :=
  logEffect EResume (set_enginePaused false s).

(** [speechSynthesis.speaking] *)
Definition engineSpeaking (s : State) : bool :=
  match queue s with
  | [] => false
  | _ :: _ => true
  end.

(** [u.onend = null; u.onerror = null] on the object [id] refers to. *)
Definition dropCallbacks (id : nat) (s : State) : State :=
  logEffect (ENullCallbacks id)
    (set_heap (match heap s !! id with
               | Some u => <[id := nullCallbacks u]> (heap s)
               | None => heap s
               end) s).

(** ** Text handling *)

Definition buildChunks (s : State) : State :=
  set_currentChunks (chunksOf (currentText s)) s.

(** [setTextViewer(text)]; [None] is a [text] that is null or
    undefined. *)
Definition setTextViewer (text : option jsstring) (s : State) : State :=
  let s := set_currentText (default [] text) s in
  let s := set_currentIndex 0 s in
  buildChunks s.

(** The end of [renderPDFToViewer], with the page texts extracted. *)
Definition renderPDFToViewer (pages : list jsstring) (s : State) : State :=
  let accumulated := concat (map (fun p => p ++ [10%N; 10%N]) pages) in
  let s := set_currentText accumulated s in
  let s := set_currentIndex 0 s in
  buildChunks s.

(** The [input] listener of the textarea. *)
Definition pasteBoxInput (value : jsstring) (s : State) : State :=
  let s := set_currentText value s in
  let s := set_currentIndex 0 s in
  buildChunks s.

(** ** Playback *)

(** [voices.find(vo => vo.name === selName) || voices.find(vo => vo.default)
    || voices[0]] *)
Definition pickVoice (s : State) : option Voice :=
  match List.find (fun vo => String.eqb (v_name vo) (voiceSelect s)) (voices s) with
  | Some v => Some v
  | None =>
      match List.find v_default (voices s) with
      | Some v => Some v
      | None => head (voices s)
      end
  end.

Definition speakChunk (text : jsstring) (onend : option Callback)
    (baseOffsetOverride : option Z) (s : State) : State :=
  let s :=
    match utterance s with
    | Some id => set_utterance None (engineCancel (dropCallbacks id s))
    | None => s
    end in
  let baseOffset :=
    match baseOffsetOverride with
    | Some b => b
    | None => currentIndex s * internalChunkSize
    end in
  let u :=
    {| u_text := text;
       u_rate := orElse (rateSlider s) (JNum 1);
       u_volume := orElse (volumeSlider s) (JNum 1);
       u_voice := pickVoice s;
       u_base := baseOffset;
       u_onend := Some (CallOnEnd onend);
       u_onerror := true |} in
  let id := length (heap s) in
  let s := set_utterance (Some id) (set_heap (heap s ++ [u]) s) in
  let s := set_lastBoundaryGlobalStart baseOffset s in
  engineSpeak id s.

(** The span [onboundary] computes from the event: start and end. *)
Definition boundarySpan (baseOffset : Z) (ci : Z) (cl : option Z) : Z * Z :=
  let start := baseOffset + orElseZ ci 0 in
  let stop := start + match cl with Some l => orElseZ l 1 | None => 1 end in
  (start, stop).

(** [utterance.onboundary] of the utterance with base offset
    [baseOffset]. *)
Definition onboundary (baseOffset : Z) (e : BoundaryEvent) (s : State) : State :=
  match charIndex e with
  | Some ci =>
      let '(start, stop) := boundarySpan baseOffset ci (charLength e) in
      let s := set_lastBoundaryGlobalStart start s in
      set_selection (start, stop) s
  | None => s
  end.

(** [updatePlayPauseUI()]; the classes and the label of the button are
    not modelled.  When the page is not playing, the script collapses the
    selection of the textarea to [pasteBox.selectionEnd || 0].  The
    caret is the browser's: the model takes for [selectionEnd] the end of
    the range last given to [setSelectionRange], and leaves out what the
    browser does to the caret in between (an assignment to the value of
    the textarea, the clamping of a range to the text, the user moving
    the caret).  Only the field [selection] depends on it, and no
    statement reads that field of a state this function has produced. *)
Definition updatePlayPauseUI (s : State) : State :=
  if isPlaying s then s
  else
    let stop := orElseZ (snd (selection s)) 0 in
    set_selection (stop, stop) s.

Definition addTimer (delay offset : Z) (s : State) : State :=
  set_timers (timers s ++ [mkTimer delay offset]) s.

(** [playFromCurrentChunk(offsetWithinChunk)], up to and including the
    call of [speakChunk].  The completion callback it passes is
    [AutoAdvance]; its body is [autoAdvance] below. *)
Definition playFromCurrentChunk (offsetWithinChunk : Z) (s : State) : State :=
  let s := if len (currentChunks s) =? 0 then buildChunks s else s in
  let s := if currentIndex s <? 0 then set_currentIndex 0 s else s in
  if currentIndex s >=? len (currentChunks s) then set_isPlaying false s
  else
    let s := set_isPlaying true s in
    let s := set_restartInFlight false s in
    let chunkFull := default [] (currentChunks s !! Z.to_nat (currentIndex s)) in
    let speakOffset := Z.max 0 (Z.min offsetWithinChunk (len chunkFull)) in
    let chunk := if speakOffset =? 0 then chunkFull else sliceFrom chunkFull speakOffset in
    let baseOffset := currentIndex s * internalChunkSize + speakOffset in
    let s := updatePlayPauseUI s in
    speakChunk chunk (Some AutoAdvance) (Some baseOffset) s.

(** The completion callback of [playFromCurrentChunk]. *)
Definition autoAdvance (s : State) : State :=
  let s := set_currentIndex (currentIndex s + 1) s in
  if (currentIndex s <? len (currentChunks s)) && isPlaying s
  then addTimer 120 0 s
  else updatePlayPauseUI (set_isPlaying false s).

Definition runCallback (cb : Callback) (s : State) : State :=
  match cb with
  | AutoAdvance => autoAdvance s
  end.

(** [utterance.onend] as installed by [speakChunk]. *)
Definition onendHandler (h : EndHandler) (s : State) : State :=
  match h with
  | CallOnEnd (Some cb) => runCallback cb s
  | CallOnEnd None => s
  end.

(** [utterance.onerror] as installed by [speakChunk]. *)
Definition onerrorHandler (s : State) : State :=
  set_isPlaying false (set_errors (S (errors s)) s).

(** The clamped index, the chunk index and the offset inside that chunk
    that [jumpToCharIndex] computes from [idx]. *)
Definition jumpTarget (text : jsstring) (idx : Z) : Z * Z * Z :=
  let idx := Z.max 0 (Z.min (len text - 1) idx) in
  let chunkSize := internalChunkSize in
  let index := idx / chunkSize in
  let baseOffset := index * chunkSize in
  let offsetWithinChunk := Z.max 0 (idx - baseOffset) in
  (idx, index, offsetWithinChunk).

Definition jumpToCharIndex (idx : Z) (s : State) : State :=
  match currentText s with
  | [] => s
  | _ :: _ =>
      let '(_, index, offsetWithinChunk) := jumpTarget (currentText s) idx in
      let s := set_currentIndex index s in
      playFromCurrentChunk offsetWithinChunk s
  end.

(** The click listener of the play/pause button. *)
Definition playPauseClick (s : State) : State :=
  match currentText s with
  | [] => set_alerts (S (alerts s)) s
  | _ :: _ =>
      if negb (isPlaying s) then
        if enginePaused s then
          updatePlayPauseUI (set_isPlaying true (engineResume s))
        else playFromCurrentChunk 0 s
      else
        let s := if engineSpeaking s then enginePause s else s in
        updatePlayPauseUI (set_isPlaying false s)
  end.

(** The click listener of the stop button. *)
Definition stopClick (s : State) : State :=
  let s := engineCancel s in
  let s := set_isPlaying false s in
  let s := set_currentIndex 0 s in
  let s := set_selection (0, 0) s in
  updatePlayPauseUI s.

(** ** Settings changes *)

Definition restartWithNewSettingsFromCurrentPosition (force : bool) (s : State) : State :=
  if restartInFlight s then s
  else
    let canRestart :=
      (isPlaying s || force)
      && match currentText s with [] => false | _ :: _ => true end in
    if negb canRestart then s
    else
      let chunkSize := internalChunkSize in
      let fallback := currentIndex s * chunkSize in
      let resumeAt :=
        if lastBoundaryGlobalStart s >=? 0 then lastBoundaryGlobalStart s
        else fallback in
      let s :=
        match utterance s with
        | Some id => dropCallbacks id s
        | None => s
        end in
      let s := set_restartInFlight true s in
      let s := engineCancel s in
      if negb (isPlaying s) && negb force then s
      else
        let newIndex := Z.max 0 (resumeAt / chunkSize) in
        let newBase := newIndex * chunkSize in
        let offset := Z.max 0 (resumeAt - newBase) in
        let s := set_currentIndex newIndex s in
        addTimer 60 offset s.

(** The [change] listeners; the control holds its new value when they
    run. *)
Definition voiceSelectChange (name : string) (s : State) : State :=
  restartWithNewSettingsFromCurrentPosition true (set_voiceSelect name s).

Definition rateSliderChange (v : jsnum) (s : State) : State :=
  restartWithNewSettingsFromCurrentPosition false (set_rateSlider v s).

Definition volumeSliderChange (v : jsnum) (s : State) : State :=
  restartWithNewSettingsFromCurrentPosition false (set_volumeSlider v s).

(** ** Events *)

(** What can happen to the page: the user's actions, a timer that fires,
    and the engine's callbacks on an utterance it was given.  The engine
    may call back on any utterance at any time, also on one that was
    cancelled.  [EvVoices] stands for [populateVoiceList]: the browser
    hands over its voices and the rebuilt select settles on a value; the
    options the function builds are [voiceOptions], further down. *)
Inductive Event : Type :=
| EvLoadText (text : option jsstring)
| EvLoadPDF (pages : list jsstring)
| EvPasteInput (value : jsstring)
| EvVoices (vs : list Voice) (selected : string)
| EvJump (idx : Z)
| EvPlayPause
| EvStop
| EvVoiceChange (name : string)
| EvRateChange (v : jsnum)
| EvVolumeChange (v : jsnum)
| EvTimer (k : nat)
| EvBoundary (id : nat) (e : BoundaryEvent)
| EvEnd (id : nat)
| EvError (id : nat).

(** The utterance [id] leaves the engine's queue. *)
Definition engineDone (id : nat) (s : State) : State :=
  set_queue (List.filter (fun j => negb (Nat.eqb j id)) (queue s)) s.

Definition step (ev : Event) (s : State) : State :=
  match ev with
  | EvLoadText text => setTextViewer text s
  | EvLoadPDF pages => renderPDFToViewer pages s
  | EvPasteInput value => pasteBoxInput value s
  | EvVoices vs selected => set_voiceSelect selected (set_voices vs s)
  | EvJump idx => jumpToCharIndex idx s
  | EvPlayPause => playPauseClick s
  | EvStop => stopClick s
  | EvVoiceChange name => voiceSelectChange name s
  | EvRateChange v => rateSliderChange v s
  | EvVolumeChange v => volumeSliderChange v s
  | EvTimer k =>
      match timers s !! k with
      | Some t => playFromCurrentChunk (t_offset t) (set_timers (delete k (timers s)) s)
      | None => s
      end
  | EvBoundary id e =>
      match heap s !! id with
      | Some u => onboundary (u_base u) e s
      | None => s
      end
  | EvEnd id =>
      match heap s !! id with
      | Some u =>
          let s := engineDone id s in
          match u_onend u with
          | Some h => onendHandler h s
          | None => s
          end
      | None => s
      end
  | EvError id =>
      match heap s !! id with
      | Some u =>
          let s := engineDone id s in
          if u_onerror u then onerrorHandler s else s
      | None => s
      end
  end.

(** The page after the events [evs], oldest first. *)
Definition run (evs : list Event) (s : State) : State :=
  fold_left (fun s ev => step ev s) evs s.

(** ** The order of effects *)

(** How far the script has gone in retiring the current utterance. *)
Inductive Phase : Type :=
| Live      (* callbacks installed *)
| Nulled    (* callbacks nulled *)
| Cleared.  (* callbacks nulled, then the engine cancelled *)

(** [discipline] reads a trace and follows the last utterance spoken.  It
    fails ([None]) when a speech request is issued while the one before
    still has its callbacks, or has not been cancelled since they were
    nulled. *)
Definition disciplineStep (a : option (nat * Phase)) (e : Effect)
    : option (option (nat * Phase)) :=
  match e, a with
  | ESpeak id, None => Some (Some (id, Live))
  | ESpeak id, Some (_, Cleared) => Some (Some (id, Live))
  | ESpeak _, Some (_, _) => None
  | ENullCallbacks id, Some (id', Live) =>
      Some (Some (id', if Nat.eqb id id' then Nulled else Live))
  | ENullCallbacks _, _ => Some a
  | ECancel, Some (id, Nulled) => Some (Some (id, Cleared))
  | ECancel, _ => Some a
  | EPause, _ => Some a
  | EResume, _ => Some a
  end.

Fixpoint discipline (a : option (nat * Phase)) (tr : list Effect)
    : option (option (nat * Phase)) :=
  match tr with
  | [] => Some a
  | e :: tr' =>
      match disciplineStep a e with
      | Some a' => discipline a' tr'
      | None => None
      end
  end.

(** ** Predicates of the statements *)

(** [currentChunks] holds the chunks of [currentText]: every listener
    that assigns [currentText] calls [buildChunks]. *)
Definition chunksInSync (s : State) : Prop :=
  currentChunks s = chunksOf (currentText s).

(** The heap after the [if (utterance)] block of [speakChunk]. *)
Definition retiredHeap (s : State) : list Utterance :=
  match utterance s with
  | Some id =>
      match heap s !! id with
      | Some u => <[id := nullCallbacks u]> (heap s)
      | None => heap s
      end
  | None => heap s
  end.

(** The utterance [speakChunk] builds. *)
Definition newUtterance (text : jsstring) (onend : option Callback)
    (baseOffsetOverride : option Z) (s : State) : Utterance :=
  {| u_text := text;
     u_rate := orElse (rateSlider s) (JNum 1);
     u_volume := orElse (volumeSlider s) (JNum 1);
     u_voice := pickVoice s;
     u_base := default (currentIndex s * internalChunkSize) baseOffsetOverride;
     u_onend := Some (CallOnEnd onend);
     u_onerror := true |}.

(** The offset [playFromCurrentChunk] speaks from, in a chunk of length
    [n], when asked for [offsetWithinChunk]. *)
Definition speakOffsetOf (offsetWithinChunk n : Z) : Z :=
  Z.max 0 (Z.min offsetWithinChunk n).

(** The state [playFromCurrentChunk] works on after its first two
    lines. *)
Definition prepared (s : State) : State :=
  let s := if len (currentChunks s) =? 0 then buildChunks s else s in
  if currentIndex s <? 0 then set_currentIndex 0 s else s.

(** The invariant of the script's use of the engine, on the current
    utterance reference, the utterance objects, the engine's queue and
    the trace of effects:
    - the queue holds nothing but the current utterance, once;
    - every utterance other than the current one has lost its completion
      and error callbacks;
    - the trace obeys [discipline] and ends on the current utterance. *)
Definition EngineInv (utt : option nat) (hp : list Utterance)
    (q : list nat) (tr : list Effect) : Prop :=
  match utt with
  | None => hp = [] /\ q = []
  | Some id => (id < length hp)%nat /\ (q = [] \/ q = [id])
  end
  /\ (forall j u, hp !! j = Some u -> utt <> Some j ->
        u_onend u = None /\ u_onerror u = false)
  /\ exists ph,
       discipline None tr
       = Some (match utt with None => None | Some id => Some (id, ph) end).

Definition engineInv (s : State) : Prop :=
  EngineInv (utterance s) (heap s) (queue s) (trace s).

(** The three invariants together: the chunks follow the text, the chunk
    index is not negative, and the engine is used one request at a
    time. *)
Definition pageInv (s : State) : Prop :=
  chunksInSync s /\ 0 <= currentIndex s /\ engineInv s.

(** The [change] events of the voice, rate and volume controls. *)
Definition settingsChange (ev : Event) : bool :=
  match ev with
  | EvVoiceChange _ | EvRateChange _ | EvVolumeChange _ => true
  | _ => false
  end.

(** What a burst of settings changes can do to a state [s0]: create no
    utterance, and schedule at most one restart, after which
    [restartInFlight] is set. *)
Definition burstOf (s0 s : State) : Prop :=
  length (heap s) = length (heap s0)
  /\ (length (timers s) <= length (timers s0) + 1)%nat
  /\ (length (timers s) = length (timers s0) + 1 -> restartInFlight s = true)%nat.

(** The settle window, between a restart that cancelled the engine and
    the next speech request: the engine's queue is empty and no utterance,
    the current one included, has a completion or error callback left. *)
Definition settled (s : State) : Prop :=
  queue s = []
  /\ forall j u, heap s !! j = Some u -> u_onend u = None /\ u_onerror u = false.

(** While [restartInFlight] is set, the page is in the settle window. *)
Definition settleInv (s : State) : Prop :=
  restartInFlight s = true -> settled s.

(** What a restart that goes ahead appends to the trace: the callbacks of
    the current utterance are nulled, then the engine is cancelled. *)
Definition restartEffects (s : State) : list Effect :=
  match utterance s with
  | Some old => [ENullCallbacks old; ECancel]
  | None => [ECancel]
  end.

(** A slider value that is 0 or not a number. *)
Definition zeroOrNaN (x : jsnum) : Prop :=
  match x with
  | JNaN => True
  | JNum q => q == 0
  end.

(** The last boundary is the base offset of the current utterance. *)
Definition cursorAtBase (s : State) : Prop :=
  exists cur u,
    utterance s = Some cur
    /\ heap s !! cur = Some u
    /\ lastBoundaryGlobalStart s = u_base u.

Definition notBoundary (ev : Event) : bool :=
  match ev with
  | EvBoundary _ _ => false
  | _ => true
  end.

(** What a load leaves: the new text, chunk index 0, the chunks of the
    new text, and the playing flag, the last boundary and the engine as
    they were. *)
Definition loadedFrom (text : jsstring) (s s' : State) : Prop :=
  currentText s' = text
  /\ currentIndex s' = 0
  /\ currentChunks s' = chunksOf text
  /\ concat (currentChunks s') = text
  /\ isPlaying s' = isPlaying s
  /\ lastBoundaryGlobalStart s' = lastBoundaryGlobalStart s
  /\ queue s' = queue s.

(** ** Proof automation *)

(** Field updates unfold when they are applied, so that a field of an
    updated state reduces to its value. *)
Arguments set_currentText v s /.
Arguments set_currentChunks v s /.
Arguments set_currentIndex v s /.
Arguments set_isPlaying v s /.
Arguments set_utterance v s /.
Arguments set_voices v s /.
Arguments set_lastBoundaryGlobalStart v s /.
Arguments set_restartInFlight v s /.
Arguments set_rateSlider v s /.
Arguments set_volumeSlider v s /.
Arguments set_voiceSelect v s /.
Arguments set_selection v s /.
Arguments set_heap v s /.
Arguments set_queue v s /.
Arguments set_enginePaused v s /.
Arguments set_timers v s /.
Arguments set_trace v s /.
Arguments set_errors v s /.
Arguments set_alerts v s /.

(** Reads the fields of an updated state. *)
Ltac sfields :=
  cbn [
    currentText currentChunks currentIndex isPlaying utterance voices
    lastBoundaryGlobalStart restartInFlight rateSlider volumeSlider
    voiceSelect selection heap queue enginePaused timers trace errors
    alerts
    set_currentText set_currentChunks set_currentIndex set_isPlaying
    set_utterance set_voices set_lastBoundaryGlobalStart
    set_restartInFlight set_rateSlider set_volumeSlider set_voiceSelect
    set_selection set_heap set_queue set_enginePaused set_timers set_trace
    set_errors set_alerts] in *.

(** Solves [engineInv] of a state that differs from one with the
    invariant in other fields only. *)
Ltac frame_inv := unfold engineInv in *; sfields; assumption.

Ltac frame_page :=
  unfold pageInv, chunksInSync, engineInv in *; sfields;
  repeat match goal with H : _ /\ _ |- _ => destruct H end;
  split; [| split]; first [assumption | lia | reflexivity].

Ltac frame_cursor :=
  unfold cursorAtBase in *; sfields; assumption.

(** ** Further definitions for the statements *)

(** The offset [restartWithNewSettingsFromCurrentPosition] resumes at. *)
Definition resumeAtOf (s : State) : Z :=
  if lastBoundaryGlobalStart s >=? 0 then lastBoundaryGlobalStart s
  else currentIndex s * internalChunkSize.

(** The state after [if (utterance) { utterance.onend = null;
    utterance.onerror = null; }]. *)
Definition retireCurrent (s : State) : State :=
  match utterance s with
  | Some id => dropCallbacks id s
  | None => s
  end.



(** The events of an undisturbed reading from the [k]-th request made
    since [h] utterances on: [m] times the engine's end event and the
    auto-advance timer, then the end event of the last request. *)
Definition readOn (h k m : nat) : list Event :=
  flat_map (fun j => [EvEnd (h + j); EvTimer 0]) (seq k m)
  ++ [EvEnd (h + (k + m))].

(** The page [s], while it reads chunk [i] of the document of [s0] with
    its [k]-th request since [s0] and nothing else going on. *)
Definition readingAt (s0 : State) (k i : nat) (s : State) : Prop :=
  currentText s = currentText s0
  /\ currentChunks s = currentChunks s0
  /\ currentIndex s = Z.of_nat i
  /\ isPlaying s = true
  /\ timers s = []
  /\ utterance s = Some (length (heap s0) + k)%nat
  /\ queue s = [(length (heap s0) + k)%nat]
  /\ length (heap s) = (length (heap s0) + k + 1)%nat
  /\ (u_onend <$> heap s !! (length (heap s0) + k)%nat)
     = Some (Some (CallOnEnd (Some AutoAdvance))).

(** ** PDF pages, spans and the highlight *)

(** [items.map(i => i.str).join(' ')], on the strings of the items. *)
Fixpoint joinSpace (items : list jsstring) : jsstring :=
  match items with
  | [] => []
  | itm :: rest =>
      match rest with
      | [] => itm
      | _ :: _ => itm ++ 32%N :: joinSpace rest
      end
  end.

(** An entry of [pages] in [extractTextFromPDF]: the strings of the text
    items and the page text. *)
Record PdfPage : Type := mkPdfPage {
  textItems : list jsstring;
  p_text : jsstring
}.

(** [extractTextFromPDF], on the strings of the text items of each page
    (what [page.getTextContent()] yields): the full text and the
    pages. *)
Definition extractTextFromPDF (file : list (list jsstring))
    : jsstring * list PdfPage :=
  fold_left
    (fun '(fullText, pages) items =>
       let pageText := joinSpace items in
       (fullText ++ pageText ++ [10%N; 10%N],
        pages ++ [{| textItems := items; p_text := pageText |}]))
    file ([], []).

(** A span element of the text layer.  [el_id] stands for the identity of
    the DOM element: the number of span elements the page created before
    it, over all the files rendered so far, so that the elements of two
    renders are never taken for each other.  [data_page] and
    [data_offset] are the fields of its [dataset.charIndex]. *)
Record SpanEl : Type := mkSpanEl {
  el_id : nat;
  textContent : jsstring;
  data_page : Z;
  data_offset : Z
}.

(** An entry of [pdfSpans]. *)
Record PdfSpan : Type := mkPdfSpan {
  sp_start : Z;
  sp_end : Z;
  sp_el : SpanEl
}.

(** An entry of [pdfPagesMeta]. *)
Record PageMeta : Type := mkPageMeta {
  pageNum : Z;
  pm_text : jsstring;
  pm_items : list jsstring
}.

(** The inner loop of [renderPDFToViewer] over the items of a page, from
    item [j] on ([items] are the items left), with [charAcc] and the
    spans pushed so far; [created] is the number of span elements created
    before this render. *)
Fixpoint spanLoop (created : nat) (pageNum pageBase : Z) (items : list jsstring)
    (charAcc : Z) (pdfSpans : list PdfSpan) : list PdfSpan :=
  match items with
  | [] => pdfSpans
  | itm :: rest =>
      let text := itm ++ match rest with [] => [] | _ :: _ => [32%N] end in
      let span :=
        {| el_id := created + length pdfSpans; textContent := text;
           data_page := pageNum; data_offset := charAcc |} in
      let start := pageBase + charAcc in
      let stop := start + len text in
      spanLoop created pageNum pageBase rest (charAcc + len text)
        (pdfSpans ++ [{| sp_start := start; sp_end := stop; sp_el := span |}])
  end.

(** The outer loop of [renderPDFToViewer], from page index [i] on. *)
Fixpoint pageLoop (created : nat) (pages : list PdfPage) (i : Z)
    (accumulated : jsstring) (pdfSpans : list PdfSpan)
    (pdfPagesMeta : list PageMeta)
    : jsstring * list PdfSpan * list PageMeta :=
  match pages with
  | [] => (accumulated, pdfSpans, pdfPagesMeta)
  | p :: rest =>
      let pageNum := i + 1 in
      let pageBase := len accumulated in
      let pdfSpans := spanLoop created pageNum pageBase (textItems p) 0 pdfSpans in
      let pdfPagesMeta :=
        pdfPagesMeta
        ++ [{| pageNum := pageNum; pm_text := p_text p; pm_items := textItems p |}] in
      pageLoop created rest (i + 1) (accumulated ++ p_text p ++ [10%N; 10%N])
        pdfSpans pdfPagesMeta
  end.

(** The script's variables of the PDF view, and the number of span
    elements the page has created so far.  [currentPDFSpanEl] keeps its
    element over a render: [renderPDFToViewer] empties the viewer and
    does not reset the variable. *)
Record PdfView : Type := mkPdfView {
  isPDFMode : bool;
  pdfSpans : list PdfSpan;
  pdfPagesMeta : list PageMeta;
  currentPDFSpanEl : option nat;  (* the identity of the element, or null *)
  elementsCreated : nat
}.

(** [renderPDFToViewer(file)] on the variables of the PDF view and on the
    page. *)
Definition renderPDF (file : list (list jsstring)) (v : PdfView) (s : State)
    : PdfView * State :=
  let data := extractTextFromPDF file in
  let '(accumulated, spans, meta) :=
    pageLoop (elementsCreated v) (snd data) 0 [] [] [] in
  ({| isPDFMode := true; pdfSpans := spans; pdfPagesMeta := meta;
      currentPDFSpanEl := currentPDFSpanEl v;
      elementsCreated := elementsCreated v + length spans |},
   buildChunks (set_currentIndex 0 (set_currentText accumulated s))).

(** [x >> 1]: the operand is first taken as a signed 32-bit integer. *)
Definition toInt32 (x : Z) : Z := (x + 2 ^ 31) mod 2 ^ 32 - 2 ^ 31.

Definition shiftRight1 (x : Z) : Z := Z.shiftr (toInt32 x) 1.

(** The loop of [findPDFSpanAt].  The outer [None] is a run that does not
    return: out of fuel, or the [TypeError] of reading [start] from an
    index outside the array. *)
Fixpoint findLoop (fuel : nat) (spans : list PdfSpan) (idx lo hi : Z)
    : option (option PdfSpan) :=
  if lo <=? hi then
    match fuel with
    | O => None
    | S fuel' =>
        let mid := shiftRight1 (lo + hi) in
        match (if mid <? 0 then None else spans !! Z.to_nat mid) with
        | None => None
        | Some s =>
            if idx <? sp_start s then findLoop fuel' spans idx lo (mid - 1)
            else if idx >=? sp_end s then findLoop fuel' spans idx (mid + 1) hi
            else Some (Some s)
        end
    end
  else Some None.

Definition findPDFSpanAt (spans : list PdfSpan) (idx : Z)
    : option (option PdfSpan) :=
  findLoop (S (length spans)) spans idx 0 (len spans - 1).

(** The PDF part of [onboundary], for the global offset [start]; a run
    of [findPDFSpanAt] that does not return leaves the view as it is
    (the exception ends the handler). *)
Definition highlightAt (start : Z) (v : PdfView) : PdfView :=
  if isPDFMode v && negb (len (pdfSpans v) =? 0) then
    match findPDFSpanAt (pdfSpans v) start with
    | Some (Some hit) =>
        if negb (match currentPDFSpanEl v with
                 | Some cur => Nat.eqb (el_id (sp_el hit)) cur
                 | None => false
                 end)
        then {| isPDFMode := isPDFMode v; pdfSpans := pdfSpans v;
                pdfPagesMeta := pdfPagesMeta v;
                currentPDFSpanEl := Some (el_id (sp_el hit));
                elementsCreated := elementsCreated v |}
        else v
    | _ => v
    end
  else v.

(** The character index the [dblclick] listener of the PDF view computes
    from the [dataset.charIndex] of the span clicked on. *)
Definition pdfCharIndex (meta : list PageMeta) (page offset : Z) : Z :=
  let total :=
    fold_left
      (fun total p =>
         if pageNum p <? page then total + (len (pm_text p) + 2) else total)
      meta 0 in
  total + orElseZ offset 0.

(** A double click on the span element [el] of the PDF view. *)
Definition pdfSpanDblClick (v : PdfView) (el : SpanEl) (s : State) : State :=
  jumpToCharIndex (pdfCharIndex (pdfPagesMeta v) (data_page el) (data_offset el)) s.

(** The spans are in reading order and do not overlap. *)
Definition spansSorted (l : list PdfSpan) : Prop :=
  (forall i a, l !! i = Some a -> sp_start a <= sp_end a)
  /\ (forall i j a b, (i < j)%nat -> l !! i = Some a -> l !! j = Some b ->
        sp_end a <= sp_start b).

(** The spans lie between [lo] and [hi]. *)
Definition spansWithin (lo hi : Z) (l : list PdfSpan) : Prop :=
  forall i a, l !! i = Some a -> lo <= sp_start a /\ sp_end a <= hi.

(** The global offset [idx] falls in the span [sp]. *)
Definition inSpan (idx : Z) (sp : PdfSpan) : Prop :=
  sp_start sp <= idx < sp_end sp.

(** The spans [spanLoop] pushes for [items], the first with identity
    [nextId]. *)
Fixpoint itemSpans (pageNum pageBase charAcc : Z) (nextId : nat)
    (items : list jsstring) : list PdfSpan :=
  match items with
  | [] => []
  | itm :: rest =>
      let text := itm ++ match rest with [] => [] | _ :: _ => [32%N] end in
      {| sp_start := pageBase + charAcc;
         sp_end := pageBase + charAcc + len text;
         sp_el := {| el_id := nextId; textContent := text;
                     data_page := pageNum; data_offset := charAcc |} |}
      :: itemSpans pageNum pageBase (charAcc + len text) (S nextId) rest
  end.

(** The spans [pageLoop] pushes for [pages], the first page with index
    [i] and base [pageBase]. *)
Fixpoint pageSpans (i pageBase : Z) (nextId : nat) (pages : list PdfPage)
    : list PdfSpan :=
  match pages with
  | [] => []
  | p :: rest =>
      itemSpans (i + 1) pageBase 0 nextId (textItems p)
      ++ pageSpans (i + 1) (pageBase + len (p_text p) + 2)
           (nextId + length (textItems p)) rest
  end.

(** The entries [pageLoop] pushes on [pdfPagesMeta] for [pages]. *)
Fixpoint metaOf (i : Z) (pages : list PdfPage) : list PageMeta :=
  match pages with
  | [] => []
  | p :: rest =>
      {| pageNum := i + 1; pm_text := p_text p; pm_items := textItems p |}
      :: metaOf (i + 1) rest
  end.

(** The span [sp] is the part of the text [T] that its element shows. *)
Definition spanShows (T : jsstring) (sp : PdfSpan) : Prop :=
  slice T (sp_start sp) (sp_end sp) = textContent (sp_el sp)
  /\ sp_end sp = sp_start sp + len (textContent (sp_el sp)).

(** The text [renderPDFToViewer] accumulates for [pages]. *)
Definition pagesText (pages : list PdfPage) : jsstring :=
  concat (map (fun p => p_text p ++ [10%N; 10%N]) pages).

(** The total [pdfCharIndex] reaches over the entries [meta] for the page
    number [page], from [total] on. *)
Definition charTotal (meta : list PageMeta) (page total : Z) : Z :=
  fold_left
    (fun total p =>
       if pageNum p <? page then total + (len (pm_text p) + 2) else total)
    meta total.

(** The pages [extractTextFromPDF] makes of the items of a file. *)
Definition pagesOf (file : list (list jsstring)) : list PdfPage :=
  map (fun items => {| textItems := items; p_text := joinSpace items |}) file.

(** ** Loading files *)

(** A file picked in the file input, with what reading it gives: the
    items of the pages of a PDF, or the text of any other file; [None]
    is a read that fails (the promise is rejected). *)
Inductive PickedFile : Type :=
| PdfFile (pages : option (list (list jsstring)))
| TextFile (txt : option jsstring).

Definition set_isPDFMode (b : bool) (v : PdfView) : PdfView :=
  {| isPDFMode := b; pdfSpans := pdfSpans v; pdfPagesMeta := pdfPagesMeta v;
     currentPDFSpanEl := currentPDFSpanEl v;
     elementsCreated := elementsCreated v |}.

(** One round of the [for] loop of the [change] listener of the file
    input.  A PDF that cannot be read fails inside [renderPDFToViewer],
    after [isPDFMode] is set and before the text is touched. *)
Definition loadFile (f : PickedFile) (vs : PdfView * State) : PdfView * State :=
  let '(v, s) := vs in
  match f with
  | PdfFile (Some pages) => renderPDF pages v s
  | PdfFile None =>
      (set_isPDFMode true v, set_alerts (S (alerts s)) (set_errors (S (errors s)) s))
  | TextFile (Some txt) => (set_isPDFMode false v, setTextViewer (Some txt) s)
  | TextFile None => (set_isPDFMode false v, set_alerts (S (alerts s)) s)
  end.

(** The [change] listener of the file input. *)
Definition fileInputChange (files : list PickedFile) (vs : PdfView * State)
    : PdfView * State :=
  fold_left (fun vs f => loadFile f vs) files vs.

(** The document text a file gives when it can be read. *)
Definition loadedText (f : PickedFile) : option jsstring :=
  match f with
  | PdfFile (Some pages) => Some (fst (extractTextFromPDF pages))
  | PdfFile None => None
  | TextFile txt => txt
  end.

(** The files that cannot be read. *)
Definition unreadable (f : PickedFile) : bool :=
  match loadedText f with
  | Some _ => false
  | None => true
  end.


(** ** The voice list *)

(** An element of the array [voices] with its position in the array.
    The position stands for the identity of the object: [includes]
    compares the objects, not their fields, and two voices of the
    engine may carry the same name and language. *)
Abbreviation VoiceObj := (nat * Voice)%type.

Definition voiceObjects (vs : list Voice) : list VoiceObj := imap pair vs.

Definition sameVoice (v w : VoiceObj) : bool := Nat.eqb (fst v) (fst w).

(** [unique.includes(v)] *)
Definition includes (l : list VoiceObj) (v : VoiceObj) : bool :=
  existsb (sameVoice v) l.

(** [picks.includes(v)], where [picks] may hold [undefined]. *)
Definition picksInclude (picks : list (option VoiceObj)) (v : VoiceObj) : bool :=
  existsb (fun p => match p with Some w => sameVoice v w | None => false end) picks.

(** The regular expressions of [populateVoiceList], as tests on the
    language tag and on the name of a voice. *)
Record VoiceTests : Type := mkVoiceTests {
  enUS : string -> bool;          (* /en[-_]?us/i *)
  enGB : string -> bool;          (* /en[-_]?gb/i *)
  en : string -> bool;            (* /en/i *)
  isMaleName : string -> bool;
  isFemaleName : string -> bool
}.

Definition voicePicks (T : VoiceTests) (os : list VoiceObj) : list (option VoiceObj) :=
  let find := fun pred => List.find pred os in
  let picks := [] in
  let picks := picks ++ [find (fun v => enUS T (v_lang (snd v)) && isMaleName T (v_name (snd v)))] in
  let picks := picks ++ [find (fun v => enUS T (v_lang (snd v)) && isFemaleName T (v_name (snd v)))] in
  let picks := picks ++ [find (fun v => enGB T (v_lang (snd v)) && isMaleName T (v_name (snd v)))] in
  let picks := picks ++ [find (fun v => enGB T (v_lang (snd v)) && isFemaleName T (v_name (snd v)))] in
  let picks := picks ++ [find (fun v => en T (v_lang (snd v)) && negb (picksInclude picks v))] in
  picks.

(** [if (p && !unique.includes(p)) unique.push(p)] *)
Definition pushPick (unique : list VoiceObj) (p : option VoiceObj) : list VoiceObj :=
  match p with
  | Some v => if negb (includes unique v) then unique ++ [v] else unique
  | None => unique
  end.

(** [if (unique.length < 5 && !unique.includes(v)) unique.push(v)] *)
Definition fillVoice (unique : list VoiceObj) (v : VoiceObj) : list VoiceObj :=
  if (length unique <? 5)%nat && negb (includes unique v)
  then unique ++ [v] else unique.

Definition uniqueVoices (T : VoiceTests) (os : list VoiceObj) : list VoiceObj :=
  fold_left fillVoice os (fold_left pushPick (voicePicks T os) []).

(** [unique.length ? unique : voices.slice(0,5)] *)
Definition listToShow (T : VoiceTests) (os : list VoiceObj) : list VoiceObj :=
  if (length (uniqueVoices T os) =? 0)%nat then take 5 os else uniqueVoices T os.

(** The options of the voice select: [VoiceOption v] is the option made
    from the voice [v], whose value is [v.name]; [Divider] is the
    disabled option between the suggestions and the installed voices. *)
Inductive SelectOption : Type :=
| VoiceOption (v : Voice)
| Divider.

(** The options [populateVoiceList] appends to the emptied select. *)
Definition voiceOptions (T : VoiceTests) (vs : list Voice) : list SelectOption :=
  ((fun v => VoiceOption (snd v)) <$> listToShow T (voiceObjects vs))
  ++ [Divider] ++ (VoiceOption <$> vs).

(** [Array.from(voiceSelect.options).slice(0,5)] of [updateVoiceInfo],
    the options whose texts are shown as the top suggestions. *)
Definition suggested (T : VoiceTests) (vs : list Voice) : list SelectOption :=
  take 5 (voiceOptions T vs).

(** The voice of the request [speakChunk] makes in the state [s]. *)
Definition requestVoice (text : jsstring) (onend : option Callback)
    (base : option Z) (s : State) : option (option Voice) :=
  u_voice <$> heap (speakChunk text onend base s) !! length (heap s).

(** What both loops keep: the voices listed so far are distinct objects
    of the array. *)
Definition distinctFrom (os unique : list VoiceObj) : Prop :=
  NoDup (fst <$> unique) /\ (forall v, v ∈ unique -> v ∈ os).
(** ** Lemmas on [slice] *)

Section SliceFacts.
Context {A : Type}.
Implicit Types t : list A.

Lemma len_nonneg t : 0 <= len t.
Proof. unfold len. lia. Qed.

Lemma len_app t1 t2 : len (t1 ++ t2) = len t1 + len t2.
Proof. unfold len. rewrite length_app. lia. Qed.

Lemma relIndex_inside n k : 0 <= k <= n -> relIndex n k = k.
Proof.
  intros Hk. unfold relIndex.
  destruct (Z.ltb_spec k 0); lia.
Qed.

Lemma relIndex_beyond n k : 0 <= n <= k -> relIndex n k = n.
Proof.
  intros Hk. unfold relIndex.
  destruct (Z.ltb_spec k 0); lia.
Qed.

Lemma slice_nonneg t b e :
  0 <= b <= len t -> b <= e ->
  slice t b e = take (Z.to_nat (Z.min e (len t) - b)) (drop (Z.to_nat b) t).
Proof.
  intros Hb He. unfold slice.
  rewrite (relIndex_inside _ b) by lia.
  unfold relIndex. destruct (Z.ltb_spec e 0); [lia | reflexivity].
Qed.

Lemma sliceFrom_drop t b :
  0 <= b <= len t -> sliceFrom t b = drop (Z.to_nat b) t.
Proof.
  intros Hb. unfold sliceFrom.
  rewrite slice_nonneg by lia.
  apply take_ge. rewrite length_drop. unfold len in *. lia.
Qed.

Lemma slice_length t b e :
  0 <= b <= len t -> b <= e ->
  len (slice t b e) = Z.min e (len t) - b.
Proof.
  intros Hb He. rewrite slice_nonneg by assumption.
  unfold len in *. rewrite length_take, length_drop. lia.
Qed.

End SliceFacts.

(** ** The chunking loop *)

Section ChunkLoop.
Variable chunkSize : Z.
Hypothesis chunkSize_pos : 0 < chunkSize.

Lemma ceilDiv_zero : ceilDiv 0 chunkSize = 0.
Proof. unfold ceilDiv. apply Z.div_small. lia. Qed.

Lemma ceilDiv_step n :
  0 < n -> ceilDiv n chunkSize = 1 + ceilDiv (Z.max 0 (n - chunkSize)) chunkSize.
Proof.
  intros Hn. unfold ceilDiv.
  destruct (Z.le_gt_cases chunkSize n) as [Hle | Hgt].
  - rewrite Z.max_r by lia.
    replace (n + chunkSize - 1) with (n - chunkSize + chunkSize - 1 + 1 * chunkSize) by lia.
    rewrite Z.div_add by lia. lia.
  - rewrite Z.max_l by lia.
    rewrite (Z.div_small (0 + chunkSize - 1)) by lia.
    symmetry. apply Z.div_unique with (r := n - 1). lia. lia.
Qed.

(** What one pass of the loop pushes, and what is left to the rest. *)
Lemma slice_then_rest (text : jsstring) i :
  0 <= i < len text ->
  slice text i (i + chunkSize) ++ drop (Z.to_nat (i + chunkSize)) text
  = drop (Z.to_nat i) text.
Proof.
  intros Hi. rewrite slice_nonneg by lia.
  destruct (Z.le_gt_cases (i + chunkSize) (len text)) as [Hle | Hgt].
  - rewrite Z.min_l by lia.
    replace (Z.to_nat (i + chunkSize)) with (Z.to_nat i + Z.to_nat (i + chunkSize - i))%nat by lia.
    rewrite <- drop_drop. apply take_drop.
  - rewrite Z.min_r by lia.
    rewrite (drop_ge text (Z.to_nat (i + chunkSize))) by (unfold len in *; lia).
    rewrite app_nil_r. apply take_ge.
    rewrite length_drop. unfold len in *. lia.
Qed.

(** The loop returns, and its result is the chunks pushed before plus
    the slices of the rest of the text. *)
Lemma chunkLoop_spec (text : jsstring) (fuel : nat) :
  forall i acc,
    0 <= i ->
    len text - i <= Z.of_nat fuel ->
    exists r,
      chunkLoop fuel chunkSize text i acc = Some (acc ++ r)
      /\ concat r = drop (Z.to_nat i) text
      /\ len r = ceilDiv (Z.max 0 (len text - i)) chunkSize
      /\ forall j, 0 <= j < len r ->
           r !! Z.to_nat j
           = Some (slice text (i + j * chunkSize) (i + j * chunkSize + chunkSize)).
Proof.
  induction fuel as [| fuel IH]; intros i acc Hi Hfuel.
  - exists []. cbn [chunkLoop].
    destruct (Z.ltb_spec i (len text)) as [Hlt | Hge]; [lia |].
    rewrite app_nil_r, Z.max_l by lia.
    repeat split.
    + cbn. symmetry. apply drop_ge. unfold len in *. lia.
    + rewrite ceilDiv_zero. reflexivity.
    + unfold len. cbn. lia.
  - cbn [chunkLoop].
    destruct (Z.ltb_spec i (len text)) as [Hlt | Hge].
    + destruct (IH (i + chunkSize) (acc ++ [slice text i (i + chunkSize)]))
        as (r & Hr & Hcat & Hlen & Hnth); [lia | lia |].
      exists (slice text i (i + chunkSize) :: r).
      repeat split.
      * rewrite Hr, <- app_assoc. reflexivity.
      * cbn [concat]. rewrite Hcat. apply slice_then_rest. lia.
      * unfold len in *. cbn [length]. rewrite Nat2Z.inj_succ, Hlen.
        rewrite (Z.max_r 0 (Z.of_nat (length text) - i)) by lia.
        rewrite (ceilDiv_step (Z.of_nat (length text) - i)) by lia.
        replace (Z.of_nat (length text) - (i + chunkSize))
          with (Z.of_nat (length text) - i - chunkSize) by lia.
        lia.
      * intros j Hj.
        destruct (Z.eq_dec j 0) as [-> | Hj0].
        -- change (Z.to_nat 0) with 0%nat. cbn [lookup list_lookup].
           rewrite Z.mul_0_l, Z.add_0_r. reflexivity.
        -- replace (Z.to_nat j) with (S (Z.to_nat (j - 1))) by lia.
           cbn [lookup list_lookup].
           rewrite Hnth by (unfold len in *; cbn [length] in Hj; lia).
           f_equal. f_equal; lia.
    + exists []. rewrite app_nil_r, Z.max_l by lia.
      repeat split.
      * cbn. symmetry. apply drop_ge. unfold len in *. lia.
      * rewrite ceilDiv_zero. reflexivity.
      * unfold len. cbn. lia.
Qed.

End ChunkLoop.

(** The loop of [buildChunks] always returns with the fuel [chunksOf]
  gives it. *)
Lemma chunksOf_loop (text : jsstring) :
chunkLoop (length text) internalChunkSize text 0 [] = Some (chunksOf text).
Proof.
destruct (chunkLoop_spec internalChunkSize eq_refl text (length text) 0 [])
  as (r & Hr & _); [lia | unfold len; lia |].
unfold chunksOf. rewrite Hr. reflexivity.
Qed.

Lemma chunksOf_spec (text : jsstring) :
concat (chunksOf text) = text
/\ len (chunksOf text) = ceilDiv (len text) internalChunkSize
/\ forall i, 0 <= i < len (chunksOf text) ->
     chunksOf text !! Z.to_nat i
     = Some (slice text (i * internalChunkSize)
               (i * internalChunkSize + internalChunkSize)).
Proof.
destruct (chunkLoop_spec internalChunkSize eq_refl text (length text) 0 [])
  as (r & Hr & Hcat & Hlen & Hnth); [lia | unfold len; lia |].
unfold chunksOf. rewrite Hr. change (default [] (Some ([] ++ r))) with r.
repeat split.
- rewrite Hcat. reflexivity.
- rewrite Hlen, Z.sub_0_r, Z.max_r by apply len_nonneg. reflexivity.
- intros i Hi. rewrite Hnth by assumption. reflexivity.
Qed.

(** ** The chunks follow the text *)

Lemma chunksOf_nil : chunksOf [] = [].
Proof. reflexivity. Qed.

Lemma chunksOf_length (text : jsstring) :
  len (chunksOf text) = ceilDiv (len text) internalChunkSize.
Proof. apply chunksOf_spec. Qed.

Lemma ceilDiv_pos n : 0 < n -> 0 < ceilDiv n internalChunkSize.
Proof.
  intros Hn. rewrite (ceilDiv_step internalChunkSize eq_refl n Hn).
  assert (0 <= ceilDiv (Z.max 0 (n - internalChunkSize)) internalChunkSize).
  { unfold ceilDiv. apply Z.div_pos; unfold internalChunkSize; lia. }
  lia.
Qed.

(** A chunk index is valid exactly when the chunk starts inside the
    text. *)
Lemma index_valid_iff (text : jsstring) i :
  0 <= i ->
  i < len (chunksOf text) <-> i * internalChunkSize < len text.
Proof.
  intros Hi. rewrite chunksOf_length. unfold ceilDiv, internalChunkSize.
  pose proof (len_nonneg text) as Hl.
  split; intros H.
  - assert (i + 1 <= (len text + 3000 - 1) / 3000) as H1 by lia.
    pose proof (Z.mul_div_le (len text + 3000 - 1) 3000 ltac:(lia)). nia.
  - assert (3000 * (i + 1) <= len text + 3000 - 1) as H2 by lia.
    apply Z.div_le_lower_bound in H2; lia.
Qed.

Lemma chunksOf_lookup (text : jsstring) i :
  0 <= i -> i * internalChunkSize < len text ->
  chunksOf text !! Z.to_nat i
  = Some (slice text (i * internalChunkSize) (i * internalChunkSize + internalChunkSize)).
Proof.
  intros Hi Hlt. apply chunksOf_spec. split; [assumption |].
  apply index_valid_iff; assumption.
Qed.

Lemma chunk_length (text : jsstring) i :
  0 <= i -> i * internalChunkSize < len text ->
  len (slice text (i * internalChunkSize) (i * internalChunkSize + internalChunkSize))
  = Z.min internalChunkSize (len text - i * internalChunkSize).
Proof.
  intros Hi Hlt. rewrite slice_length; unfold internalChunkSize in *; lia.
Qed.

Lemma sync_buildChunks s : chunksInSync (buildChunks s).
Proof. reflexivity. Qed.

Lemma sync_setTextViewer text s : chunksInSync (setTextViewer text s).
Proof. reflexivity. Qed.

Lemma sync_renderPDFToViewer pages s : chunksInSync (renderPDFToViewer pages s).
Proof. reflexivity. Qed.

Lemma sync_pasteBoxInput value s : chunksInSync (pasteBoxInput value s).
Proof. reflexivity. Qed.

(** ** What a speech request leaves behind *)

Lemma retiredHeap_length s : length (retiredHeap s) = length (heap s).
Proof.
  unfold retiredHeap. destruct (utterance s) as [id |]; [| reflexivity].
  destruct (heap s !! id); [apply length_insert | reflexivity].
Qed.

Section SpeakChunk.
Variables (text : jsstring) (onend : option Callback) (base : option Z).
Variable s : State.

Lemma speakChunk_heap :
  heap (speakChunk text onend base s)
  = retiredHeap s ++ [newUtterance text onend base s].
Proof.
  unfold speakChunk, retiredHeap, newUtterance, pickVoice.
  destruct (utterance s) as [old |]; cbn; [| destruct base; reflexivity].
  destruct (heap s !! old); destruct base; reflexivity.
Qed.

Lemma speakChunk_utterance :
  utterance (speakChunk text onend base s) = Some (length (heap s)).
Proof.
  unfold speakChunk.
  destruct (utterance s) as [old |]; cbn; [| reflexivity].
  destruct (heap s !! old); cbn; [| reflexivity].
  rewrite length_insert. reflexivity.
Qed.

Lemma speakChunk_lookup :
  heap (speakChunk text onend base s) !! length (heap s)
  = Some (newUtterance text onend base s).
Proof.
  rewrite speakChunk_heap, <- retiredHeap_length.
  apply list_lookup_middle. reflexivity.
Qed.

Lemma speakChunk_queue :
  queue (speakChunk text onend base s)
  = match utterance s with
    | Some _ => [length (heap s)]
    | None => queue s ++ [length (heap s)]
    end.
Proof.
  unfold speakChunk.
  destruct (utterance s) as [old |]; cbn; [| reflexivity].
  destruct (heap s !! old); cbn; [| reflexivity].
  rewrite length_insert. reflexivity.
Qed.

Lemma speakChunk_trace :
  trace (speakChunk text onend base s)
  = trace s
    ++ match utterance s with
       | Some old => [ENullCallbacks old; ECancel]
       | None => []
       end
    ++ [ESpeak (length (heap s))].
Proof.
  unfold speakChunk.
  destruct (utterance s) as [old |]; cbn; [| reflexivity].
  rewrite <- !app_assoc. cbn.
  destruct (heap s !! old); cbn; [| reflexivity].
  rewrite length_insert. reflexivity.
Qed.

Lemma speakChunk_lastBoundary :
  lastBoundaryGlobalStart (speakChunk text onend base s)
  = default (currentIndex s * internalChunkSize) base.
Proof.
  unfold speakChunk.
  destruct (utterance s) as [old |]; destruct base; reflexivity.
Qed.

(** The script's other variables and the page are left alone. *)
Lemma speakChunk_frame :
  currentText (speakChunk text onend base s) = currentText s
  /\ currentChunks (speakChunk text onend base s) = currentChunks s
  /\ currentIndex (speakChunk text onend base s) = currentIndex s
  /\ isPlaying (speakChunk text onend base s) = isPlaying s
  /\ restartInFlight (speakChunk text onend base s) = restartInFlight s
  /\ timers (speakChunk text onend base s) = timers s
  /\ selection (speakChunk text onend base s) = selection s
  /\ errors (speakChunk text onend base s) = errors s
  /\ alerts (speakChunk text onend base s) = alerts s.
Proof.
  unfold speakChunk.
  destruct (utterance s) as [old |]; cbn; repeat split; reflexivity.
Qed.

End SpeakChunk.

(** ** Playing from a chunk *)

Lemma speakOffsetOf_range off n : 0 <= n -> 0 <= speakOffsetOf off n <= n.
Proof. unfold speakOffsetOf. lia. Qed.

Lemma speakOffsetOf_inside off n : 0 <= off <= n -> speakOffsetOf off n = off.
Proof. unfold speakOffsetOf. lia. Qed.

(** With a valid chunk index, [playFromCurrentChunk] is one speech
    request for the chunk from the clamped offset on. *)
Lemma playFromCurrentChunk_valid s off (chunk : jsstring) :
  0 <= currentIndex s ->
  currentChunks s !! Z.to_nat (currentIndex s) = Some chunk ->
  playFromCurrentChunk off s
  = speakChunk (drop (Z.to_nat (speakOffsetOf off (len chunk))) chunk)
      (Some AutoAdvance)
      (Some (currentIndex s * internalChunkSize + speakOffsetOf off (len chunk)))
      (set_restartInFlight false (set_isPlaying true s)).
Proof.
  intros Hidx Hchunk.
  pose proof (lookup_lt_Some _ _ _ Hchunk) as Hlt.
  unfold playFromCurrentChunk.
  destruct (Z.eqb_spec (len (currentChunks s)) 0) as [H0 | _];
    [unfold len in H0; lia |].
  destruct (Z.ltb_spec (currentIndex s) 0) as [Hneg | _]; [lia |].
  destruct (Z.geb_spec (currentIndex s) (len (currentChunks s))) as [Hge | _];
    [unfold len in Hge; lia |].
  unfold updatePlayPauseUI. sfields. rewrite Hchunk.
  change (default [] (Some chunk)) with chunk.
  fold (speakOffsetOf off (len chunk)).
  pose proof (speakOffsetOf_range off (len chunk) (len_nonneg chunk)) as Hso.
  destruct (Z.eqb_spec (speakOffsetOf off (len chunk)) 0) as [-> | Hne].
  - reflexivity.
  - rewrite sliceFrom_drop by lia. reflexivity.
Qed.

(** With no text there is nothing to speak. *)
Lemma playFromCurrentChunk_empty s off :
  chunksInSync s ->
  currentText s = [] ->
  playFromCurrentChunk off s
  = set_isPlaying false
      (if currentIndex s <? 0 then set_currentIndex 0 (buildChunks s)
       else buildChunks s).
Proof.
  intros Hsync Htext. unfold playFromCurrentChunk.
  assert ((len (currentChunks s) =? 0) = true) as ->
    by (rewrite Hsync, Htext; reflexivity).
  unfold buildChunks. sfields. rewrite Htext, chunksOf_nil.
  destruct (Z.ltb_spec (currentIndex s) 0) as [Hneg | Hpos]; sfields.
  - reflexivity.
  - destruct (Z.geb_spec (currentIndex s) (len (@nil jsstring))) as [_ | Hlt];
      [reflexivity | unfold len in Hlt; cbn in Hlt; lia].
Qed.

(** ** One speech request at a time *)

Lemma discipline_app a tr1 tr2 :
  discipline a (tr1 ++ tr2)
  = match discipline a tr1 with
    | Some a' => discipline a' tr2
    | None => None
    end.
Proof.
  revert a. induction tr1 as [| e tr1 IH]; intros a; cbn; [reflexivity |].
  destruct (disciplineStep a e); [apply IH | reflexivity].
Qed.

Lemma engineInv_initial volume voice : engineInv (initial volume voice).
Proof.
  unfold engineInv, EngineInv. cbn. split; [split; reflexivity | split].
  - intros j u Hj. rewrite lookup_nil in Hj. discriminate.
  - exists Live. reflexivity.
Qed.

Lemma EngineInv_cancel utt hp q tr :
  EngineInv utt hp q tr -> EngineInv utt hp [] (tr ++ [ECancel]).
Proof.
  intros (Hq & Hcb & ph & Htr). split; [| split].
  - destruct utt as [id |]; [split; [apply Hq | left; reflexivity] |].
    split; [apply Hq | reflexivity].
  - exact Hcb.
  - rewrite discipline_app, Htr.
    destruct utt as [id |]; [| exists ph; reflexivity].
    destruct ph; cbn; eexists; reflexivity.
Qed.

Lemma EngineInv_quiet utt hp q tr e :
  e = EPause \/ e = EResume ->
  EngineInv utt hp q tr -> EngineInv utt hp q (tr ++ [e]).
Proof.
  intros He (Hq & Hcb & ph & Htr). split; [exact Hq | split; [exact Hcb |]].
  exists ph. rewrite discipline_app, Htr.
  destruct He as [-> | ->]; reflexivity.
Qed.

Lemma EngineInv_nullCallbacks id hp q tr :
  EngineInv (Some id) hp q tr ->
  EngineInv (Some id)
    (match hp !! id with
     | Some u => <[id := nullCallbacks u]> hp
     | None => hp
     end) q (tr ++ [ENullCallbacks id]).
Proof.
  intros ([Hid Hq] & Hcb & ph & Htr).
  destruct (lookup_lt_is_Some_2 hp id Hid) as [u Hu]. rewrite Hu.
  split; [| split].
  - split; [rewrite length_insert; exact Hid | exact Hq].
  - intros j w Hj Hne.
    rewrite list_lookup_insert_ne in Hj by congruence.
    apply (Hcb j w Hj Hne).
  - rewrite discipline_app, Htr. cbn.
    destruct ph; cbn; rewrite ?Nat.eqb_refl; eexists; reflexivity.
Qed.

Lemma EngineInv_done utt hp q tr id :
  EngineInv utt hp q tr ->
  EngineInv utt hp (List.filter (fun j => negb (Nat.eqb j id)) q) tr.
Proof.
  intros (Hq & Hcb & Htr). split; [| split; [exact Hcb | exact Htr]].
  destruct utt as [cur |].
  - destruct Hq as [Hid [-> | ->]]; (split; [exact Hid |]); cbn.
    + left; reflexivity.
    + destruct (negb (cur =? id)%nat); [right | left]; reflexivity.
  - destruct Hq as [Hh ->]. split; [exact Hh | reflexivity].
Qed.

(** An utterance that is not the current one is not in the queue. *)
Lemma EngineInv_not_queued utt hp q tr id :
  EngineInv utt hp q tr -> utt <> Some id ->
  List.filter (fun j => negb (Nat.eqb j id)) q = q.
Proof.
  intros (Hq & _) Hne.
  destruct utt as [cur |].
  - destruct Hq as [_ [-> | ->]]; [reflexivity |]. cbn.
    destruct (Nat.eqb_spec cur id) as [-> | _]; [congruence | reflexivity].
  - destruct Hq as [_ ->]. reflexivity.
Qed.

Lemma engineInv_speakChunk text onend base s :
  engineInv s -> engineInv (speakChunk text onend base s).
Proof.
  intros Hinv. unfold engineInv.
  rewrite speakChunk_utterance, speakChunk_heap, speakChunk_queue, speakChunk_trace.
  destruct Hinv as (Hq & Hcb & ph & Htr).
  split; [| split].
  - split; [rewrite length_app, retiredHeap_length; cbn; lia |].
    destruct (utterance s) as [old |]; [right; reflexivity |].
    destruct Hq as [_ ->]. right. reflexivity.
  - intros j u Hj Hne.
    assert (j <> length (retiredHeap s)) as Hj'
      by (rewrite retiredHeap_length; congruence).
    assert (j < length (retiredHeap s))%nat as Hlt.
    { apply lookup_lt_Some in Hj. rewrite length_app in Hj. cbn in Hj. lia. }
    rewrite lookup_app_l in Hj by exact Hlt.
    unfold retiredHeap in Hj.
    destruct (utterance s) as [old |].
    + destruct (heap s !! old) as [w |] eqn:Hold.
      * destruct (Nat.eq_dec j old) as [-> | Hjo].
        -- rewrite list_lookup_insert_eq in Hj by (eapply lookup_lt_Some; eauto).
           injection Hj as <-. split; reflexivity.
        -- rewrite list_lookup_insert_ne in Hj by congruence.
           apply (Hcb j u Hj). congruence.
      * apply (Hcb j u Hj). intros [= ->]. congruence.
    + apply (Hcb j u Hj). discriminate.
  - exists Live. rewrite discipline_app, Htr.
    destruct (utterance s) as [old |]; [| reflexivity].
    destruct ph; cbn; rewrite ?Nat.eqb_refl; reflexivity.
Qed.

(** ** Invariants of the page *)

(** [playFromCurrentChunk] either gives up or issues one speech
    request. *)
Lemma playFromCurrentChunk_cases off s :
  playFromCurrentChunk off s = set_isPlaying false (prepared s)
  \/ exists text base,
       playFromCurrentChunk off s
       = speakChunk text (Some AutoAdvance) (Some base)
           (set_restartInFlight false (set_isPlaying true (prepared s))).
Proof.
  unfold playFromCurrentChunk. fold (prepared s).
  destruct (currentIndex (prepared s) >=? len (currentChunks (prepared s)));
    [left; reflexivity | right].
  unfold updatePlayPauseUI. sfields. eexists _, _. reflexivity.
Qed.

Lemma prepared_frame s :
  currentText (prepared s) = currentText s
  /\ utterance (prepared s) = utterance s
  /\ heap (prepared s) = heap s
  /\ queue (prepared s) = queue s
  /\ trace (prepared s) = trace s
  /\ timers (prepared s) = timers s
  /\ errors (prepared s) = errors s.
Proof.
  unfold prepared, buildChunks.
  destruct (len (currentChunks s) =? 0); sfields;
    match goal with |- context [?a <? 0] => destruct (a <? 0) end;
    sfields; repeat split; reflexivity.
Qed.

Lemma prepared_sync s : chunksInSync s -> chunksInSync (prepared s).
Proof.
  unfold prepared, buildChunks, chunksInSync.
  destruct (len (currentChunks s) =? 0); sfields;
    match goal with |- context [?a <? 0] => destruct (a <? 0) end;
    sfields; auto.
Qed.

Lemma prepared_index s : 0 <= currentIndex (prepared s).
Proof.
  unfold prepared, buildChunks.
  destruct (len (currentChunks s) =? 0); sfields;
    match goal with |- context [?a <? 0] => destruct (Z.ltb_spec a 0) end;
    sfields; lia.
Qed.

Lemma engineInv_prepared s : engineInv s -> engineInv (prepared s).
Proof.
  intros H. unfold engineInv.
  destruct (prepared_frame s) as (_ & -> & -> & -> & -> & _). exact H.
Qed.

Lemma pageInv_initial volume voice : pageInv (initial volume voice).
Proof.
  split; [reflexivity | split; [cbn; lia | apply engineInv_initial]].
Qed.

Lemma pageInv_speakChunk text onend base s :
  pageInv s -> pageInv (speakChunk text onend base s).
Proof.
  intros (Hsync & Hidx & Hinv).
  destruct (speakChunk_frame text onend base s) as (Ht & Hc & Hi & _).
  split; [| split].
  - unfold chunksInSync. rewrite Ht, Hc. exact Hsync.
  - rewrite Hi. exact Hidx.
  - apply engineInv_speakChunk. exact Hinv.
Qed.

Lemma pageInv_prepared s : pageInv s -> pageInv (prepared s).
Proof.
  intros (Hsync & Hidx & Hinv).
  split; [apply prepared_sync; exact Hsync |].
  split; [apply prepared_index | apply engineInv_prepared; exact Hinv].
Qed.

Lemma pageInv_playFromCurrentChunk off s :
  pageInv s -> pageInv (playFromCurrentChunk off s).
Proof.
  intros H. apply pageInv_prepared in H.
  destruct (playFromCurrentChunk_cases off s) as [-> | (text & base & ->)].
  - frame_page.
  - apply pageInv_speakChunk. frame_page.
Qed.

Lemma pageInv_updatePlayPauseUI s : pageInv s -> pageInv (updatePlayPauseUI s).
Proof.
  intros H. unfold updatePlayPauseUI. destruct (isPlaying s); [exact H | frame_page].
Qed.

Lemma pageInv_loaded text s : pageInv s -> pageInv (buildChunks (set_currentIndex 0 (set_currentText text s))).
Proof.
  intros (_ & _ & Hinv). split; [reflexivity | split; [cbn; lia | frame_inv]].
Qed.

Lemma jumpTarget_index text idx :
  0 <= snd (fst (jumpTarget text idx)).
Proof.
  unfold jumpTarget. cbn. apply Z.div_pos; unfold internalChunkSize; lia.
Qed.

Lemma pageInv_jumpToCharIndex idx s : pageInv s -> pageInv (jumpToCharIndex idx s).
Proof.
  intros H. unfold jumpToCharIndex.
  destruct (currentText s) as [| c text] eqn:Ht; [exact H |].
  pose proof (jumpTarget_index (c :: text) idx) as Hi.
  destruct (jumpTarget (c :: text) idx) as [[clamped index] off].
  apply pageInv_playFromCurrentChunk. cbn in Hi. frame_page.
Qed.

Lemma pageInv_engineCancel s : pageInv s -> pageInv (engineCancel s).
Proof.
  intros (Hsync & Hidx & Hinv). split; [exact Hsync | split; [exact Hidx |]].
  unfold engineInv, engineCancel, logEffect. sfields. eapply EngineInv_cancel. exact Hinv.
Qed.

Lemma pageInv_quiet e s :
  e = EPause \/ e = EResume -> pageInv s -> pageInv (logEffect e s).
Proof.
  intros He (Hsync & Hidx & Hinv). split; [exact Hsync | split; [exact Hidx |]].
  unfold engineInv, logEffect. sfields. apply EngineInv_quiet; assumption.
Qed.

Lemma pageInv_dropCallbacks id s :
  utterance s = Some id -> pageInv s -> pageInv (dropCallbacks id s).
Proof.
  intros Hid (Hsync & Hidx & Hinv). split; [exact Hsync | split; [exact Hidx |]].
  unfold engineInv, dropCallbacks, logEffect in *. sfields. rewrite Hid in *.
  apply EngineInv_nullCallbacks, Hinv.
Qed.

Lemma pageInv_engineDone id s : pageInv s -> pageInv (engineDone id s).
Proof.
  intros (Hsync & Hidx & Hinv). split; [exact Hsync | split; [exact Hidx |]].
  unfold engineInv, engineDone. sfields. apply EngineInv_done, Hinv.
Qed.

Lemma pageInv_playPauseClick s : pageInv s -> pageInv (playPauseClick s).
Proof.
  intros H. unfold playPauseClick.
  destruct (currentText s) eqn:Ht; [frame_page |].
  destruct (isPlaying s); cbn [negb].
  - apply pageInv_updatePlayPauseUI.
    assert (pageInv (if engineSpeaking s then enginePause s else s)) as H'.
    { destruct (engineSpeaking s); [| exact H].
      unfold enginePause.
      apply (pageInv_quiet EPause); [left; reflexivity | frame_page]. }
    revert H'. generalize (if engineSpeaking s then enginePause s else s).
    intros s' H'. frame_page.
  - destruct (enginePaused s).
    + apply pageInv_updatePlayPauseUI.
      assert (pageInv (engineResume s)) as H'.
      { unfold engineResume.
        apply (pageInv_quiet EResume); [right; reflexivity | frame_page]. }
      revert H'. generalize (engineResume s). intros s' H'. frame_page.
    + apply pageInv_playFromCurrentChunk, H.
Qed.

Lemma pageInv_stopClick s : pageInv s -> pageInv (stopClick s).
Proof.
  intros H. unfold stopClick.
  apply pageInv_updatePlayPauseUI.
  apply pageInv_engineCancel in H. revert H. generalize (engineCancel s).
  intros s' H'. frame_page.
Qed.

Lemma pageInv_restart force s :
  pageInv s -> pageInv (restartWithNewSettingsFromCurrentPosition force s).
Proof.
  intros H. unfold restartWithNewSettingsFromCurrentPosition.
  destruct (restartInFlight s); [exact H |].
  destruct (negb _); [exact H |].
  assert (pageInv (match utterance s with
                   | Some id => dropCallbacks id s
                   | None => s
                   end)) as H1.
  { destruct (utterance s) as [id |] eqn:Hu; [| exact H].
    apply pageInv_dropCallbacks; assumption. }
  revert H1.
  generalize (match utterance s with Some id => dropCallbacks id s | None => s end).
  intros s1 H1.
  assert (pageInv (engineCancel (set_restartInFlight true s1))) as H2.
  { apply pageInv_engineCancel. frame_page. }
  revert H2. generalize (engineCancel (set_restartInFlight true s1)).
  intros s2 H2.
  destruct (negb (isPlaying s2) && negb force); [exact H2 |].
  unfold addTimer. frame_page.
Qed.

Lemma pageInv_autoAdvance s : pageInv s -> pageInv (autoAdvance s).
Proof.
  intros H. unfold autoAdvance. sfields.
  match goal with |- context [if ?c then _ else _] => destruct c end.
  - unfold addTimer. frame_page.
  - apply pageInv_updatePlayPauseUI. frame_page.
Qed.

Theorem pageInv_step ev s : pageInv s -> pageInv (step ev s).
Proof.
  intros H. destruct ev; cbn [step].
  - apply pageInv_loaded, H.
  - apply pageInv_loaded, H.
  - apply pageInv_loaded, H.
  - frame_page.
  - apply pageInv_jumpToCharIndex, H.
  - apply pageInv_playPauseClick, H.
  - apply pageInv_stopClick, H.
  - apply pageInv_restart. frame_page.
  - apply pageInv_restart. frame_page.
  - apply pageInv_restart. frame_page.
  - destruct (timers s !! k) as [t |]; [| exact H].
    apply pageInv_playFromCurrentChunk. frame_page.
  - destruct (heap s !! id) as [u |]; [| exact H].
    unfold onboundary. destruct (charIndex e); [| exact H].
    destruct (boundarySpan _ _ _). frame_page.
  - destruct (heap s !! id) as [u |]; [| exact H].
    apply (pageInv_engineDone id) in H.
    destruct (u_onend u) as [[[[]|]] |]; cbn; try exact H.
    apply pageInv_autoAdvance, H.
  - destruct (heap s !! id) as [u |]; [| exact H].
    apply (pageInv_engineDone id) in H.
    destruct (u_onerror u); [| exact H].
    unfold onerrorHandler. revert H. generalize (engineDone id s).
    intros s' H'. frame_page.
Qed.

Theorem pageInv_run evs s : pageInv s -> pageInv (run evs s).
Proof.
  revert s. induction evs as [| ev evs IH]; intros s H; cbn; [exact H |].
  apply IH, pageInv_step, H.
Qed.

(** * The properties of the specification *)

(** ** Chunk coverage *)

(** A list whose [i]-th element is [f i] is the image of [0 .. n-1]. *)
Lemma list_tabulate {A : Type} (f : Z -> A) (l : list A) :
  (forall i, 0 <= i < len l -> l !! Z.to_nat i = Some (f i)) ->
  l = f <$> seqZ 0 (len l).
Proof.
  intros Hl. apply list_eq. intros n.
  rewrite list_lookup_fmap.
  destruct (Nat.lt_ge_cases n (length l)) as [Hlt | Hge].
  - rewrite lookup_seqZ_lt by (unfold len; lia). cbn.
    rewrite <- (Nat2Z.id n) at 1. rewrite Hl by (unfold len; lia).
    f_equal.
  - rewrite lookup_seqZ_ge by (unfold len; lia). cbn.
    apply lookup_ge_None_2. exact Hge.
Qed.

(** C1.  Rebuilding the chunks of a document, with the chunk size 3000,
    gives a list whose concatenation is the document text, whose length
    is ceil(len(text) / 3000), which is empty when the text is empty, and
    whose chunk [i] is the slice of the text that starts at the global
    offset [i * 3000]. *)
Theorem buildChunks_covers_text (s : State) :
  let text := currentText s in
  let chunks := currentChunks (buildChunks s) in
  concat chunks = text
  /\ len chunks = ceilDiv (len text) internalChunkSize
  /\ currentChunks (buildChunks (set_currentText [] s)) = []
  /\ chunks
     = (fun i => slice text (i * internalChunkSize)
                   (i * internalChunkSize + internalChunkSize))
       <$> seqZ 0 (len chunks).
Proof.
  cbn zeta. unfold buildChunks. sfields.
  destruct (chunksOf_spec (currentText s)) as (Hcat & Hlen & Hnth).
  split; [exact Hcat |]. split; [exact Hlen |]. split; [reflexivity |].
  apply list_tabulate. exact Hnth.
Qed.

(** ** Speaking from an offset inside a chunk *)

(** C10.  For every call of [playFromCurrentChunk] with a valid chunk
    index, the requested offset is clamped into [0, len(chunk)] before
    slicing: the spoken text is the suffix of the chunk from the clamped
    offset on, and the base offset of the request is
    [chunkIndex * chunkSize + clampedOffset], whatever offset the caller
    passes. *)
Theorem playFromCurrentChunk_clamps_offset (s : State) (off : Z) :
  0 <= currentIndex s < len (currentChunks s) ->
  let s' := playFromCurrentChunk off s in
  exists chunk u,
    let clamped := Z.max 0 (Z.min off (len chunk)) in
    currentChunks s !! Z.to_nat (currentIndex s) = Some chunk
    /\ 0 <= clamped <= len chunk
    /\ utterance s' = Some (length (heap s))
    /\ heap s' !! length (heap s) = Some u
    /\ u_text u = drop (Z.to_nat clamped) chunk
    /\ chunk = take (Z.to_nat clamped) chunk ++ u_text u
    /\ u_base u = currentIndex s * internalChunkSize + clamped
    /\ lastBoundaryGlobalStart s' = u_base u.
Proof.
  intros [Hlo Hhi] s'.
  destruct (lookup_lt_is_Some_2 (currentChunks s) (Z.to_nat (currentIndex s)))
    as [chunk Hchunk]; [unfold len in Hhi; lia |].
  subst s'. rewrite (playFromCurrentChunk_valid s off chunk Hlo Hchunk).
  eexists chunk, _. cbn zeta.
  split; [exact Hchunk |].
  split; [apply speakOffsetOf_range, len_nonneg |].
  split; [exact (speakChunk_utterance _ _ _ _) |].
  split; [exact (speakChunk_lookup _ _ _ _) |].
  split; [reflexivity |].
  split; [symmetry; apply take_drop |].
  split; [reflexivity |].
  rewrite speakChunk_lastBoundary. reflexivity.
Qed.

Lemma playFromCurrentChunk_clamps_offset_witness :
  let s := step (EvPasteInput [104; 105; 33]%N) (initial (JNum 1) "") in
  exists chunk u,
    currentChunks s !! 0%nat = Some chunk
    /\ heap (playFromCurrentChunk 7 s) !! 0%nat = Some u
    /\ u_text u = drop 3 chunk
    /\ u_base u = 3.
Proof.
  intros s.
  destruct (playFromCurrentChunk_clamps_offset s 7) as (chunk & u & H).
  - split; vm_compute; [discriminate | reflexivity].
  - exists chunk, u.
    destruct H as (Hc & _ & _ & Hu & Ht & _ & Hb & _).
    split; [exact Hc |]. split; [exact Hu |].
    assert (chunk = [104; 105; 33]%N) as -> by (vm_compute in Hc; congruence).
    split; [exact Ht | exact Hb].
Defined.

(** ** Offset round trip *)

Lemma jumpTarget_inside (text : jsstring) (o : Z) :
  0 <= o < len text ->
  jumpTarget text o
  = (o, o / internalChunkSize, o - o / internalChunkSize * internalChunkSize).
Proof.
  intros Ho. unfold jumpTarget. cbn zeta.
  rewrite (Z.min_r (len text - 1) o), (Z.max_r 0 o) by lia.
  pose proof (Z.mul_div_le o internalChunkSize eq_refl).
  rewrite Z.max_r by lia. reflexivity.
Qed.

(** A jump to an offset inside the document is one speech request, for
    the rest of the chunk that holds the offset. *)
Lemma jumpToCharIndex_inside (s : State) (o : Z) :
  chunksInSync s ->
  0 <= o < len (currentText s) ->
  let index := o / internalChunkSize in
  let inChunk := o - index * internalChunkSize in
  exists chunk,
    currentChunks s !! Z.to_nat index = Some chunk
    /\ 0 <= inChunk < len chunk
    /\ jumpToCharIndex o s
       = speakChunk (drop (Z.to_nat inChunk) chunk) (Some AutoAdvance) (Some o)
           (set_restartInFlight false
              (set_isPlaying true (set_currentIndex index s))).
Proof.
  intros Hsync Ho. cbn zeta.
  set (index := o / internalChunkSize).
  set (inChunk := o - index * internalChunkSize).
  pose proof (jumpTarget_inside (currentText s) o Ho) as Htarget.
  fold index in Htarget. fold inChunk in Htarget.
  assert (0 <= index) as Hindex
    by (apply Z.div_pos; unfold internalChunkSize; lia).
  assert (index * internalChunkSize <= o) as Hle
    by (pose proof (Z.mul_div_le o internalChunkSize eq_refl); subst index; lia).
  assert (o < index * internalChunkSize + internalChunkSize) as Hlt.
  { pose proof (Z.mod_pos_bound o internalChunkSize eq_refl) as Hmod.
    pose proof (Z.div_mod o internalChunkSize ltac:(discriminate)) as Hdm.
    subst index. lia. }
  pose proof (chunksOf_lookup (currentText s) index Hindex ltac:(lia)) as Hchunk.
  pose proof (chunk_length (currentText s) index Hindex ltac:(lia)) as Hclen.
  set (chunk := slice (currentText s) (index * internalChunkSize)
                  (index * internalChunkSize + internalChunkSize)) in *.
  exists chunk.
  split; [rewrite Hsync; exact Hchunk |].
  split; [subst inChunk; lia |].
  unfold jumpToCharIndex. rewrite Htarget.
  destruct (currentText s) as [| c text] eqn:Htext;
    [unfold len in Ho; cbn in Ho; lia |].
  rewrite <- Htext in *.
  rewrite (playFromCurrentChunk_valid (set_currentIndex index s) inChunk chunk);
    [| exact Hindex | sfields; rewrite Hsync; exact Hchunk].
  rewrite speakOffsetOf_inside by (subst inChunk; lia).
  cbn [currentIndex set_currentIndex].
  replace (index * internalChunkSize + inChunk) with o by (subst inChunk; lia).
  reflexivity.
Qed.

(** C2.  A jump to a global offset [o] inside the document resolves to
    the chunk index floor(o / chunkSize) and the in-chunk offset
    [o - floor(o / chunkSize) * chunkSize]; the speech request starts
    there, and the tracked cursor (chunk index and last boundary) read
    back right after the jump gives the global address [o] again. *)
Theorem jump_round_trip (s : State) (o : Z) :
  chunksInSync s ->
  0 <= o < len (currentText s) ->
  let s' := jumpToCharIndex o s in
  let index := o / internalChunkSize in
  let inChunk := o - index * internalChunkSize in
  jumpTarget (currentText s) o = (o, index, inChunk)
  /\ currentIndex s' = index
  /\ lastBoundaryGlobalStart s' = o
  /\ currentIndex s' * internalChunkSize + inChunk = o
  /\ isPlaying s' = true
  /\ exists chunk u,
       currentChunks s' !! Z.to_nat index = Some chunk
       /\ utterance s' = Some (length (heap s))
       /\ heap s' !! length (heap s) = Some u
       /\ u_text u = drop (Z.to_nat inChunk) chunk
       /\ u_base u = o.
Proof.
  intros Hsync Ho. cbn zeta.
  destruct (jumpToCharIndex_inside s o Hsync Ho) as (chunk & Hchunk & _ & ->).
  match goal with |- context [speakChunk ?t ?c ?b ?st] =>
    destruct (speakChunk_frame t c b st) as (_ & Hc & Hi & Hp & _);
    pose proof (speakChunk_utterance t c b st) as Hu;
    pose proof (speakChunk_lookup t c b st) as Hh;
    pose proof (speakChunk_lastBoundary t c b st) as Hb
  end.
  sfields.
  split; [apply jumpTarget_inside, Ho |].
  split; [exact Hi |]. split; [exact Hb |].
  split; [rewrite Hi; lia |]. split; [exact Hp |].
  eexists chunk, _.
  split; [rewrite Hc; exact Hchunk |].
  split; [exact Hu |]. split; [exact Hh |]. split; reflexivity.
Qed.

Lemma jump_round_trip_witness :
  let s := step (EvPasteInput (repeat 97%N (Z.to_nat 7000))) (initial (JNum 1) "") in
  len <$> currentChunks s = [3000; 3000; 1000]
  /\ jumpTarget (currentText s) 3500 = (3500, 1, 500)
  /\ currentIndex (jumpToCharIndex 3500 s) = 1
  /\ lastBoundaryGlobalStart (jumpToCharIndex 3500 s) = 3500
  /\ currentIndex (jumpToCharIndex 3500 s) * internalChunkSize + 500 = 3500.
Proof.
  intros s.
  destruct (jump_round_trip s 3500) as (Ht & Hi & Hb & Ha & _).
  - reflexivity.
  - split; vm_compute; [discriminate | reflexivity].
  - split; [vm_compute; reflexivity |].
    split; [exact Ht |]. split; [exact Hi |]. split; [exact Hb | exact Ha].
Defined.

(** ** Rate and volume of a request *)

Lemma zeroOrNaN_falsy x : zeroOrNaN x -> orElse x (JNum 1) = JNum 1.
Proof.
  unfold orElse. destruct x as [| q]; cbn; [reflexivity |].
  intros Hq. apply Qeq_bool_iff in Hq. rewrite Hq. reflexivity.
Qed.

(** C9.  When the volume slider holds 0 or a value that is not a number,
    the next speech request is issued with volume 1, and likewise for the
    rate slider and the rate: a volume of 0 does not mute the speech. *)
Theorem falsy_slider_speaks_at_one (text : jsstring) (onend : option Callback)
    (base : option Z) (s : State) :
  let s' := speakChunk text onend base s in
  exists u,
    utterance s' = Some (length (heap s))
    /\ heap s' !! length (heap s) = Some u
    /\ last (queue s') = Some (length (heap s))
    /\ (zeroOrNaN (volumeSlider s) -> u_volume u = JNum 1)
    /\ (zeroOrNaN (rateSlider s) -> u_rate u = JNum 1).
Proof.
  cbn zeta. exists (newUtterance text onend base s).
  split; [apply speakChunk_utterance |].
  split; [apply speakChunk_lookup |].
  split.
  { rewrite speakChunk_queue.
    destruct (utterance s); [reflexivity | apply last_snoc]. }
  split; intros H; cbn; apply zeroOrNaN_falsy, H.
Qed.

Lemma falsy_slider_speaks_at_one_witness :
  let s := step (EvRateChange JNaN)
             (step (EvPasteInput [104; 105]%N) (initial (JNum 0) "")) in
  exists u,
    heap (speakChunk [104; 105]%N None None s) !! 0%nat = Some u
    /\ u_volume u = JNum 1
    /\ u_rate u = JNum 1.
Proof.
  intros s.
  destruct (falsy_slider_speaks_at_one [104; 105]%N None None s)
    as (u & _ & Hu & _ & Hv & Hr).
  exists u. split; [exact Hu |].
  split; [apply Hv; vm_compute; reflexivity | apply Hr; vm_compute; exact I].
Defined.

(** ** Auto-advance *)

(** C6.  When the engine reports the natural completion of the current
    chunk's utterance, the chunk index goes up by one.  If the new index
    is still below the chunk count and the player is still playing, the
    next chunk is scheduled after a delay of 120 ms and is then spoken
    whole, from in-chunk offset 0; otherwise the playing flag is cleared,
    nothing is scheduled, and no error is reported. *)
Theorem natural_completion_advances (s : State) (id : nat) (u : Utterance) :
  0 <= currentIndex s ->
  heap s !! id = Some u ->
  u_onend u = Some (CallOnEnd (Some AutoAdvance)) ->
  let s1 := step (EvEnd id) s in
  let next := currentIndex s + 1 in
  currentIndex s1 = next
  /\ heap s1 = heap s
  /\ trace s1 = trace s
  /\ errors s1 = errors s
  /\ if (next <? len (currentChunks s)) && isPlaying s
     then
       isPlaying s1 = true
       /\ timers s1 = timers s ++ [mkTimer 120 0]
       /\ exists chunk u',
            let s2 := step (EvTimer (length (timers s))) s1 in
            currentChunks s !! Z.to_nat next = Some chunk
            /\ isPlaying s2 = true
            /\ currentIndex s2 = next
            /\ heap s2 !! length (heap s) = Some u'
            /\ last (queue s2) = Some (length (heap s))
            /\ u_text u' = chunk
            /\ u_base u' = next * internalChunkSize
       else
         isPlaying s1 = false
         /\ timers s1 = timers s.
Proof.
  intros Hidx Hu Hend. cbn zeta.
  cbn [step]. rewrite Hu, Hend. cbn [onendHandler runCallback].
  unfold autoAdvance, engineDone. sfields.
  destruct (Z.ltb_spec (currentIndex s + 1) (len (currentChunks s))) as [Hlt | Hge];
    [destruct (isPlaying s) eqn:Hplay |]; cbn [andb].
  - unfold addTimer. sfields.
    repeat (split; [reflexivity |]).
    destruct (lookup_lt_is_Some_2 (currentChunks s) (Z.to_nat (currentIndex s + 1)))
      as [chunk Hchunk]; [unfold len in Hlt; lia |].
    exists chunk.
    rewrite list_lookup_middle by reflexivity.
    rewrite (delete_middle (timers s) []), app_nil_r.
    cbn [t_offset].
    match goal with |- context [playFromCurrentChunk 0 ?st] =>
      rewrite (playFromCurrentChunk_valid st 0 chunk);
        [| sfields; lia | sfields; exact Hchunk]
    end.
    rewrite speakOffsetOf_inside by (pose proof (len_nonneg chunk); lia).
    match goal with |- context [speakChunk ?t ?c ?b ?st] =>
      destruct (speakChunk_frame t c b st) as (_ & _ & Hi & Hp & _);
      pose proof (speakChunk_lookup t c b st) as Hh;
      pose proof (speakChunk_queue t c b st) as Hq
    end.
    sfields. eexists.
    split; [exact Hchunk |]. split; [exact Hp |]. split; [exact Hi |].
    split; [exact Hh |].
    split; [rewrite Hq; destruct (utterance s); [reflexivity | apply last_snoc] |].
    split; [reflexivity |]. cbn. lia.
  - unfold updatePlayPauseUI. sfields. repeat split; reflexivity.
  - unfold updatePlayPauseUI. sfields. repeat split; reflexivity.
Qed.

Lemma natural_completion_advances_witness :
  let doc := repeat 97%N (Z.to_nat 3500) in
  let s := run [EvPasteInput doc; EvPlayPause] (initial (JNum 1) "") in
  let s1 := step (EvEnd 0) s in
  let s3 := step (EvEnd 1) (step (EvTimer 0) s1) in
  (currentIndex s1 = 1 /\ isPlaying s1 = true /\ timers s1 = [mkTimer 120 0])
  /\ (currentIndex s3 = 2 /\ isPlaying s3 = false /\ timers s3 = []
      /\ errors s3 = 0%nat).
Proof.
  intros doc s s1 s3. split.
  - destruct (natural_completion_advances s 0
                (mkUtterance (repeat 97%N (Z.to_nat 3000)) (JNum 1) (JNum 1) None 0
                   (Some (CallOnEnd (Some AutoAdvance))) true))
      as (Hi & _ & _ & _ & Hrest).
    + vm_compute. discriminate.
    + vm_compute. reflexivity.
    + reflexivity.
    + split; [exact Hi |].
      change ((currentIndex s + 1 <? len (currentChunks s)) && isPlaying s)
        with true in Hrest.
      destruct Hrest as (Hp & Ht & _). split; [exact Hp | exact Ht].
  - destruct (natural_completion_advances (step (EvTimer 0) s1) 1
                (mkUtterance (repeat 97%N (Z.to_nat 500)) (JNum 1) (JNum 1) None 3000
                   (Some (CallOnEnd (Some AutoAdvance))) true))
      as (Hi & _ & _ & He & Hrest).
    + vm_compute. discriminate.
    + vm_compute. reflexivity.
    + reflexivity.
    + split; [exact Hi |].
      change ((currentIndex (step (EvTimer 0) s1) + 1
               <? len (currentChunks (step (EvTimer 0) s1)))
              && isPlaying (step (EvTimer 0) s1))
        with false in Hrest.
      destruct Hrest as (Hp & Ht). split; [exact Hp |]. split; [exact Ht | exact He].
Defined.

(** ** At most one speech request *)

Lemma set_queue_same s : set_queue (queue s) s = s.
Proof. destruct s. reflexivity. Qed.

(** The engine's end and error callbacks on an utterance that is not the
    current one do nothing. *)
Lemma late_callback_ignored s id :
  engineInv s -> utterance s <> Some id ->
  step (EvEnd id) s = s /\ step (EvError id) s = s.
Proof.
  intros Hinv Hne. cbn [step].
  destruct (heap s !! id) as [u |] eqn:Hu; [| split; reflexivity].
  pose proof (EngineInv_not_queued _ _ _ _ id Hinv Hne) as Hq.
  destruct Hinv as (_ & Hcb & _).
  destruct (Hcb id u Hu Hne) as [-> ->].
  unfold engineDone. rewrite Hq, set_queue_same. split; reflexivity.
Qed.

Lemma restart_burst force s :
  timers (restartWithNewSettingsFromCurrentPosition force s) = timers s
  /\ heap (restartWithNewSettingsFromCurrentPosition force s) = heap s
  /\ restartInFlight (restartWithNewSettingsFromCurrentPosition force s)
     = restartInFlight s
  \/ restartInFlight s = false
     /\ restartInFlight (restartWithNewSettingsFromCurrentPosition force s) = true
     /\ (length (timers (restartWithNewSettingsFromCurrentPosition force s))
         <= length (timers s) + 1)%nat
     /\ length (heap (restartWithNewSettingsFromCurrentPosition force s))
        = length (heap s).
Proof.
  unfold restartWithNewSettingsFromCurrentPosition.
  destruct (restartInFlight s) eqn:Hflag; [left; repeat split; assumption |].
  destruct (negb _); [left; repeat split; assumption |].
  right. split; [reflexivity |].
  cbn zeta.
  destruct (utterance s) as [id |];
    destruct (negb _ && negb force);
    unfold addTimer, engineCancel, dropCallbacks, logEffect; sfields;
    try destruct (heap s !! id);
    rewrite ?length_app, ?length_insert; cbn; repeat split; lia.
Qed.

Lemma burstOf_step s0 s ev :
  settingsChange ev = true -> burstOf s0 s -> burstOf s0 (step ev s).
Proof.
  intros Hev (Hh & Hle & Hflag).
  assert (forall force s1,
            timers s1 = timers s -> heap s1 = heap s ->
            restartInFlight s1 = restartInFlight s ->
            burstOf s0 (restartWithNewSettingsFromCurrentPosition force s1)) as Hgo.
  { intros force s1 Ht Hhp Hf. unfold burstOf.
    destruct (restart_burst force s1) as [(-> & -> & ->) | (Hoff & Hon & Hlen & Hhl)].
    - rewrite Ht, Hhp, Hf. repeat split; assumption.
    - rewrite Ht, Hf in *. rewrite Hhp in Hhl.
      split; [congruence |].
      assert (length (timers s) <> length (timers s0) + 1)%nat
        by (intros E; apply Hflag in E; congruence).
      split; [lia | intros _; exact Hon]. }
  destruct ev; try discriminate; cbn [step];
    unfold voiceSelectChange, rateSliderChange, volumeSliderChange;
    apply Hgo; reflexivity.
Qed.

Lemma burstOf_run s0 evs :
  forallb settingsChange evs = true -> burstOf s0 (run evs s0).
Proof.
  assert (forall s, burstOf s0 s -> forallb settingsChange evs = true ->
                    burstOf s0 (run evs s)) as Hgen.
  { induction evs as [| ev evs IH]; intros s Hs Hall; cbn; [exact Hs |].
    cbn in Hall. apply andb_prop in Hall as [Hev Hall].
    apply IH; [apply burstOf_step; assumption | exact Hall]. }
  intros Hall. apply Hgen; [| exact Hall].
  repeat split; [lia | intros E; lia].
Qed.

(** In the settle window the engine's end and error callbacks do nothing,
    on whichever utterance they arrive. *)
Lemma settled_ignores s :
  settled s -> forall id, step (EvEnd id) s = s /\ step (EvError id) s = s.
Proof.
  intros [Hq Hcb] id. cbn [step].
  destruct (heap s !! id) as [u |] eqn:Hu; [| split; reflexivity].
  destruct (Hcb id u Hu) as [-> ->]. unfold engineDone.
  replace (List.filter (fun j => negb (Nat.eqb j id)) (queue s)) with (queue s)
    by (rewrite Hq; reflexivity).
  rewrite set_queue_same. split; reflexivity.
Qed.

Lemma settleInv_frame s s' :
  (restartInFlight s' = true -> restartInFlight s = true) ->
  (queue s = [] -> queue s' = []) ->
  heap s' = heap s ->
  settleInv s -> settleInv s'.
Proof.
  intros Hf Hq Hh Hinv Hflag. destruct (Hinv (Hf Hflag)) as [Hq0 Hcb].
  split; [exact (Hq Hq0) | rewrite Hh; exact Hcb].
Qed.

Lemma prepared_flag s : restartInFlight (prepared s) = restartInFlight s.
Proof.
  unfold prepared, buildChunks.
  destruct (len (currentChunks s) =? 0); sfields;
    match goal with |- context [?a <? 0] => destruct (a <? 0) end;
    reflexivity.
Qed.

Lemma settleInv_playFromCurrentChunk off s :
  settleInv s -> settleInv (playFromCurrentChunk off s).
Proof.
  intros Hinv.
  destruct (playFromCurrentChunk_cases off s) as [-> | (text & base & ->)].
  - destruct (prepared_frame s) as (_ & _ & Hh & Hq & _).
    apply (settleInv_frame s); sfields;
      [rewrite prepared_flag; auto | rewrite Hq; auto | exact Hh | exact Hinv].
  - intros Hflag.
    match type of Hflag with restartInFlight (speakChunk ?t ?c ?b ?st) = _ =>
      destruct (speakChunk_frame t c b st) as (_ & _ & _ & _ & F5 & _)
    end.
    rewrite F5 in Hflag. sfields. discriminate.
Qed.

(** A restart that goes ahead nulls the callbacks of the current
    utterance, then cancels the engine, and leaves the page in the settle
    window. *)
Lemma restart_settles force s :
  engineInv s ->
  restartInFlight s = false ->
  (isPlaying s || force) = true ->
  currentText s <> [] ->
  let s' := restartWithNewSettingsFromCurrentPosition force s in
  trace s' = trace s ++ restartEffects s
  /\ restartInFlight s' = true
  /\ settled s'.
Proof.
  intros (Hq & Hcb & _) Hflag Hcan Htext. cbn zeta.
  unfold restartWithNewSettingsFromCurrentPosition, restartEffects.
  rewrite Hflag, Hcan.
  destruct (currentText s) as [| c text]; [congruence |]. cbn [andb negb].
  cbn zeta.
  destruct (utterance s) as [old |] eqn:Hu.
  - destruct Hq as [Hlt _].
    destruct (lookup_lt_is_Some_2 (heap s) old Hlt) as [w Hw].
    unfold addTimer, engineCancel, dropCallbacks, logEffect. sfields. rewrite Hw.
    destruct (negb (isPlaying s) && negb force); sfields;
      rewrite <- app_assoc;
      (split; [reflexivity |]; split; [reflexivity |]; split; [reflexivity |]);
      sfields; intros j u Hj;
      (destruct (Nat.eq_dec j old) as [-> | Hne];
       [rewrite list_lookup_insert_eq in Hj by exact Hlt;
        injection Hj as <-; split; reflexivity
       | rewrite list_lookup_insert_ne in Hj by congruence;
         apply (Hcb j u Hj); congruence]).
  - destruct Hq as [Hnil _].
    unfold addTimer, engineCancel, logEffect. sfields.
    destruct (negb (isPlaying s) && negb force); sfields;
      (split; [reflexivity |]; split; [reflexivity |]; split; [reflexivity |]);
      sfields; intros j u Hj; rewrite Hnil in Hj; discriminate.
Qed.

Lemma settleInv_restart force s :
  engineInv s -> settleInv s ->
  settleInv (restartWithNewSettingsFromCurrentPosition force s).
Proof.
  intros Heng Hinv.
  destruct (restartInFlight s) eqn:Hflag.
  { unfold restartWithNewSettingsFromCurrentPosition. rewrite Hflag. exact Hinv. }
  destruct (isPlaying s || force) eqn:Hcan.
  2: { unfold restartWithNewSettingsFromCurrentPosition.
       rewrite Hflag, Hcan. exact Hinv. }
  destruct (currentText s) as [| c text] eqn:Htext.
  { unfold restartWithNewSettingsFromCurrentPosition.
    rewrite Hflag, Hcan, Htext. exact Hinv. }
  destruct (restart_settles force s Heng Hflag Hcan) as (_ & _ & Hs);
    [congruence |].
  intros _. exact Hs.
Qed.

Lemma settleInv_callback s s' :
  settleInv s ->
  (settled s -> s' = s) ->
  restartInFlight s' = restartInFlight s ->
  settleInv s'.
Proof.
  intros Hinv Hsame Hf Hflag. rewrite Hf in Hflag.
  rewrite (Hsame (Hinv Hflag)). exact (Hinv Hflag).
Qed.

(** Every event keeps the settle window. *)
Lemma settleInv_step ev s : pageInv s -> settleInv s -> settleInv (step ev s).
Proof.
  intros Hpage Hinv. destruct ev; cbn [step].
  - apply (settleInv_frame s); auto.
  - apply (settleInv_frame s); auto.
  - apply (settleInv_frame s); auto.
  - apply (settleInv_frame s); auto.
  - unfold jumpToCharIndex.
    destruct (currentText s) as [| c text]; [exact Hinv |].
    destruct (jumpTarget (c :: text) idx) as [[clamped index] off].
    apply settleInv_playFromCurrentChunk. apply (settleInv_frame s); auto.
  - unfold playPauseClick.
    destruct (currentText s) as [| c text]; [apply (settleInv_frame s); auto |].
    destruct (isPlaying s); cbn [negb].
    + unfold updatePlayPauseUI. sfields.
      apply (settleInv_frame s); [| | | exact Hinv];
        destruct (engineSpeaking s); auto.
    + destruct (enginePaused s).
      * unfold updatePlayPauseUI. sfields. apply (settleInv_frame s); auto.
      * apply settleInv_playFromCurrentChunk, Hinv.
  - unfold stopClick, updatePlayPauseUI. sfields.
    apply (settleInv_frame s); auto.
  - apply settleInv_restart; [| apply (settleInv_frame s); auto].
    destruct Hpage as (_ & _ & H). frame_inv.
  - apply settleInv_restart; [| apply (settleInv_frame s); auto].
    destruct Hpage as (_ & _ & H). frame_inv.
  - apply settleInv_restart; [| apply (settleInv_frame s); auto].
    destruct Hpage as (_ & _ & H). frame_inv.
  - destruct (timers s !! k) as [t |]; [| exact Hinv].
    apply settleInv_playFromCurrentChunk. apply (settleInv_frame s); auto.
  - destruct (heap s !! id) as [u |]; [| exact Hinv].
    unfold onboundary. destruct (charIndex e); [| exact Hinv].
    destruct (boundarySpan _ _ _). apply (settleInv_frame s); auto.
  - apply (settleInv_callback s); [exact Hinv | |].
    + intros Hs. exact (proj1 (settled_ignores s Hs id)).
    + cbn [step]. destruct (heap s !! id) as [u |]; [| reflexivity].
      destruct (u_onend u) as [[[[] |]] |]; cbn; try reflexivity.
      unfold autoAdvance, addTimer, updatePlayPauseUI, engineDone. sfields.
      match goal with |- context [if ?c then _ else _] => destruct c end;
        reflexivity.
  - apply (settleInv_callback s); [exact Hinv | |].
    + intros Hs. exact (proj2 (settled_ignores s Hs id)).
    + cbn [step]. destruct (heap s !! id) as [u |]; [| reflexivity].
      destruct (u_onerror u); reflexivity.
Qed.

Lemma settleInv_run evs s :
  pageInv s -> settleInv s -> settleInv (run evs s).
Proof.
  revert s. induction evs as [| ev evs IH]; intros s Hpage Hinv; cbn;
    [exact Hinv |].
  apply IH; [apply pageInv_step, Hpage | apply settleInv_step; assumption].
Qed.

(** C3.  At every moment of every run of the page, at most one speech
    request is outstanding, and it is the current utterance's.  Every
    request is issued by [speakChunk], which, when there is a prior
    utterance, first nulls its completion and error callbacks and then
    cancels the engine, in that order, before it speaks; the whole trace
    of the run obeys that discipline.  A completion or error callback of
    a superseded utterance that fires late leaves the page as it is.  A
    settings change that goes ahead nulls the callbacks of the current
    utterance and then cancels the engine, in that order, and from then
    until the next speech request (while [restartInFlight] is set) the
    queue is empty and a completion or error callback leaves the page as
    it is, on whichever utterance it arrives, the cancelled one
    included.  A burst of settings changes, with no timer fired in
    between, creates no speech request and schedules at most one
    restart. *)
Theorem one_speech_request_at_a_time (volume : jsnum) (voice : string)
    (evs : list Event) :
  let s := run evs (initial volume voice) in
  (length (queue s) <= 1)%nat
  /\ (forall id, In id (queue s) -> utterance s = Some id)
  /\ (exists a, discipline None (trace s) = Some a)
  /\ (forall text onend base,
        trace (speakChunk text onend base s)
        = trace s
          ++ match utterance s with
             | Some old => [ENullCallbacks old; ECancel]
             | None => []
             end
          ++ [ESpeak (length (heap s))])
  /\ (forall id, utterance s <> Some id ->
        step (EvEnd id) s = s /\ step (EvError id) s = s)
  /\ (forall changes, forallb settingsChange changes = true ->
        (length (queue (run changes s)) <= 1)%nat
        /\ length (heap (run changes s)) = length (heap s)
        /\ (length (timers (run changes s)) <= length (timers s) + 1)%nat)
  /\ (forall force,
        restartInFlight s = false ->
        (isPlaying s || force) = true ->
        currentText s <> [] ->
        let s' := restartWithNewSettingsFromCurrentPosition force s in
        trace s' = trace s ++ restartEffects s
        /\ restartInFlight s' = true
        /\ queue s' = []
        /\ (forall id u, heap s' !! id = Some u ->
              u_onend u = None /\ u_onerror u = false)
        /\ (forall id, step (EvEnd id) s' = s' /\ step (EvError id) s' = s'))
  /\ (restartInFlight s = true ->
        queue s = []
        /\ (forall id u, heap s !! id = Some u ->
              u_onend u = None /\ u_onerror u = false)
        /\ (forall id, step (EvEnd id) s = s /\ step (EvError id) s = s)).
Proof.
  cbn zeta.
  pose proof (pageInv_run evs _ (pageInv_initial volume voice)) as Hpage.
  assert (settleInv (run evs (initial volume voice))) as Hsettle.
  { apply settleInv_run; [apply pageInv_initial |]. intros H. discriminate. }
  set (s := run evs (initial volume voice)) in *.
  assert (forall t, pageInv t ->
            (length (queue t) <= 1)%nat
            /\ forall id, In id (queue t) -> utterance t = Some id) as Hqueue.
  { intros t (_ & _ & Hq & _). destruct (utterance t) as [cur |].
    - destruct Hq as [_ [-> | ->]]; cbn; (split; [lia |]).
      + intros id [].
      + intros id [<- | []]. reflexivity.
    - destruct Hq as [_ ->]. cbn. split; [lia | intros id []]. }
  split; [apply Hqueue, Hpage |].
  split; [apply Hqueue, Hpage |].
  split.
  { destruct Hpage as (_ & _ & _ & _ & ph & Htr). eexists. exact Htr. }
  split; [intros; apply speakChunk_trace |].
  split.
  { intros id Hne. apply late_callback_ignored; [apply Hpage | exact Hne]. }
  split.
  { intros changes Hall.
    split; [apply Hqueue, pageInv_run, Hpage |].
    destruct (burstOf_run s changes Hall) as (Hh & Hle & _).
    split; assumption. }
  split.
  { intros force Hflag Hcan Htext.
    destruct (restart_settles force s (proj2 (proj2 Hpage)) Hflag Hcan Htext)
      as (Htr & Hon & Hs).
    cbn zeta in *.
    split; [exact Htr |]. split; [exact Hon |].
    split; [exact (proj1 Hs) |]. split; [exact (proj2 Hs) |].
    apply settled_ignores, Hs. }
  intros Hflag. pose proof (Hsettle Hflag) as Hs.
  split; [exact (proj1 Hs) |]. split; [exact (proj2 Hs) |].
  apply settled_ignores, Hs.
Qed.

Lemma one_speech_request_at_a_time_witness :
  let s := run [EvPasteInput [104; 105]%N; EvPlayPause; EvVoiceChange "Alex";
                EvRateChange (JNum 2); EvVolumeChange JNaN; EvTimer 0]
             (initial (JNum 1) "") in
  let w := run [EvPasteInput [104; 105]%N; EvPlayPause; EvVoiceChange "Alex"]
             (initial (JNum 1) "") in
  queue s = [1%nat]
  /\ (length (queue s) <= 1)%nat
  /\ step (EvEnd 0) s = s
  /\ utterance w = Some 0%nat
  /\ trace w = [ESpeak 0; ENullCallbacks 0; ECancel]
  /\ queue w = []
  /\ step (EvEnd 0) w = w
  /\ step (EvError 0) w = w.
Proof.
  intros s w.
  destruct (one_speech_request_at_a_time (JNum 1) ""
              [EvPasteInput [104; 105]%N; EvPlayPause; EvVoiceChange "Alex";
               EvRateChange (JNum 2); EvVolumeChange JNaN; EvTimer 0])
    as (Hq & _ & _ & _ & Hlate & _).
  destruct (one_speech_request_at_a_time (JNum 1) ""
              [EvPasteInput [104; 105]%N; EvPlayPause; EvVoiceChange "Alex"])
    as (_ & _ & _ & _ & _ & _ & _ & Hwindow).
  destruct Hwindow as (Hwq & _ & Hwcb); [vm_compute; reflexivity |].
  split; [vm_compute; reflexivity |]. split; [exact Hq |].
  split; [apply Hlate; vm_compute; discriminate |].
  split; [vm_compute; reflexivity |]. split; [vm_compute; reflexivity |].
  split; [exact Hwq |]. exact (Hwcb 0%nat).
Defined.

(** ** Settings changes while paused *)

(** What [restartWithNewSettingsFromCurrentPosition] does when it goes
    ahead, from a last boundary that is not negative. *)
Lemma restart_goes_ahead force s :
  restartInFlight s = false ->
  (isPlaying s || force) = true ->
  currentText s <> [] ->
  0 <= lastBoundaryGlobalStart s ->
  let at_ := lastBoundaryGlobalStart s in
  let index := at_ / internalChunkSize in
  let s' := restartWithNewSettingsFromCurrentPosition force s in
  restartInFlight s' = true
  /\ isPlaying s' = isPlaying s
  /\ queue s' = []
  /\ currentIndex s' = index
  /\ timers s' = timers s ++ [mkTimer 60 (at_ - index * internalChunkSize)].
Proof.
  intros Hflag Hcan Htext Hlb. cbn zeta.
  unfold restartWithNewSettingsFromCurrentPosition. rewrite Hflag, Hcan.
  destruct (currentText s) as [| c text]; [congruence |]. cbn [andb negb].
  destruct (Z.geb_spec (lastBoundaryGlobalStart s) 0) as [_ | Hneg]; [| lia].
  assert (0 <= lastBoundaryGlobalStart s / internalChunkSize) as Hidx
    by (apply Z.div_pos; unfold internalChunkSize; lia).
  pose proof (Z.mul_div_le (lastBoundaryGlobalStart s) internalChunkSize eq_refl).
  rewrite !(Z.max_r 0 (lastBoundaryGlobalStart s / internalChunkSize)) by lia.
  rewrite Z.max_r by lia.
  destruct (utterance s) as [id |];
    unfold addTimer, engineCancel, dropCallbacks, logEffect; sfields;
    (destruct (isPlaying s); cbn in Hcan; subst; cbn [negb andb]; sfields;
     repeat split; reflexivity).
Qed.

(** C4, as the code has it.  While the player is not playing, a change
    that is not forced is a no-op: after a pause, a rate or volume change
    does not restart playback.  The voice change is forced: with text
    loaded and no restart in flight it cancels the engine and schedules a
    restart from the last confirmed offset, so after a pause playback
    restarts on a voice change as well as on a jump or on play. *)
Theorem settings_change_when_not_playing (s : State) :
  isPlaying s = false ->
  restartWithNewSettingsFromCurrentPosition false s = s
  /\ (forall v, rateSliderChange v s = set_rateSlider v s)
  /\ (forall v, volumeSliderChange v s = set_volumeSlider v s)
  /\ (forall name,
        restartInFlight s = false ->
        currentText s <> [] ->
        0 <= lastBoundaryGlobalStart s ->
        let at_ := lastBoundaryGlobalStart s in
        let index := at_ / internalChunkSize in
        let s' := voiceSelectChange name s in
        voiceSelect s' = name
        /\ restartInFlight s' = true
        /\ queue s' = []
        /\ currentIndex s' = index
        /\ timers s' = timers s ++ [mkTimer 60 (at_ - index * internalChunkSize)]).
Proof.
  intros Hpaused.
  assert (forall t, isPlaying t = false ->
                    restartWithNewSettingsFromCurrentPosition false t = t) as Hnoop.
  { intros t Ht. unfold restartWithNewSettingsFromCurrentPosition.
    rewrite Ht. cbn. destruct (restartInFlight t); reflexivity. }
  split; [apply Hnoop, Hpaused |].
  split; [intros v; apply Hnoop, Hpaused |].
  split; [intros v; apply Hnoop, Hpaused |].
  intros name Hflag Htext Hlb. cbn zeta. unfold voiceSelectChange.
  destruct (restart_goes_ahead true (set_voiceSelect name s))
    as (Hf & _ & Hq & Hi & Ht); try assumption.
  { apply orb_true_r. }
  split; [| repeat split; assumption].
  unfold restartWithNewSettingsFromCurrentPosition. sfields.
  rewrite Hflag, Hpaused.
  destruct (currentText s); [congruence |]. cbn.
  destruct (utterance s); reflexivity.
Qed.

Lemma settings_change_when_not_playing_witness :
  let s := run [EvPasteInput [104; 105]%N; EvPlayPause; EvPlayPause]
             (initial (JNum 1) "") in
  rateSliderChange (JNum 2) s = set_rateSlider (JNum 2) s
  /\ volumeSliderChange (JNum 0) s = set_volumeSlider (JNum 0) s
  /\ timers (voiceSelectChange "Alex" s) = [mkTimer 60 0].
Proof.
  intros s.
  destruct (settings_change_when_not_playing s) as (_ & Hr & Hv & Hvoice).
  - reflexivity.
  - split; [apply Hr |]. split; [apply Hv |].
    destruct (Hvoice "Alex") as (_ & _ & _ & _ & Ht).
    + reflexivity.
    + discriminate.
    + vm_compute. discriminate.
    + exact Ht.
Defined.

(** C4 as stated fails for the voice: after play and pause, a voice
    change is not a no-op, and once its timer has fired the player is
    playing again with a new speech request at the engine. *)
Lemma voice_change_after_pause_restarts :
  let paused := run [EvPasteInput [104; 105]%N; EvPlayPause; EvPlayPause]
                  (initial (JNum 1) "") in
  let s := run [EvVoiceChange "Alex"; EvTimer 0] paused in
  isPlaying paused = false
  /\ voiceSelectChange "Alex" paused <> set_voiceSelect "Alex" paused
  /\ isPlaying s = true
  /\ queue s = [1%nat]
  /\ last (trace s) = Some (ESpeak 1).
Proof.
  cbn zeta. split; [reflexivity |].
  split; [intros H; apply (f_equal restartInFlight) in H; vm_compute in H; discriminate |].
  split; [reflexivity |]. split; reflexivity.
Qed.

(** ** Boundary events *)

Lemma cursorAtBase_speakChunk text onend base s :
  cursorAtBase (speakChunk text onend base s).
Proof.
  eexists _, _.
  split; [apply speakChunk_utterance |].
  split; [apply speakChunk_lookup |].
  rewrite speakChunk_lastBoundary. reflexivity.
Qed.

Lemma cursorAtBase_playFromCurrentChunk off s :
  cursorAtBase s -> cursorAtBase (playFromCurrentChunk off s).
Proof.
  intros H.
  destruct (playFromCurrentChunk_cases off s) as [-> | (text & base & ->)];
    [| apply cursorAtBase_speakChunk].
  unfold cursorAtBase, prepared, buildChunks in *.
  destruct (len (currentChunks s) =? 0); sfields;
    match goal with |- context [?a <? 0] => destruct (a <? 0) end;
    sfields; assumption.
Qed.

Lemma cursorAtBase_updatePlayPauseUI s :
  cursorAtBase s -> cursorAtBase (updatePlayPauseUI s).
Proof.
  intros H. unfold updatePlayPauseUI. destruct (isPlaying s); [exact H | frame_cursor].
Qed.

Lemma cursorAtBase_dropCallbacks id s :
  cursorAtBase s -> cursorAtBase (dropCallbacks id s).
Proof.
  intros (cur & u & Hcur & Hu & Hb).
  unfold cursorAtBase, dropCallbacks, logEffect. sfields.
  destruct (heap s !! id) as [w |] eqn:Hw; [| eexists _, _; eauto].
  destruct (Nat.eq_dec cur id) as [-> | Hne].
  - exists id, (nullCallbacks w).
    split; [exact Hcur |].
    split; [apply list_lookup_insert_eq; eapply lookup_lt_Some; eauto |].
    rewrite Hb. assert (u = w) as -> by congruence. reflexivity.
  - exists cur, u. split; [exact Hcur |].
    split; [rewrite list_lookup_insert_ne by congruence; exact Hu | exact Hb].
Qed.

Lemma cursorAtBase_restart force s :
  cursorAtBase s -> cursorAtBase (restartWithNewSettingsFromCurrentPosition force s).
Proof.
  intros H. unfold restartWithNewSettingsFromCurrentPosition.
  destruct (restartInFlight s); [exact H |].
  destruct (negb _); [exact H |].
  assert (cursorAtBase (match utterance s with
                        | Some id => dropCallbacks id s
                        | None => s
                        end)) as H1
    by (destruct (utterance s); [apply cursorAtBase_dropCallbacks |]; exact H).
  revert H1.
  generalize (match utterance s with Some id => dropCallbacks id s | None => s end).
  intros s1 H1. cbn zeta.
  destruct (negb _ && negb force);
    unfold addTimer, engineCancel, logEffect; frame_cursor.
Qed.

Lemma cursorAtBase_step ev s :
  notBoundary ev = true -> cursorAtBase s -> cursorAtBase (step ev s).
Proof.
  intros Hev H. destruct ev; try discriminate; cbn [step].
  - unfold setTextViewer, buildChunks. frame_cursor.
  - unfold renderPDFToViewer, buildChunks. frame_cursor.
  - unfold pasteBoxInput, buildChunks. frame_cursor.
  - frame_cursor.
  - unfold jumpToCharIndex. destruct (currentText s); [exact H |].
    destruct (jumpTarget _ _) as [[clamped index] off].
    apply cursorAtBase_playFromCurrentChunk. frame_cursor.
  - unfold playPauseClick. destruct (currentText s); [frame_cursor |].
    destruct (isPlaying s); cbn [negb].
    + apply cursorAtBase_updatePlayPauseUI.
      destruct (engineSpeaking s); unfold enginePause, logEffect; frame_cursor.
    + destruct (enginePaused s);
        [apply cursorAtBase_updatePlayPauseUI;
         unfold engineResume, logEffect; frame_cursor
        | apply cursorAtBase_playFromCurrentChunk, H].
  - unfold stopClick. apply cursorAtBase_updatePlayPauseUI.
    unfold engineCancel, logEffect. frame_cursor.
  - apply cursorAtBase_restart. frame_cursor.
  - apply cursorAtBase_restart. frame_cursor.
  - apply cursorAtBase_restart. frame_cursor.
  - destruct (timers s !! k); [| exact H].
    apply cursorAtBase_playFromCurrentChunk. frame_cursor.
  - destruct (heap s !! id) as [w |]; [| exact H].
    destruct (u_onend w) as [[[[]|]] |]; cbn;
      unfold autoAdvance, engineDone; sfields; try frame_cursor.
    match goal with |- context [if ?c then _ else _] => destruct c end.
    + unfold addTimer. frame_cursor.
    + apply cursorAtBase_updatePlayPauseUI. frame_cursor.
  - destruct (heap s !! id) as [w |]; [| exact H].
    destruct (u_onerror w); unfold onerrorHandler, engineDone; frame_cursor.
Qed.

Lemma cursorAtBase_run evs s :
  forallb notBoundary evs = true -> cursorAtBase s -> cursorAtBase (run evs s).
Proof.
  revert s. induction evs as [| ev evs IH]; intros s Hall H; cbn; [exact H |].
  cbn in Hall. apply andb_prop in Hall as [Hev Hall].
  apply IH; [exact Hall | apply cursorAtBase_step; assumption].
Qed.

(** C5, as the code has it.  A boundary event of an utterance that
    carries a character index sets the tracked cursor to
    [baseOffset + charIndex] and the highlighted span to end at
    [globalStart + charLength], where the length counts as 1 when the
    engine omits it or reports 0.  And as long as no boundary event fires
    after a speech request is issued, the tracked cursor is the base
    offset of the current utterance. *)
Theorem boundary_event_moves_cursor (s : State) (id : nat) (u : Utterance)
    (e : BoundaryEvent) (ci : Z) (evs : list Event) :
  heap s !! id = Some u ->
  charIndex e = Some ci ->
  forallb notBoundary evs = true ->
  let s1 := step (EvBoundary id e) s in
  let globalStart := u_base u + ci in
  let relativeLength :=
    match charLength e with
    | Some l => if l =? 0 then 1 else l
    | None => 1
    end in
  lastBoundaryGlobalStart s1 = globalStart
  /\ selection s1 = (globalStart, globalStart + relativeLength)
  /\ forall text onend base,
       let s2 := run evs (speakChunk text onend base s) in
       exists cur w,
         utterance s2 = Some cur
         /\ heap s2 !! cur = Some w
         /\ lastBoundaryGlobalStart s2 = u_base w.
Proof.
  intros Hu Hci Hquiet. cbn zeta.
  split; [| split].
  - cbn [step]. rewrite Hu. unfold onboundary, boundarySpan, orElseZ.
    rewrite Hci. sfields. destruct (Z.eqb_spec ci 0); lia.
  - cbn [step]. rewrite Hu. unfold onboundary, boundarySpan, orElseZ.
    rewrite Hci. sfields. f_equal; [destruct (Z.eqb_spec ci 0); lia |].
    f_equal. destruct (Z.eqb_spec ci 0); lia.
  - intros text onend base.
    apply (cursorAtBase_run evs); [exact Hquiet |].
    apply cursorAtBase_speakChunk.
Qed.

Lemma boundary_event_moves_cursor_witness :
  let s := run [EvPasteInput (repeat 97%N (Z.to_nat 3500)); EvJump 3200]
             (initial (JNum 1) "") in
  let e := {| charIndex := Some 40; charLength := Some 5 |} in
  lastBoundaryGlobalStart (step (EvBoundary 0 e) s) = 3240
  /\ selection (step (EvBoundary 0 e) s) = (3240, 3245)
  /\ lastBoundaryGlobalStart
       (run [EvRateChange (JNum 2); EvTimer 0] s) = 3200.
Proof.
  intros s e.
  destruct (boundary_event_moves_cursor s 0
              (mkUtterance (repeat 97%N (Z.to_nat 300)) (JNum 1) (JNum 1) None 3200
                 (Some (CallOnEnd (Some AutoAdvance))) true)
              e 40 [])
    as (Hb & Hsel & _).
  - vm_compute. reflexivity.
  - reflexivity.
  - reflexivity.
  - split; [exact Hb |]. split; [exact Hsel |]. vm_compute. reflexivity.
Defined.

(** C5 as stated fails on a boundary event that reports the length 0:
    the highlighted span then ends at [globalStart + 1], not at
    [globalStart + 0]. *)
Lemma boundary_length_zero_spans_one :
  let s := run [EvPasteInput [104; 101; 108; 108; 111]%N; EvPlayPause]
             (initial (JNum 1) "") in
  let e := {| charIndex := Some 2; charLength := Some 0 |} in
  let s1 := step (EvBoundary 0 e) s in
  lastBoundaryGlobalStart s1 = 2
  /\ selection s1 = (2, 3)
  /\ snd (selection s1) <> lastBoundaryGlobalStart s1 + 0.
Proof.
  cbn zeta. split; [reflexivity |]. split; [reflexivity |].
  vm_compute. discriminate.
Qed.

(** ** Loading a document *)

Lemma loadedFrom_build text s :
  loadedFrom text s (buildChunks (set_currentIndex 0 (set_currentText text s))).
Proof.
  unfold loadedFrom, buildChunks. sfields.
  repeat split. apply chunksOf_spec.
Qed.

(** C7, as the code has it.  Loading a document (a text file, a PDF, or
    an edit of the textarea) replaces the document text wholesale, resets
    the chunk index to 0 and rebuilds the chunks from the new text.  The
    playing flag and the last confirmed offset keep their values, and the
    engine is not cancelled. *)
Theorem load_replaces_text_and_rebuilds (s : State) :
  (forall text, loadedFrom (default [] text) s (step (EvLoadText text) s))
  /\ (forall value, loadedFrom value s (step (EvPasteInput value) s))
  /\ (forall pages,
        loadedFrom (concat (map (fun p => p ++ [10%N; 10%N]) pages)) s
          (step (EvLoadPDF pages) s)).
Proof.
  split; [| split]; intros x; apply loadedFrom_build.
Qed.

(** C7 as stated fails while a document is being read: after a load the
    cursor is {chunk 0, offset 3, playing}, not {0, 0, stopped}, and the
    request for the old text is still at the engine. *)
Lemma load_keeps_playing_and_offset :
  let s := run [EvPasteInput [104; 101; 108; 108; 111]%N; EvPlayPause;
                EvBoundary 0 {| charIndex := Some 3; charLength := Some 2 |}]
             (initial (JNum 1) "") in
  let s' := step (EvLoadText (Some [98; 121; 101]%N)) s in
  currentIndex s' = 0
  /\ lastBoundaryGlobalStart s' = 3
  /\ isPlaying s' = true
  /\ queue s' = [0%nat]
  /\ ~ (lastBoundaryGlobalStart s' = 0 /\ isPlaying s' = false).
Proof.
  cbn zeta. repeat (split; [reflexivity |]).
  intros [H _]. vm_compute in H. discriminate.
Qed.

(** ** Empty and out-of-range input *)

Lemma jumpTarget_clamps (text : jsstring) (idx : Z) :
  jumpTarget text idx = jumpTarget text (Z.max 0 (Z.min (len text - 1) idx)).
Proof.
  unfold jumpTarget. cbn zeta.
  replace (Z.max 0 (Z.min (len text - 1) (Z.max 0 (Z.min (len text - 1) idx))))
    with (Z.max 0 (Z.min (len text - 1) idx)) by lia.
  reflexivity.
Qed.

(** C8, as the code has it.  With no text loaded a jump leaves the page as
    it is, a click on play only raises the alert, and a play request
    finds zero chunks and returns with the playing flag cleared and no
    speech request.  With text loaded, a jump to any offset, also one out
    of range, is clamped to [0, len(text) - 1] and starts playback at the
    clamped offset, inside the document. *)
Theorem degenerate_input_is_safe (s : State) (idx off : Z) :
  chunksInSync s ->
  (currentText s = [] ->
     jumpToCharIndex idx s = s
     /\ playPauseClick s = set_alerts (S (alerts s)) s
     /\ let s' := playFromCurrentChunk off s in
        isPlaying s' = false
        /\ currentChunks s' = []
        /\ heap s' = heap s
        /\ queue s' = queue s
        /\ trace s' = trace s
        /\ timers s' = timers s)
  /\ (currentText s <> [] ->
        let clamped := Z.max 0 (Z.min (len (currentText s) - 1) idx) in
        let s' := jumpToCharIndex idx s in
        0 <= clamped < len (currentText s)
        /\ isPlaying s' = true
        /\ currentIndex s' = clamped / internalChunkSize
        /\ lastBoundaryGlobalStart s' = clamped
        /\ exists u,
             heap s' !! length (heap s) = Some u
             /\ last (queue s') = Some (length (heap s))
             /\ u_base u = clamped).
Proof.
  intros Hsync. split.
  - intros Htext.
    split; [unfold jumpToCharIndex; rewrite Htext; reflexivity |].
    split; [unfold playPauseClick; rewrite Htext; reflexivity |].
    cbn zeta. rewrite (playFromCurrentChunk_empty s off Hsync Htext).
    unfold buildChunks.
    destruct (currentIndex s <? 0); sfields; rewrite Htext;
      repeat split; reflexivity.
  - intros Htext. cbn zeta.
    set (clamped := Z.max 0 (Z.min (len (currentText s) - 1) idx)).
    assert (0 <= clamped < len (currentText s)) as Hin.
    { destruct (currentText s); [congruence |].
      subst clamped. unfold len. cbn [length]. lia. }
    assert (jumpToCharIndex idx s = jumpToCharIndex clamped s) as ->.
    { unfold jumpToCharIndex. rewrite (jumpTarget_clamps _ idx). reflexivity. }
    destruct (jumpToCharIndex_inside s clamped Hsync Hin) as (chunk & _ & _ & ->).
    match goal with |- context [speakChunk ?t ?c ?b ?st] =>
      destruct (speakChunk_frame t c b st) as (_ & _ & Hi & Hp & _);
      pose proof (speakChunk_lookup t c b st) as Hh;
      pose proof (speakChunk_queue t c b st) as Hq;
      pose proof (speakChunk_lastBoundary t c b st) as Hb
    end.
    sfields.
    split; [exact Hin |]. split; [exact Hp |]. split; [exact Hi |].
    split; [exact Hb |].
    eexists. split; [exact Hh |].
    split; [rewrite Hq; destruct (utterance s); [reflexivity | apply last_snoc] |].
    reflexivity.
Qed.

Lemma degenerate_input_is_safe_witness :
  let empty := initial (JNum 1) "" in
  let s := step (EvPasteInput [104; 105]%N) empty in
  (jumpToCharIndex 7 empty = empty
   /\ isPlaying (playFromCurrentChunk 0 empty) = false)
  /\ (lastBoundaryGlobalStart (jumpToCharIndex 100 s) = 1
      /\ lastBoundaryGlobalStart (jumpToCharIndex (-5) s) = 0).
Proof.
  intros empty s. split.
  - destruct (degenerate_input_is_safe empty 7 0) as [Hempty _];
      [reflexivity |].
    destruct Hempty as (Hj & _ & Hp & _); [reflexivity |].
    split; [exact Hj | exact Hp].
  - destruct (degenerate_input_is_safe s 100 0) as [_ Hfar]; [reflexivity |].
    destruct (degenerate_input_is_safe s (-5) 0) as [_ Hneg]; [reflexivity |].
    destruct Hfar as (_ & _ & _ & Hb1 & _); [discriminate |].
    destruct Hneg as (_ & _ & _ & Hb2 & _); [discriminate |].
    split; [exact Hb1 | exact Hb2].
Defined.

(** C8 as stated fails on an offset out of range: the jump is not a
    no-op, it starts reading at the last character of the document. *)
Lemma out_of_range_jump_plays :
  let s := step (EvPasteInput [104; 105]%N) (initial (JNum 1) "") in
  let s' := jumpToCharIndex 100 s in
  len (currentText s) = 2
  /\ s' <> s
  /\ isPlaying s' = true
  /\ queue s' = [0%nat]
  /\ (u_text <$> heap s' !! 0%nat) = Some [105%N]
  /\ lastBoundaryGlobalStart s' = 1.
Proof.
  cbn zeta. split; [reflexivity |].
  split; [intros H; apply (f_equal isPlaying) in H; vm_compute in H; discriminate |].
  repeat (split; [reflexivity |]). reflexivity.
Qed.

(** * Further properties of the playback code *)

(** ** What every run keeps *)

(** X1. In every state the page can reach, the chunks are the chunks of the
    current text, and the chunk index is not negative. *)
Theorem reachable_chunks_follow_text (volume : jsnum) (voice : string)
    (evs : list Event) :
  let s := run evs (initial volume voice) in
  currentChunks s = chunksOf (currentText s)
  /\ concat (currentChunks s) = currentText s
  /\ 0 <= currentIndex s.
Proof.
  cbn zeta.
  destruct (pageInv_run evs _ (pageInv_initial volume voice)) as (Hsync & Hidx & _).
  split; [exact Hsync |]. split; [| exact Hidx].
  rewrite Hsync. apply chunksOf_spec.
Qed.

(** ** The size of the chunks *)

(** X2. Every chunk holds between 1 and 3000 characters; every chunk but the
    last holds exactly 3000, and the last one holds the rest of the
    text. *)
Theorem chunk_sizes (s : State) (i : nat) (chunk : jsstring) :
  chunksInSync s ->
  currentChunks s !! i = Some chunk ->
  0 < len chunk <= internalChunkSize
  /\ ((S i < length (currentChunks s))%nat -> len chunk = internalChunkSize)
  /\ (S i = length (currentChunks s) ->
      len chunk = len (currentText s) - Z.of_nat i * internalChunkSize).
Proof.
  intros Hsync Hchunk. rewrite Hsync in *.
  pose proof (lookup_lt_Some _ _ _ Hchunk) as Hlt.
  assert (Z.of_nat i * internalChunkSize < len (currentText s)) as Hin.
  { apply index_valid_iff; [lia | unfold len; lia]. }
  pose proof (chunksOf_lookup (currentText s) (Z.of_nat i) ltac:(lia) Hin) as Hi.
  rewrite Nat2Z.id, Hchunk in Hi. injection Hi as ->.
  rewrite chunk_length by lia.
  split; [unfold internalChunkSize in *; lia |]. split.
  - intros Hnext.
    assert (Z.of_nat (S i) * internalChunkSize < len (currentText s)) as Hin'
      by (apply index_valid_iff; [lia | unfold len; lia]).
    unfold internalChunkSize in *. lia.
  - intros Hlast.
    assert (~ Z.of_nat (S i) * internalChunkSize < len (currentText s)) as Hout.
    { intros H. apply index_valid_iff in H; [unfold len in H; lia | lia]. }
    unfold internalChunkSize in *. lia.
Qed.

Lemma chunk_sizes_witness :
  let s := step (EvPasteInput (repeat 97%N (Z.to_nat 7000))) (initial (JNum 1) "") in
  exists chunk,
    currentChunks s !! 2%nat = Some chunk /\ len chunk = 1000.
Proof.
  intros s. exists (repeat 97%N (Z.to_nat 1000)).
  assert (currentChunks s !! 2%nat = Some (repeat 97%N (Z.to_nat 1000))) as Hc
    by (vm_compute; reflexivity).
  split; [exact Hc |].
  destruct (chunk_sizes s 2 _ (eq_refl : chunksInSync s) Hc) as (_ & _ & Hlast).
  rewrite Hlast; vm_compute; reflexivity.
Defined.

(** ** The spoken text and the document *)

(** With the chunks in sync, a chunk index that is valid starts inside the
    text, and [playFromCurrentChunk] is one speech request for the slice
    of the document from the base offset to the end of the chunk. *)
Lemma playFromCurrentChunk_in_sync (s : State) (off : Z) :
  chunksInSync s ->
  0 <= currentIndex s < len (currentChunks s) ->
  let a := currentIndex s * internalChunkSize in
  let so := speakOffsetOf off (Z.min internalChunkSize (len (currentText s) - a)) in
  0 <= a < len (currentText s)
  /\ 0 <= so <= Z.min internalChunkSize (len (currentText s) - a)
  /\ playFromCurrentChunk off s
     = speakChunk (slice (currentText s) (a + so) (a + internalChunkSize))
         (Some AutoAdvance) (Some (a + so))
         (set_restartInFlight false (set_isPlaying true s)).
Proof.
  intros Hsync [Hlo Hhi]. cbn zeta.
  assert (currentIndex s * internalChunkSize < len (currentText s)) as Hin
    by (apply index_valid_iff; [lia | rewrite <- Hsync; lia]).
  pose proof (chunksOf_lookup (currentText s) (currentIndex s) Hlo Hin) as Hchunk.
  pose proof (chunk_length (currentText s) (currentIndex s) Hlo Hin) as Hclen.
  rewrite <- Hsync in Hchunk.
  set (a := currentIndex s * internalChunkSize) in *.
  set (chunk := slice (currentText s) a (a + internalChunkSize)) in *.
  rewrite (playFromCurrentChunk_valid s off chunk Hlo Hchunk).
  rewrite Hclen.
  assert (0 <= a) as Ha by (subst a; unfold internalChunkSize; lia).
  assert (0 <= Z.min internalChunkSize (len (currentText s) - a)) as Hmin
    by (unfold internalChunkSize in *; lia).
  pose proof (speakOffsetOf_range off _ Hmin) as Hso.
  set (so := speakOffsetOf off (Z.min internalChunkSize (len (currentText s) - a))) in *.
  split; [lia |]. split; [exact Hso |].
  f_equal. subst chunk.
  rewrite !slice_nonneg by (unfold internalChunkSize in *; lia).
  rewrite skipn_firstn_comm, drop_drop. f_equal; [lia | f_equal; lia].
Qed.

(** X3. With the chunks in sync and a valid chunk index, the text
    [playFromCurrentChunk] hands to the engine is the document from the
    request's base offset to the end of the current chunk.  So the
    character at position [k] of the spoken text is the character at
    global offset [base + k] of the document: a boundary event's index,
    added to the base offset, points at the word being spoken. *)
Theorem spoken_text_is_document_slice (s : State) (off : Z) :
  chunksInSync s ->
  0 <= currentIndex s < len (currentChunks s) ->
  let s' := playFromCurrentChunk off s in
  exists u,
    heap s' !! length (heap s) = Some u
    /\ currentIndex s * internalChunkSize <= u_base u <= len (currentText s)
    /\ u_text u
       = slice (currentText s) (u_base u)
           (currentIndex s * internalChunkSize + internalChunkSize)
    /\ forall k c,
         u_text u !! k = Some c ->
         currentText s !! (Z.to_nat (u_base u) + k)%nat = Some c.
Proof.
  intros Hsync Hidx. cbn zeta.
  destruct (playFromCurrentChunk_in_sync s off Hsync Hidx) as (Ha & Hso & ->).
  eexists. split; [exact (speakChunk_lookup _ _ _ _) |].
  cbn [u_base u_text newUtterance default from_option id].
  split; [unfold internalChunkSize in *; lia |].
  split; [reflexivity |].
  intros k c Hk.
  rewrite slice_nonneg in Hk by (unfold internalChunkSize in *; lia).
  apply lookup_take_Some in Hk as [Hk _].
  rewrite lookup_drop in Hk. exact Hk.
Qed.

Lemma spoken_text_is_document_slice_witness :
  let s := step (EvPasteInput [104; 101; 108; 108; 111]%N) (initial (JNum 1) "") in
  exists u,
    heap (playFromCurrentChunk 3 s) !! 0%nat = Some u
    /\ u_base u = 3
    /\ u_text u = [108; 111]%N.
Proof.
  intros s.
  destruct (spoken_text_is_document_slice s 3) as (u & Hu & _ & Ht & _).
  - reflexivity.
  - split; vm_compute; [discriminate | reflexivity].
  - exists u. split; [exact Hu |].
    assert (u_base u = 3) as Hb by (vm_compute in Hu; injection Hu as <-; reflexivity).
    split; [exact Hb |]. rewrite Ht, Hb. vm_compute. reflexivity.
Defined.

(** ** Restarting with new settings *)

Lemma retireCurrent_frame s :
  currentText (retireCurrent s) = currentText s
  /\ currentChunks (retireCurrent s) = currentChunks s
  /\ currentIndex (retireCurrent s) = currentIndex s
  /\ isPlaying (retireCurrent s) = isPlaying s
  /\ utterance (retireCurrent s) = utterance s
  /\ lastBoundaryGlobalStart (retireCurrent s) = lastBoundaryGlobalStart s
  /\ queue (retireCurrent s) = queue s
  /\ timers (retireCurrent s) = timers s
  /\ length (heap (retireCurrent s)) = length (heap s)
  /\ rateSlider (retireCurrent s) = rateSlider s
  /\ volumeSlider (retireCurrent s) = volumeSlider s
  /\ voiceSelect (retireCurrent s) = voiceSelect s
  /\ voices (retireCurrent s) = voices s.
Proof.
  unfold retireCurrent.
  destruct (utterance s) as [id |] eqn:Hu; [| rewrite Hu; repeat split; reflexivity].
  unfold dropCallbacks, logEffect. sfields.
  repeat split; try assumption.
  destruct (heap s !! id); [apply length_insert | reflexivity].
Qed.

(** When the restart goes ahead, it retires the current utterance,
    cancels the engine and schedules [playFromCurrentChunk] at the resume
    offset. *)
Lemma restart_ahead_eq force s :
  restartInFlight s = false ->
  (isPlaying s || force) = true ->
  currentText s <> [] ->
  let newIndex := Z.max 0 (resumeAtOf s / internalChunkSize) in
  restartWithNewSettingsFromCurrentPosition force s
  = addTimer 60 (Z.max 0 (resumeAtOf s - newIndex * internalChunkSize))
      (set_currentIndex newIndex
         (engineCancel (set_restartInFlight true (retireCurrent s)))).
Proof.
  intros Hflag Hcan Htext. cbn zeta.
  unfold restartWithNewSettingsFromCurrentPosition. rewrite Hflag, Hcan.
  destruct (currentText s) as [| c text]; [congruence |]. cbn [andb negb].
  fold (resumeAtOf s). fold (retireCurrent s).
  destruct (retireCurrent_frame s) as (_ & _ & _ & Hp & _).
  unfold engineCancel at 1, logEffect at 1. sfields. rewrite Hp.
  destruct (isPlaying s), force; try discriminate; reflexivity.
Qed.

(** X4. A settings change never cancels the engine without scheduling the
    restart: either the page is left as it is, or the engine is
    cancelled, [restartInFlight] is set and exactly one timer of 60 ms is
    added.  No speech request is created by the change itself. *)
Theorem restart_cancels_only_to_restart (force : bool) (s : State) :
  let s' := restartWithNewSettingsFromCurrentPosition force s in
  s' = s
  \/ (exists offset, timers s' = timers s ++ [mkTimer 60 offset])
     /\ queue s' = []
     /\ restartInFlight s' = true
     /\ last (trace s') = Some ECancel
     /\ isPlaying s' = isPlaying s
     /\ length (heap s') = length (heap s).
Proof.
  cbn zeta.
  destruct (restartInFlight s) eqn:Hflag;
    [left; unfold restartWithNewSettingsFromCurrentPosition; rewrite Hflag; reflexivity |].
  destruct (isPlaying s || force) eqn:Hcan;
    [| left; unfold restartWithNewSettingsFromCurrentPosition;
       rewrite Hflag, Hcan; reflexivity].
  destruct (currentText s) as [| c text] eqn:Htext;
    [left; unfold restartWithNewSettingsFromCurrentPosition;
     rewrite Hflag, Hcan, Htext; reflexivity |].
  right. rewrite restart_ahead_eq by (try assumption; congruence).
  destruct (retireCurrent_frame s) as (_ & _ & _ & Hp & _ & _ & _ & Ht & Hh & _).
  unfold addTimer, engineCancel, logEffect. sfields.
  rewrite Ht, Hp, Hh.
  split; [eexists; reflexivity |].
  repeat split. apply last_snoc.
Qed.

(** Firing the timer that was added last runs its callback on the state
    from before the timer was added. *)
Lemma last_timer_fires delay off s :
  step (EvTimer (length (timers s))) (addTimer delay off s)
  = playFromCurrentChunk off s.
Proof.
  cbn [step]. unfold addTimer. sfields.
  rewrite list_lookup_middle by reflexivity.
  rewrite (delete_middle (timers s) []), app_nil_r.
  cbn [t_offset]. destruct s. reflexivity.
Qed.

(** The state a restart leaves for its timer, when the last boundary is
    inside the text. *)
Lemma restart_then_timer force s :
  restartInFlight s = false ->
  (isPlaying s || force) = true ->
  currentText s <> [] ->
  let newIndex := Z.max 0 (resumeAtOf s / internalChunkSize) in
  step (EvTimer (length (timers s)))
    (restartWithNewSettingsFromCurrentPosition force s)
  = playFromCurrentChunk (Z.max 0 (resumeAtOf s - newIndex * internalChunkSize))
      (set_currentIndex newIndex
         (engineCancel (set_restartInFlight true (retireCurrent s)))).
Proof.
  intros Hflag Hcan Htext. cbn zeta.
  rewrite restart_ahead_eq by assumption.
  destruct (retireCurrent_frame s) as (_ & _ & _ & _ & _ & _ & _ & Ht & _).
  match goal with |- step _ (addTimer ?d ?o ?st) = _ =>
    replace (length (timers s)) with (length (timers st));
      [apply last_timer_fires |]
  end.
  unfold engineCancel, logEffect. sfields. rewrite Ht. reflexivity.
Qed.

(** X5. A settings change that goes ahead while the last boundary lies inside
    the text resumes there: once its timer has fired, the engine holds
    one new request, for the document from the last boundary to the end
    of the chunk that holds it, with the rate, volume and voice the
    controls have now; the previous utterance has lost its callbacks. *)
Theorem restart_resumes_at_last_boundary (force : bool) (s : State) :
  chunksInSync s ->
  restartInFlight s = false ->
  (isPlaying s || force) = true ->
  0 <= lastBoundaryGlobalStart s < len (currentText s) ->
  let at_ := lastBoundaryGlobalStart s in
  let index := at_ / internalChunkSize in
  let s2 := step (EvTimer (length (timers s)))
              (restartWithNewSettingsFromCurrentPosition force s) in
  isPlaying s2 = true
  /\ restartInFlight s2 = false
  /\ currentIndex s2 = index
  /\ lastBoundaryGlobalStart s2 = at_
  /\ timers s2 = timers s
  /\ utterance s2 = Some (length (heap s))
  /\ queue s2 = [length (heap s)]
  /\ heap s2 !! length (heap s)
     = Some {| u_text := slice (currentText s) at_
                           (index * internalChunkSize + internalChunkSize);
               u_rate := orElse (rateSlider s) (JNum 1);
               u_volume := orElse (volumeSlider s) (JNum 1);
               u_voice := pickVoice s;
               u_base := at_;
               u_onend := Some (CallOnEnd (Some AutoAdvance));
               u_onerror := true |}
  /\ forall old w,
       utterance s = Some old -> heap s !! old = Some w ->
       heap s2 !! old = Some (nullCallbacks w).
Proof.
  intros Hsync Hflag Hcan Hlb. cbn zeta.
  assert (currentText s <> []) as Htext
    by (intros E; rewrite E in Hlb; unfold len in Hlb; cbn in Hlb; lia).
  rewrite restart_then_timer by assumption.
  unfold resumeAtOf.
  destruct (Z.geb_spec (lastBoundaryGlobalStart s) 0) as [_ | Hneg]; [| lia].
  set (at_ := lastBoundaryGlobalStart s) in *.
  set (index := at_ / internalChunkSize).
  assert (0 <= index) as Hindex
    by (apply Z.div_pos; unfold internalChunkSize; lia).
  pose proof (Z.mul_div_le at_ internalChunkSize eq_refl) as Hle.
  pose proof (Z.mod_pos_bound at_ internalChunkSize eq_refl) as Hmod.
  pose proof (Z.div_mod at_ internalChunkSize ltac:(discriminate)) as Hdm.
  fold index in Hle, Hdm.
  rewrite !(Z.max_r 0 index) by lia.
  rewrite (Z.max_r 0 (at_ - index * internalChunkSize)) by lia.
  destruct (retireCurrent_frame s)
    as (Ft & Fc & Fi & Fp & Fu & Fb & Fq & Ftm & Fh & Fr & Fv & Fs & Fvs).
  set (s0 := set_currentIndex index
               (engineCancel (set_restartInFlight true (retireCurrent s)))).
  assert (currentText s0 = currentText s) as Ht0 by exact Ft.
  assert (currentChunks s0 = currentChunks s) as Hc0 by exact Fc.
  assert (currentIndex s0 = index) as Hi0 by reflexivity.
  assert (index * internalChunkSize < len (currentText s)) as Hin by lia.
  destruct (playFromCurrentChunk_in_sync s0 (at_ - index * internalChunkSize))
    as (_ & _ & ->).
  { unfold chunksInSync. rewrite Hc0, Ht0. exact Hsync. }
  { rewrite Hi0, Hc0, Hsync. split; [lia |].
    apply index_valid_iff; [lia | exact Hin]. }
  rewrite Hi0, Ht0.
  rewrite speakOffsetOf_inside by (unfold internalChunkSize in *; lia).
  replace (index * internalChunkSize + (at_ - index * internalChunkSize))
    with at_ by lia.
  match goal with |- context [speakChunk ?t ?c ?b ?st] =>
    destruct (speakChunk_frame t c b st) as (_ & _ & Hi & Hp & Hf & Htm & _);
    pose proof (speakChunk_utterance t c b st) as Hu;
    pose proof (speakChunk_lookup t c b st) as Hh;
    pose proof (speakChunk_queue t c b st) as Hq;
    pose proof (speakChunk_heap t c b st) as Hheap;
    pose proof (speakChunk_lastBoundary t c b st) as Hb
  end.
  assert (length (heap (set_restartInFlight false (set_isPlaying true s0)))
          = length (heap s)) as Hlen by exact Fh.
  rewrite Hlen in Hu, Hh, Hq.
  split; [exact Hp |]. split; [exact Hf |]. split; [exact Hi |].
  split; [exact Hb |]. split; [rewrite Htm; exact Ftm |].
  split; [exact Hu |].
  split.
  { rewrite Hq. destruct (utterance _); reflexivity. }
  split.
  { rewrite Hh. unfold newUtterance, pickVoice. subst s0.
    unfold engineCancel, logEffect. sfields.
    rewrite Fr, Fv, Fs, Fvs. reflexivity. }
  intros old w Hold Hw.
  rewrite Hheap. rewrite lookup_app_l
    by (rewrite retiredHeap_length, Hlen; eapply lookup_lt_Some; eauto).
  unfold retiredHeap. subst s0. unfold engineCancel, logEffect. sfields.
  rewrite Fu, Hold.
  unfold retireCurrent, dropCallbacks, logEffect. rewrite Hold. sfields.
  rewrite Hw.
  rewrite list_lookup_insert_eq by (eapply lookup_lt_Some; eauto).
  rewrite list_lookup_insert_eq
    by (rewrite length_insert; eapply lookup_lt_Some; eauto).
  reflexivity.
Qed.

Lemma restart_resumes_at_last_boundary_witness :
  let s := run [EvPasteInput (repeat 97%N (Z.to_nat 7000)); EvPlayPause;
                EvEnd 0; EvTimer 0;
                EvBoundary 1 {| charIndex := Some 1200; charLength := Some 4 |}]
             (initial (JNum 1) "") in
  let s2 := step (EvTimer (length (timers s)))
              (restartWithNewSettingsFromCurrentPosition true s) in
  lastBoundaryGlobalStart s = 4200
  /\ currentIndex s2 = 1
  /\ lastBoundaryGlobalStart s2 = 4200
  /\ queue s2 = [2%nat]
  /\ (len ∘ u_text) <$> heap s2 !! 2%nat = Some 1800.
Proof.
  intros s s2.
  destruct (restart_resumes_at_last_boundary true s)
    as (_ & _ & Hi & Hb & _ & _ & Hq & Hh & _).
  - reflexivity.
  - reflexivity.
  - reflexivity.
  - split; vm_compute; [discriminate | reflexivity].
  - split; [vm_compute; reflexivity |].
    split; [exact Hi |]. split; [exact Hb |]. split; [exact Hq |].
    change (length (heap s)) with 2%nat in Hh. subst s2. rewrite Hh.
    vm_compute. reflexivity.
Defined.

(** With text loaded, a chunk index whose chunk would start at or past
    the end of the text makes [playFromCurrentChunk] give up. *)
Lemma playFromCurrentChunk_beyond s off :
  chunksInSync s ->
  currentText s <> [] ->
  0 <= currentIndex s ->
  len (currentText s) <= currentIndex s * internalChunkSize ->
  playFromCurrentChunk off s = set_isPlaying false s.
Proof.
  intros Hsync Htext Hidx Hbeyond. unfold playFromCurrentChunk.
  assert (0 < len (currentText s)) as Hpos
    by (destruct (currentText s); [congruence | unfold len; cbn; lia]).
  pose proof (ceilDiv_pos _ Hpos) as Hn. rewrite <- chunksOf_length, <- Hsync in Hn.
  destruct (Z.eqb_spec (len (currentChunks s)) 0) as [E | _]; [lia |].
  destruct (Z.ltb_spec (currentIndex s) 0) as [E | _]; [lia |].
  destruct (Z.geb_spec (currentIndex s) (len (currentChunks s))) as [_ | Hlt];
    [reflexivity |].
  rewrite Hsync in Hlt. apply index_valid_iff in Hlt; lia.
Qed.

(** X6. A settings change that goes ahead while the chunk that would hold the
    last boundary starts at or past the end of the text (the last
    boundary is not reset when a shorter document is loaded) gets the
    page stuck: when its timer fires no speech request is made, the
    playing flag is cleared, and [restartInFlight] stays set, so that
    every later settings change is ignored; the chunk index is left past
    the last chunk, so that a click on play makes no speech request
    either: with the engine not paused it gives up and changes nothing,
    and with the engine left paused it only resumes the empty engine and
    sets the playing flag. *)
Theorem restart_beyond_text_gets_stuck (force : bool) (s : State) :
  chunksInSync s ->
  restartInFlight s = false ->
  (isPlaying s || force) = true ->
  currentText s <> [] ->
  len (currentText s)
  <= lastBoundaryGlobalStart s / internalChunkSize * internalChunkSize ->
  let s2 := step (EvTimer (length (timers s)))
              (restartWithNewSettingsFromCurrentPosition force s) in
  isPlaying s2 = false
  /\ restartInFlight s2 = true
  /\ queue s2 = []
  /\ length (heap s2) = length (heap s)
  /\ currentIndex s2 = lastBoundaryGlobalStart s / internalChunkSize
  /\ (forall force', restartWithNewSettingsFromCurrentPosition force' s2 = s2)
  /\ (enginePaused s = false -> playPauseClick s2 = s2)
  /\ (enginePaused s = true ->
      let s3 := playPauseClick s2 in
      isPlaying s3 = true
      /\ enginePaused s3 = false
      /\ trace s3 = trace s2 ++ [EResume]
      /\ queue s3 = []
      /\ heap s3 = heap s2
      /\ restartInFlight s3 = true
      /\ currentIndex s3 = currentIndex s2).
Proof.
  intros Hsync Hflag Hcan Htext Hlb. cbn zeta.
  rewrite restart_then_timer by assumption.
  pose proof (len_nonneg (currentText s)) as Hlen.
  assert (0 <= lastBoundaryGlobalStart s) as Hnn.
  { destruct (Z.le_gt_cases 0 (lastBoundaryGlobalStart s)) as [H | H];
      [exact H |].
    assert (lastBoundaryGlobalStart s / internalChunkSize < 0)
      by (apply Z.div_lt_upper_bound; unfold internalChunkSize; lia).
    unfold internalChunkSize in *. lia. }
  unfold resumeAtOf.
  destruct (Z.geb_spec (lastBoundaryGlobalStart s) 0) as [_ | Hneg]; [| lia].
  set (at_ := lastBoundaryGlobalStart s) in *.
  set (index := at_ / internalChunkSize) in *.
  assert (0 <= index) as Hindex
    by (apply Z.div_pos; unfold internalChunkSize; lia).
  rewrite !(Z.max_r 0 index) by lia.
  destruct (retireCurrent_frame s)
    as (Ft & Fc & Fi & Fp & Fu & Fb & Fq & Ftm & Fh & _).
  set (s0 := set_currentIndex index
               (engineCancel (set_restartInFlight true (retireCurrent s)))).
  assert (currentText s0 = currentText s) as Ht0 by exact Ft.
  assert (currentChunks s0 = currentChunks s) as Hc0 by exact Fc.
  assert (currentIndex s0 = index) as Hi0 by reflexivity.
  assert (chunksInSync s0) as Hsync0
    by (unfold chunksInSync; rewrite Hc0, Ht0; exact Hsync).
  pose proof Hlb as Hpast.
  rewrite (playFromCurrentChunk_beyond s0 _ Hsync0);
    [| rewrite Ht0; exact Htext | rewrite Hi0; exact Hindex
     | rewrite Hi0, Ht0; exact Hpast].
  split; [reflexivity |]. split; [reflexivity |]. split; [reflexivity |].
  split; [exact Fh |]. split; [reflexivity |].
  assert (enginePaused (retireCurrent s) = enginePaused s) as Hep.
  { unfold retireCurrent. destruct (utterance s); reflexivity. }
  split; [| split].
  - intros force'. unfold restartWithNewSettingsFromCurrentPosition.
    reflexivity.
  - intros Hpaused. unfold playPauseClick.
    change (currentText (set_isPlaying false s0)) with (currentText s0).
    rewrite Ht0. destruct (currentText s) as [| c text] eqn:E; [congruence |].
    change (isPlaying (set_isPlaying false s0)) with false. cbn [negb].
    change (enginePaused (set_isPlaying false s0)) with (enginePaused (retireCurrent s)).
    assert (enginePaused (retireCurrent s) = enginePaused s) as ->.
    { unfold retireCurrent. destruct (utterance s); reflexivity. }
    rewrite Hpaused.
    rewrite playFromCurrentChunk_beyond.
    + reflexivity.
    + exact Hsync0.
    + change (currentText (set_isPlaying false s0)) with (currentText s0).
      rewrite Ht0. discriminate.
    + exact Hindex.
    + change (len (currentText s0) <= index * internalChunkSize).
      rewrite Ht0. exact Hpast.
  - intros Hpaused. unfold playPauseClick.
    change (currentText (set_isPlaying false s0)) with (currentText s0).
    rewrite Ht0. destruct (currentText s) as [| c text] eqn:E; [congruence |].
    change (isPlaying (set_isPlaying false s0)) with false. cbn [negb].
    change (enginePaused (set_isPlaying false s0)) with (enginePaused (retireCurrent s)).
    rewrite Hep, Hpaused.
    unfold updatePlayPauseUI, engineResume, logEffect. sfields.
    repeat split; reflexivity.
Qed.

Lemma restart_beyond_text_gets_stuck_witness :
  let s := run [EvPasteInput (repeat 97%N (Z.to_nat 3500)); EvPlayPause;
                EvBoundary 0 {| charIndex := Some 3400; charLength := Some 4 |};
                EvPasteInput [104; 105]%N]
             (initial (JNum 1) "") in
  let s2 := step (EvTimer (length (timers s)))
              (restartWithNewSettingsFromCurrentPosition false s) in
  let p := run [EvPasteInput (repeat 97%N (Z.to_nat 3500)); EvPlayPause;
                EvBoundary 0 {| charIndex := Some 3400; charLength := Some 4 |};
                EvPlayPause; EvPasteInput [104; 105]%N]
             (initial (JNum 1) "") in
  let p2 := step (EvTimer (length (timers p)))
              (restartWithNewSettingsFromCurrentPosition true p) in
  isPlaying s = true
  /\ lastBoundaryGlobalStart s = 3400
  /\ isPlaying s2 = false
  /\ restartInFlight s2 = true
  /\ restartWithNewSettingsFromCurrentPosition true s2 = s2
  /\ playPauseClick s2 = s2
  /\ enginePaused p = true
  /\ isPlaying p2 = false
  /\ isPlaying (playPauseClick p2) = true
  /\ queue (playPauseClick p2) = []
  /\ heap (playPauseClick p2) = heap p2.
Proof.
  intros s s2 p p2.
  destruct (restart_beyond_text_gets_stuck false s)
    as (Hp & Hf & _ & _ & _ & Hstuck & Hplay & _).
  - vm_compute. reflexivity.
  - vm_compute. reflexivity.
  - vm_compute. reflexivity.
  - vm_compute. discriminate.
  - vm_compute. discriminate.
  - destruct (restart_beyond_text_gets_stuck true p)
      as (Hp' & _ & _ & _ & _ & _ & _ & Hresume).
    + vm_compute. reflexivity.
    + vm_compute. reflexivity.
    + vm_compute. reflexivity.
    + vm_compute. discriminate.
    + vm_compute. discriminate.
    + destruct Hresume as (R1 & _ & _ & R4 & R5 & _); [vm_compute; reflexivity |].
      split; [vm_compute; reflexivity |]. split; [vm_compute; reflexivity |].
      split; [exact Hp |]. split; [exact Hf |].
      split; [exact (Hstuck true) |].
      split; [apply Hplay; vm_compute; reflexivity |].
      split; [vm_compute; reflexivity |].
      split; [exact Hp' |].
      split; [exact R1 |]. split; [exact R4 | exact R5].
Defined.

(** ** Pause, stop and pending timers *)



Lemma first_chunk_valid s :
  chunksInSync s -> currentText s <> [] -> 0 < len (currentChunks s).
Proof.
  intros Hsync Htext. rewrite Hsync, chunksOf_length. apply ceilDiv_pos.
  destruct (currentText s); [congruence | unfold len; cbn; lia].
Qed.



(** The end of an utterance whose completion callback is installed,
    reported after stop: the callback moves the chunk index to 1. *)
Lemma end_after_stop (s : State) (id : nat) (old : Utterance) :
  heap s !! id = Some old ->
  u_onend old = Some (CallOnEnd (Some AutoAdvance)) ->
  let st := step (EvEnd id) (step EvStop s) in
  currentText st = currentText s
  /\ currentChunks st = currentChunks s
  /\ currentIndex st = 1
  /\ isPlaying st = false
  /\ enginePaused st = enginePaused s
  /\ utterance st = utterance s
  /\ heap st = heap s
  /\ queue st = [].
Proof.
  intros Hold Hend. cbn zeta. cbn [step].
  unfold stopClick, engineCancel, logEffect, updatePlayPauseUI. sfields.
  rewrite Hold, Hend. cbn [onendHandler runCallback].
  unfold autoAdvance, engineDone, updatePlayPauseUI. sfields.
  rewrite andb_false_r. sfields. repeat split; reflexivity.
Qed.

(** A click on play with the chunk index at 1, the page not playing and
    the engine idle. *)
Lemma play_at_second_chunk (st : State) :
  chunksInSync st ->
  currentText st <> [] ->
  currentIndex st = 1 ->
  isPlaying st = false ->
  enginePaused st = false ->
  queue st = [] ->
  let s3 := playPauseClick st in
  currentIndex s3 = 1
  /\ (len (currentText st) <= internalChunkSize ->
      isPlaying s3 = false /\ heap s3 = heap st /\ queue s3 = [])
  /\ (internalChunkSize < len (currentText st) ->
      isPlaying s3 = true
      /\ lastBoundaryGlobalStart s3 = internalChunkSize
      /\ queue s3 = [length (heap st)]
      /\ exists u,
           heap s3 !! length (heap st) = Some u
           /\ u_base u = internalChunkSize
           /\ u_text u
              = slice (currentText st) internalChunkSize
                  (internalChunkSize + internalChunkSize)).
Proof.
  intros Hsync Htext Fi Fp Fe Fq. cbn zeta.
  unfold playPauseClick. rewrite Fp, Fe. cbn [negb].
  destruct (currentText st) as [| c text] eqn:Et; [congruence |].
  rewrite <- Et in *. clear Et.
  assert (internalChunkSize < len (currentText st) ->
          0 <= currentIndex st < len (currentChunks st)) as Hvalid.
  { intros Hgt. rewrite Fi. split; [lia |]. rewrite Hsync.
    apply index_valid_iff; [lia | unfold internalChunkSize in *; lia]. }
  assert (len (currentText st) <= internalChunkSize ->
          playFromCurrentChunk 0 st = set_isPlaying false st) as Hbeyond.
  { intros Hle. apply playFromCurrentChunk_beyond;
      [exact Hsync | exact Htext | lia
      | rewrite Fi; unfold internalChunkSize in *; lia]. }
  split; [| split].
  - destruct (Z.le_gt_cases (len (currentText st)) internalChunkSize) as [Hle | Hgt].
    + rewrite (Hbeyond Hle). exact Fi.
    + destruct (playFromCurrentChunk_in_sync st 0 Hsync (Hvalid Hgt)) as (_ & _ & ->).
      match goal with |- context [speakChunk ?tx ?cb ?b ?st'] =>
        destruct (speakChunk_frame tx cb b st') as (_ & _ & Hi & _)
      end.
      rewrite Hi. exact Fi.
  - intros Hle. rewrite (Hbeyond Hle).
    split; [reflexivity |]. split; [reflexivity | exact Fq].
  - intros Hgt.
    destruct (playFromCurrentChunk_in_sync st 0 Hsync (Hvalid Hgt)) as (_ & _ & ->).
    assert (speakOffsetOf 0
              (Z.min internalChunkSize
                 (len (currentText st) - currentIndex st * internalChunkSize))
            = 0) as ->.
    { apply speakOffsetOf_inside. rewrite Fi. unfold internalChunkSize in *. lia. }
    rewrite Fi, Z.add_0_r, Z.mul_1_l.
    match goal with |- context [speakChunk ?tx ?cb ?b ?st'] =>
      destruct (speakChunk_frame tx cb b st') as (_ & _ & _ & Hp & _);
      pose proof (speakChunk_queue tx cb b st') as Hq;
      pose proof (speakChunk_lookup tx cb b st') as Hh;
      pose proof (speakChunk_lastBoundary tx cb b st') as Hb
    end.
    split; [exact Hp |]. split; [exact Hb |].
    split.
    { rewrite Hq. change (queue (set_restartInFlight false (set_isPlaying true st)))
        with (queue st). rewrite Fq. destruct (utterance _); reflexivity. }
    eexists. split; [exact Hh |]. split; reflexivity.
Qed.

(** X9. A click on play right after stop (with the engine not left paused
    and no callback of the engine between the two clicks) starts the
    document over: it speaks the first chunk from its first character,
    with base offset 0, and that request is the only one at the engine.
    Stop cancels the engine without nulling the completion callback of
    the utterance it cancels: when the engine reports the end of that
    utterance between the two clicks, the callback moves the chunk index
    to 1, and the click on play then speaks the second chunk, with base
    offset 3000, or makes no speech request at all when the document has
    a single chunk. *)
Theorem stop_then_play_starts_over (s : State) :
  chunksInSync s ->
  currentText s <> [] ->
  enginePaused s = false ->
  (let s2 := playPauseClick (stopClick s) in
   isPlaying s2 = true
   /\ currentIndex s2 = 0
   /\ lastBoundaryGlobalStart s2 = 0
   /\ queue s2 = [length (heap s)]
   /\ exists u,
        heap s2 !! length (heap s) = Some u
        /\ u_base u = 0
        /\ u_text u = slice (currentText s) 0 internalChunkSize)
  /\ (forall id old,
        heap s !! id = Some old ->
        u_onend old = Some (CallOnEnd (Some AutoAdvance)) ->
        let s3 := run [EvStop; EvEnd id; EvPlayPause] s in
        currentIndex s3 = 1
        /\ (len (currentText s) <= internalChunkSize ->
            isPlaying s3 = false /\ heap s3 = heap s /\ queue s3 = [])
        /\ (internalChunkSize < len (currentText s) ->
            isPlaying s3 = true
            /\ lastBoundaryGlobalStart s3 = internalChunkSize
            /\ queue s3 = [length (heap s)]
            /\ exists u,
                 heap s3 !! length (heap s) = Some u
                 /\ u_base u = internalChunkSize
                 /\ u_text u
                    = slice (currentText s) internalChunkSize
                        (internalChunkSize + internalChunkSize))).
Proof.
  intros Hsync Htext Hpaused. split.
  - cbn zeta.
    pose proof (first_chunk_valid s Hsync Htext) as Hn.
    unfold stopClick, engineCancel, logEffect, updatePlayPauseUI. sfields.
    unfold playPauseClick. sfields.
    destruct (currentText s) as [| c text] eqn:Et; [congruence |].
    rewrite <- Et in *. rewrite Hpaused. cbn [negb].
    match goal with |- context [playFromCurrentChunk ?o ?st] =>
      destruct (playFromCurrentChunk_in_sync st o) as (_ & _ & ->);
        [exact Hsync | sfields; lia |]
    end.
    match goal with |- context [speakChunk ?tx ?cb ?b ?st] =>
      destruct (speakChunk_frame tx cb b st) as (_ & _ & Hi & Hp & _);
      pose proof (speakChunk_queue tx cb b st) as Hq;
      pose proof (speakChunk_lookup tx cb b st) as Hh;
      pose proof (speakChunk_lastBoundary tx cb b st) as Hb
    end.
    sfields.
    assert (speakOffsetOf 0
              (Z.min internalChunkSize (len (currentText s) - 0 * internalChunkSize))
            = 0) as Hso.
    { apply speakOffsetOf_inside. pose proof (len_nonneg (currentText s)).
      unfold internalChunkSize. lia. }
    rewrite Hso in *.
    split; [exact Hp |]. split; [exact Hi |]. split; [exact Hb |].
    split; [rewrite Hq; destruct (utterance s); reflexivity |].
    eexists. split; [exact Hh |]. split; reflexivity.
  - intros id old Hold Hend. cbn zeta. cbn [run fold_left].
    destruct (end_after_stop s id old Hold Hend)
      as (Ft & Fc & Fi & Fp & Fe & Fu & Fh & Fq).
    cbn zeta in *. change (step EvPlayPause ?x) with (playPauseClick x).
    rewrite <- Ft, <- Fh.
    apply play_at_second_chunk; try assumption.
    + unfold chunksInSync. rewrite Fc, Ft. exact Hsync.
    + rewrite Ft. exact Htext.
    + rewrite Fe. exact Hpaused.
Qed.

Lemma stop_then_play_starts_over_witness :
  let s := run [EvPasteInput (repeat 97%N (Z.to_nat 3500)); EvJump 3200]
             (initial (JNum 1) "") in
  let s2 := playPauseClick (stopClick s) in
  let s3 := run [EvStop; EvEnd 0; EvPlayPause] s in
  let t := run [EvPasteInput [104; 105]%N; EvPlayPause] (initial (JNum 1) "") in
  let t3 := run [EvStop; EvEnd 0; EvPlayPause] t in
  currentIndex s = 1
  /\ currentIndex s2 = 0
  /\ lastBoundaryGlobalStart s2 = 0
  /\ queue s2 = [1%nat]
  /\ currentIndex s3 = 1
  /\ lastBoundaryGlobalStart s3 = internalChunkSize
  /\ currentIndex t3 = 1
  /\ isPlaying t3 = false
  /\ heap t3 = heap t.
Proof.
  intros s s2 s3 t t3.
  destruct (stop_then_play_starts_over s) as ((_ & Hi & Hb & Hq & _) & Hlate).
  - reflexivity.
  - vm_compute. discriminate.
  - reflexivity.
  - destruct (Hlate 0%nat (newUtterance (repeat 97%N (Z.to_nat 300))
                             (Some AutoAdvance) (Some 3200)
                             (step (EvPasteInput (repeat 97%N (Z.to_nat 3500)))
                                (initial (JNum 1) ""))))
      as (Hi3 & _ & Htwo); [vm_compute; reflexivity | reflexivity |].
    destruct Htwo as (_ & Hb3 & _); [vm_compute; reflexivity |].
    destruct (stop_then_play_starts_over t) as (_ & Hlate').
    + reflexivity.
    + vm_compute. discriminate.
    + reflexivity.
    + destruct (Hlate' 0%nat (newUtterance [104; 105]%N (Some AutoAdvance) (Some 0)
                                (step (EvPasteInput [104; 105]%N)
                                   (initial (JNum 1) ""))))
        as (Hi3' & Hone & _); [vm_compute; reflexivity | reflexivity |].
      destruct Hone as (Hp3' & Hh3' & _); [vm_compute; discriminate |].
      split; [reflexivity |]. split; [exact Hi |]. split; [exact Hb |].
      split; [exact Hq |]. split; [exact Hi3 |]. split; [exact Hb3 |].
      split; [exact Hi3' |]. split; [exact Hp3' | exact Hh3'].
Defined.

(** X10. [speakChunk] nulls the completion and error callbacks of the
    utterance it replaces but leaves its boundary callback: a boundary
    event of the replaced utterance that fires late moves the last
    boundary to a position of the old request, although the new request
    is the current one. *)
Theorem late_boundary_moves_cursor (s : State) (old : nat) (w : Utterance)
    (e : BoundaryEvent) (ci : Z) (text : jsstring) (onend : option Callback)
    (base : option Z) :
  utterance s = Some old ->
  heap s !! old = Some w ->
  charIndex e = Some ci ->
  let s1 := speakChunk text onend base s in
  let s2 := step (EvBoundary old e) s1 in
  utterance s2 = Some (length (heap s))
  /\ old <> length (heap s)
  /\ (u_onend <$> heap s1 !! old) = Some None
  /\ lastBoundaryGlobalStart s1 = default (currentIndex s * internalChunkSize) base
  /\ lastBoundaryGlobalStart s2 = u_base w + ci.
Proof.
  intros Hold Hw Hci. cbn zeta.
  pose proof (lookup_lt_Some _ _ _ Hw) as Hlt.
  assert (heap (speakChunk text onend base s) !! old = Some (nullCallbacks w)) as Hnull.
  { rewrite speakChunk_heap, lookup_app_l by (rewrite retiredHeap_length; exact Hlt).
    unfold retiredHeap. rewrite Hold, Hw.
    apply list_lookup_insert_eq. exact Hlt. }
  cbn [step]. rewrite Hnull.
  unfold onboundary, boundarySpan, orElseZ. rewrite Hci. sfields.
  split; [apply speakChunk_utterance |].
  split; [lia |].
  split; [reflexivity |].
  split; [apply speakChunk_lastBoundary |].
  cbn. destruct (Z.eqb_spec ci 0); lia.
Qed.

Lemma late_boundary_moves_cursor_witness :
  let s := run [EvPasteInput [104; 101; 108; 108; 111]%N; EvPlayPause]
             (initial (JNum 1) "") in
  let e := {| charIndex := Some 2; charLength := Some 3 |} in
  let s1 := speakChunk [108; 111]%N (Some AutoAdvance) (Some 3) s in
  let s2 := step (EvBoundary 0 e) s1 in
  lastBoundaryGlobalStart s1 = 3
  /\ utterance s2 = Some (length (heap s))
  /\ lastBoundaryGlobalStart s2 = 0 + 2.
Proof.
  intros s e s1 s2.
  destruct (late_boundary_moves_cursor s 0
              (mkUtterance [104; 101; 108; 108; 111]%N (JNum 1) (JNum 1) None 0
                 (Some (CallOnEnd (Some AutoAdvance))) true)
              e 2 [108; 111]%N (Some AutoAdvance) (Some 3))
    as (Hu & _ & _ & Hb1 & Hb2).
  - reflexivity.
  - reflexivity.
  - reflexivity.
  - split; [exact Hb1 |]. split; [exact Hu | exact Hb2].
Defined.

(** ** Reading a document to its end *)

Lemma retiredHeap_text s : u_text <$> retiredHeap s = u_text <$> heap s.
Proof.
  unfold retiredHeap. destruct (utterance s) as [id |]; [| reflexivity].
  destruct (heap s !! id) as [u |] eqn:Hu; [| reflexivity].
  rewrite list_fmap_insert. apply list_insert_id.
  rewrite list_lookup_fmap, Hu. reflexivity.
Qed.








(** ** The text layer of a PDF *)

Lemma joinSpace_cons (itm : jsstring) (rest : list jsstring) :
  joinSpace (itm :: rest)
  = (itm ++ match rest with [] => [] | _ :: _ => [32%N] end) ++ joinSpace rest.
Proof.
  destruct rest as [| r rs]; cbn [joinSpace].
  - rewrite !app_nil_r. reflexivity.
  - rewrite <- app_assoc. reflexivity.
Qed.

Lemma slice_middle {A : Type} (pre mid post : list A) :
  slice (pre ++ mid ++ post) (len pre) (len pre + len mid) = mid.
Proof.
  pose proof (len_nonneg pre). pose proof (len_nonneg mid).
  pose proof (len_nonneg post).
  rewrite slice_nonneg by (rewrite ?len_app; lia).
  rewrite !len_app, Z.min_l by lia.
  unfold len. rewrite Nat2Z.id, drop_app_length.
  replace (Z.to_nat (Z.of_nat (length pre) + Z.of_nat (length mid) - Z.of_nat (length pre)))
    with (length mid) by lia.
  apply take_app_length.
Qed.

Lemma spanLoop_eq c pn pb items :
  forall acc spans,
    spanLoop c pn pb items acc spans
    = spans ++ itemSpans pn pb acc (c + length spans) items.
Proof.
  induction items as [| itm rest IH]; intros acc spans; cbn [spanLoop itemSpans].
  - rewrite app_nil_r. reflexivity.
  - rewrite IH, length_app, <- app_assoc. cbn [length app].
    rewrite Nat.add_1_r, Nat.add_succ_r. reflexivity.
Qed.

Lemma itemSpans_length pn pb items :
  forall acc id, length (itemSpans pn pb acc id items) = length items.
Proof.
  induction items as [| itm rest IH]; intros acc id; cbn; [reflexivity |].
  rewrite IH. reflexivity.
Qed.

Lemma pageLoop_eq c pages :
  forall i acc spans meta,
    pageLoop c pages i acc spans meta
    = (acc ++ pagesText pages,
       spans ++ pageSpans i (len acc) (c + length spans) pages,
       meta ++ metaOf i pages).
Proof.
  induction pages as [| p rest IH]; intros i acc spans meta;
    cbn [pageLoop pageSpans metaOf].
  - unfold pagesText. cbn. rewrite !app_nil_r. reflexivity.
  - rewrite IH, spanLoop_eq. unfold pagesText. cbn [map concat].
    rewrite <- !app_assoc. cbn [app].
    rewrite length_app, itemSpans_length, !len_app, Nat.add_assoc.
    replace (len (p_text p) + len [10%N; 10%N]) with (len (p_text p) + 2)
      by reflexivity.
    rewrite Z.add_assoc. reflexivity.
Qed.

Lemma extract_eq (file : list (list jsstring)) :
  extractTextFromPDF file
  = (concat (map (fun items => joinSpace items ++ [10%N; 10%N]) file),
     map (fun items => {| textItems := items; p_text := joinSpace items |}) file).
Proof.
  unfold extractTextFromPDF.
  assert (forall fullText pages,
    fold_left
      (fun '(fullText, pages) items =>
         let pageText := joinSpace items in
         (fullText ++ pageText ++ [10%N; 10%N],
          pages ++ [{| textItems := items; p_text := pageText |}]))
      file (fullText, pages)
    = (fullText ++ concat (map (fun items => joinSpace items ++ [10%N; 10%N]) file),
       pages ++ map (fun items => {| textItems := items; p_text := joinSpace items |}) file))
    as Hgen.
  { induction file as [| items rest IH]; intros fullText pages; cbn.
    - rewrite !app_nil_r. reflexivity.
    - rewrite IH. rewrite <- !app_assoc. reflexivity. }
  apply (Hgen [] []).
Qed.

Lemma spansWithin_weaken lo hi lo' hi' l :
  lo' <= lo -> hi <= hi' -> spansWithin lo hi l -> spansWithin lo' hi' l.
Proof.
  intros Hlo Hhi H i a Ha. destruct (H i a Ha). lia.
Qed.

Lemma spansWithin_app lo hi l1 l2 :
  spansWithin lo hi l1 -> spansWithin lo hi l2 -> spansWithin lo hi (l1 ++ l2).
Proof.
  intros H1 H2 i a Ha. apply lookup_app_Some in Ha as [Ha | [_ Ha]];
    [apply (H1 i a Ha) | apply (H2 _ a Ha)].
Qed.

Lemma spansSorted_nil : spansSorted [].
Proof.
  split; [intros i a Ha | intros i j a b _ Ha]; rewrite lookup_nil in Ha; discriminate.
Qed.

Lemma spansSorted_app lo mid hi l1 l2 :
  spansSorted l1 -> spansSorted l2 ->
  spansWithin lo mid l1 -> spansWithin mid hi l2 ->
  spansSorted (l1 ++ l2).
Proof.
  intros [Hw1 Ho1] [Hw2 Ho2] Hin1 Hin2. split.
  - intros i a Ha. apply lookup_app_Some in Ha as [Ha | [_ Ha]];
      [apply (Hw1 i a Ha) | apply (Hw2 _ a Ha)].
  - intros i j a b Hij Ha Hb.
    apply lookup_app_Some in Ha as [Ha | [Hi Ha]];
      apply lookup_app_Some in Hb as [Hb | [Hj Hb]].
    + apply (Ho1 i j a b Hij Ha Hb).
    + destruct (Hin1 i a Ha). destruct (Hin2 _ b Hb). lia.
    + apply lookup_lt_Some in Hb. lia.
    + apply (Ho2 (i - length l1)%nat (j - length l1)%nat a b); [lia | exact Ha | exact Hb].
Qed.

Lemma spansSorted_one a : sp_start a <= sp_end a -> spansSorted [a].
Proof.
  intros Ha. split.
  - intros [| i] b Hb; cbn in Hb; [congruence | discriminate].
  - intros [| i] [| [| j]] x y Hij Hx Hy; cbn in Hx, Hy; try discriminate; lia.
Qed.

Lemma spansWithin_one lo hi a :
  lo <= sp_start a -> sp_end a <= hi -> spansWithin lo hi [a].
Proof.
  intros H1 H2 [| i] b Hb; cbn in Hb; [injection Hb as <-; lia | discriminate].
Qed.

(** The spans of the items of one page. *)
Lemma itemSpans_spec (T : jsstring) (pn pb : Z) (items : list jsstring) :
  forall acc id pre post,
    T = pre ++ joinSpace items ++ post ->
    len pre = pb + acc ->
    Forall (spanShows T) (itemSpans pn pb acc id items)
    /\ spansSorted (itemSpans pn pb acc id items)
    /\ spansWithin (pb + acc) (pb + acc + len (joinSpace items))
         (itemSpans pn pb acc id items)
    /\ forall k sp,
         itemSpans pn pb acc id items !! k = Some sp ->
         el_id (sp_el sp) = (id + k)%nat
         /\ data_page (sp_el sp) = pn
         /\ pb + data_offset (sp_el sp) = sp_start sp
         /\ acc <= data_offset (sp_el sp).
Proof.
  induction items as [| itm rest IH]; intros acc id pre post HT Hpre.
  - cbn [itemSpans]. split; [constructor |]. split; [apply spansSorted_nil |].
    split; intros k sp Hk; rewrite lookup_nil in Hk; discriminate.
  - cbn [itemSpans]. rewrite joinSpace_cons in *.
    set (tc := itm ++ match rest with [] => [] | _ :: _ => [32%N] end) in *.
    pose proof (len_nonneg tc) as Htc. pose proof (len_nonneg (joinSpace rest)) as Hjr.
    rewrite len_app.
    destruct (IH (acc + len tc) (S id) (pre ++ tc) post) as (Hs & Hso & Hw & Hid).
    { rewrite HT, <- !app_assoc. reflexivity. }
    { rewrite len_app. lia. }
    set (a := {| sp_start := pb + acc; sp_end := pb + acc + len tc;
                 sp_el := {| el_id := id; textContent := tc;
                             data_page := pn; data_offset := acc |} |}).
    split; [| split; [| split]].
    + constructor; [| exact Hs]. split; [| reflexivity]. cbn.
      rewrite HT, <- Hpre, <- !app_assoc. apply slice_middle.
    + change (a :: ?l) with ([a] ++ l).
      eapply (spansSorted_app (pb + acc) (pb + acc + len tc)).
      * apply spansSorted_one. cbn. lia.
      * exact Hso.
      * apply spansWithin_one; cbn; lia.
      * eapply spansWithin_weaken; [| | exact Hw]; [lia | reflexivity].
    + change (a :: ?l) with ([a] ++ l). apply spansWithin_app.
      * apply spansWithin_one; cbn; lia.
      * eapply spansWithin_weaken; [| | exact Hw]; lia.
    + intros [| k] sp Hk; cbn in Hk.
      * injection Hk as <-. cbn. repeat split; lia.
      * destruct (Hid k sp Hk) as (H1 & H2 & H3 & H4).
        repeat split; try assumption; lia.
Qed.

Lemma charTotal_app meta1 meta2 page total :
  charTotal (meta1 ++ meta2) page total
  = charTotal meta2 page (charTotal meta1 page total).
Proof. unfold charTotal. apply fold_left_app. Qed.

(** Pages numbered [page] or more add nothing to the total. *)
Lemma charTotal_later pages :
  forall i page total,
    page <= i + 1 -> charTotal (metaOf i pages) page total = total.
Proof.
  induction pages as [| p rest IH]; intros i page total Hle; cbn; [reflexivity |].
  destruct (Z.ltb_spec (i + 1) page) as [Hlt | _]; [lia |].
  apply IH. lia.
Qed.

(** Pages numbered below [page] add their text and the two newlines. *)
Lemma charTotal_earlier pages :
  forall i page total,
    i + Z.of_nat (length pages) < page ->
    charTotal (metaOf i pages) page total = total + len (pagesText pages).
Proof.
  induction pages as [| p rest IH]; intros i page total Hlt.
  - cbn. unfold pagesText, len. cbn. lia.
  - cbn [metaOf charTotal fold_left pageNum pm_text].
    cbn [length] in Hlt.
    destruct (Z.ltb_spec (i + 1) page) as [_ | Hge]; [| lia].
    fold (charTotal (metaOf (i + 1) rest) page (total + (len (p_text p) + 2))).
    rewrite IH by lia.
    unfold pagesText. cbn [map concat]. rewrite !len_app.
    change (len [10%N; 10%N]) with 2. fold (pagesText rest). lia.
Qed.

Lemma metaOf_app (l1 l2 : list PdfPage) :
  forall z, metaOf z (l1 ++ l2) = metaOf z l1 ++ metaOf (z + Z.of_nat (length l1)) l2.
Proof.
  induction l1 as [| b bs IH]; intros z; cbn [metaOf app length].
  - rewrite Z.add_0_r. reflexivity.
  - rewrite IH.
    replace (z + Z.of_nat (S (length bs))) with (z + 1 + Z.of_nat (length bs)) by lia.
    reflexivity.
Qed.

(** The spans of the pages [pages], which follow the pages [before] in
    the document. *)
Lemma pageSpans_spec (T : jsstring) (pages : list PdfPage) :
  Forall (fun p => p_text p = joinSpace (textItems p)) pages ->
  forall (before : list PdfPage) i id post,
    i = Z.of_nat (length before) ->
    T = pagesText before ++ pagesText pages ++ post ->
    let spans := pageSpans i (len (pagesText before)) id pages in
    Forall (spanShows T) spans
    /\ spansSorted spans
    /\ spansWithin (len (pagesText before))
         (len (pagesText before) + len (pagesText pages) - 2) spans
    /\ forall k sp,
         spans !! k = Some sp ->
         el_id (sp_el sp) = (id + k)%nat
         /\ pdfCharIndex (metaOf 0 (before ++ pages))
              (data_page (sp_el sp)) (data_offset (sp_el sp))
            = sp_start sp.
Proof.
  intros Hwf. induction Hwf as [| p rest Hp Hrest IH];
    intros before i id post Hi HT; cbn zeta.
  - cbn [pageSpans]. split; [constructor |]. split; [apply spansSorted_nil |].
    split; intros k sp Hk; rewrite lookup_nil in Hk; discriminate.
  - cbn [pageSpans].
    assert (pagesText (p :: rest) = (p_text p ++ [10%N; 10%N]) ++ pagesText rest)
      as Hcons by reflexivity.
    assert (pagesText (before ++ [p]) = pagesText before ++ p_text p ++ [10%N; 10%N])
      as Hsnoc.
    { unfold pagesText. rewrite map_app, concat_app. cbn. rewrite app_nil_r. reflexivity. }
    pose proof (len_nonneg (p_text p)) as Hlp.
    pose proof (len_nonneg (pagesText rest)) as Hlr.
    pose proof (len_nonneg (pagesText before)) as Hlb.
    destruct (itemSpans_spec T (i + 1) (len (pagesText before)) (textItems p)
                0 id (pagesText before) ([10%N; 10%N] ++ pagesText rest ++ post))
      as (Hs1 & Hso1 & Hw1 & Hid1).
    { rewrite HT, Hcons, <- Hp, <- !app_assoc. reflexivity. }
    { lia. }
    rewrite <- Hp, Z.add_0_r in Hw1.
    destruct (IH (before ++ [p]) (i + 1) (id + length (textItems p))%nat post)
      as (Hs2 & Hso2 & Hw2 & Hid2).
    { rewrite length_app. cbn. lia. }
    { rewrite HT, Hsnoc, Hcons, <- !app_assoc. reflexivity. }
    rewrite Hsnoc, !len_app in Hs2, Hso2, Hw2, Hid2.
    change (len [10%N; 10%N]) with 2 in *.
    rewrite Z.add_assoc in Hs2, Hso2, Hw2, Hid2.
    rewrite Hcons, !len_app. change (len [10%N; 10%N]) with 2.
    split; [apply Forall_app; split; assumption |].
    split.
    { eapply spansSorted_app; [exact Hso1 | exact Hso2 | exact Hw1 |].
      eapply spansWithin_weaken; [| | exact Hw2]; [lia | reflexivity]. }
    split.
    { apply spansWithin_app.
      - eapply spansWithin_weaken; [| | exact Hw1]; lia.
      - eapply spansWithin_weaken; [| | exact Hw2]; lia. }
    intros k sp Hk. apply lookup_app_Some in Hk as [Hk | [Hge Hk]].
    + destruct (Hid1 k sp Hk) as (E1 & E2 & E3 & E4). split; [exact E1 |].
      unfold pdfCharIndex. fold (charTotal (metaOf 0 (before ++ p :: rest))
                                   (data_page (sp_el sp)) 0).
      rewrite E2.
      assert (metaOf 0 (before ++ p :: rest)
              = metaOf 0 before ++ metaOf (0 + Z.of_nat (length before)) (p :: rest))
        as ->.
      { apply metaOf_app. }
      rewrite charTotal_app, (charTotal_earlier before) by lia.
      rewrite (charTotal_later (p :: rest)) by lia.
      unfold orElseZ. destruct (Z.eqb_spec (data_offset (sp_el sp)) 0); lia.
    + rewrite itemSpans_length in Hge, Hk.
      destruct (Hid2 _ sp Hk) as (E1 & E2). split; [lia |].
      rewrite <- app_assoc in E2. exact E2.
Qed.

(** ** The binary search of [findPDFSpanAt] *)

Lemma shiftRight1_half x :
  0 <= x < 2 ^ 31 -> shiftRight1 x = x / 2.
Proof.
  intros Hx. unfold shiftRight1, toInt32.
  rewrite Z.shiftr_div_pow2 by lia.
  replace ((x + 2 ^ 31) mod 2 ^ 32) with (x + 2 ^ 31)
    by (symmetry; apply Z.mod_small; lia).
  replace (x + 2 ^ 31 - 2 ^ 31) with x by lia. reflexivity.
Qed.

(** The loop returns; what it returns is a span that holds [idx], or null
    when no span does. *)
Lemma findLoop_spec (spans : list PdfSpan) (idx : Z) :
  spansSorted spans ->
  len spans < 2 ^ 30 ->
  forall fuel lo hi,
    0 <= lo -> hi < len spans ->
    hi - lo + 1 <= Z.of_nat fuel ->
    (forall i a, (Z.of_nat i < lo) -> spans !! i = Some a -> sp_end a <= idx) ->
    (forall i a, (hi < Z.of_nat i) -> spans !! i = Some a -> idx < sp_start a) ->
    exists r,
      findLoop fuel spans idx lo hi = Some r
      /\ match r with
         | Some sp => (exists k, spans !! k = Some sp) /\ inSpan idx sp
         | None => forall k a, spans !! k = Some a -> ~ inSpan idx a
         end.
Proof.
  intros [Hwf Hord] Hsize.
  induction fuel as [| fuel IH]; intros lo hi Hlo Hhi Hfuel Hleft Hright.
  - cbn [findLoop]. destruct (Z.leb_spec lo hi) as [Hle | Hgt]; [lia |].
    exists None. split; [reflexivity |].
    intros k a Ha [H1 H2].
    destruct (Z.lt_ge_cases (Z.of_nat k) lo) as [Hk | Hk].
    + pose proof (Hleft k a Hk Ha). lia.
    + pose proof (Hright k a ltac:(lia) Ha). lia.
  - cbn [findLoop]. destruct (Z.leb_spec lo hi) as [Hle | Hgt].
    + rewrite shiftRight1_half by lia.
      set (mid := (lo + hi) / 2).
      assert (lo <= mid <= hi) as Hmid.
      { subst mid. split.
        - apply Z.div_le_lower_bound; lia.
        - apply Z.div_le_upper_bound; lia. }
      destruct (Z.ltb_spec mid 0) as [Hneg | _]; [lia |].
      destruct (lookup_lt_is_Some_2 spans (Z.to_nat mid)) as [s Hs];
        [unfold len in *; lia |].
      rewrite Hs.
      destruct (Z.ltb_spec idx (sp_start s)) as [Hlt | Hge].
      * apply IH; [lia | lia | lia | exact Hleft |].
        intros i a Hi Ha.
        destruct (Z.eq_dec (Z.of_nat i) mid) as [E | Hne].
        -- assert (i = Z.to_nat mid) as -> by lia. congruence.
        -- pose proof (Hord (Z.to_nat mid) i s a ltac:(lia) Hs Ha).
           pose proof (Hwf _ _ Hs). lia.
      * destruct (Z.geb_spec idx (sp_end s)) as [Hge2 | Hlt2].
        -- apply IH; [lia | lia | lia | | exact Hright].
           intros i a Hi Ha.
           destruct (Z.eq_dec (Z.of_nat i) mid) as [E | Hne].
           ++ assert (i = Z.to_nat mid) as -> by lia.
              assert (a = s) as -> by congruence. lia.
           ++ pose proof (Hord i (Z.to_nat mid) a s ltac:(lia) Ha Hs).
              pose proof (Hwf _ _ Hs). lia.
        -- exists (Some s). split; [reflexivity |].
           split; [eexists; exact Hs | split; lia].
    + exists None. split; [reflexivity |].
      intros k a Ha [H1 H2].
      destruct (Z.lt_ge_cases (Z.of_nat k) lo) as [Hk | Hk].
      * pose proof (Hleft k a Hk Ha). lia.
      * pose proof (Hright k a ltac:(lia) Ha). lia.
Qed.

Lemma findPDFSpanAt_spec (spans : list PdfSpan) (idx : Z) :
  spansSorted spans ->
  len spans < 2 ^ 30 ->
  exists r,
    findPDFSpanAt spans idx = Some r
    /\ match r with
       | Some sp => (exists k, spans !! k = Some sp) /\ inSpan idx sp
       | None => forall k a, spans !! k = Some a -> ~ inSpan idx a
       end.
Proof.
  intros Hsorted Hsize. unfold findPDFSpanAt.
  apply findLoop_spec; try assumption; try lia.
  - unfold len. lia.
  - intros i a Hi Ha. apply lookup_lt_Some in Ha. unfold len in Hi. lia.
Qed.

(** In sorted spans, at most one span holds an offset. *)
Lemma inSpan_unique (spans : list PdfSpan) (idx : Z) i j a b :
  spansSorted spans ->
  spans !! i = Some a -> spans !! j = Some b ->
  inSpan idx a -> inSpan idx b -> i = j.
Proof.
  intros [Hwf Hord] Ha Hb [A1 A2] [B1 B2].
  destruct (Nat.lt_trichotomy i j) as [Hlt | [E | Hgt]]; [| exact E |].
  - pose proof (Hord i j a b Hlt Ha Hb). lia.
  - pose proof (Hord j i b a Hgt Hb Ha). lia.
Qed.

(** X12. [findPDFSpanAt], on spans that are sorted and do not overlap (fewer
    than 2^30 of them), always returns: it returns the span that holds
    the offset when there is one, and null when there is none. *)
Theorem findPDFSpanAt_finds_the_span (spans : list PdfSpan) (idx : Z) :
  spansSorted spans ->
  len spans < 2 ^ 30 ->
  (forall k sp, spans !! k = Some sp -> inSpan idx sp ->
     findPDFSpanAt spans idx = Some (Some sp))
  /\ ((forall k sp, spans !! k = Some sp -> ~ inSpan idx sp) ->
      findPDFSpanAt spans idx = Some None)
  /\ (forall sp, findPDFSpanAt spans idx = Some (Some sp) ->
      In sp spans /\ inSpan idx sp).
Proof.
  intros Hsorted Hsize.
  destruct (findPDFSpanAt_spec spans idx Hsorted Hsize) as (r & Hr & Hspec).
  split; [| split].
  - intros k sp Hk Hin. rewrite Hr. destruct r as [found |].
    + destruct Hspec as [[k' Hk'] Hin'].
      pose proof (inSpan_unique spans idx k k' sp found Hsorted Hk Hk' Hin Hin') as ->.
      congruence.
    + exfalso. apply (Hspec k sp Hk Hin).
  - intros Hnone. rewrite Hr. destruct r as [found |]; [| reflexivity].
    destruct Hspec as [[k' Hk'] Hin']. exfalso. apply (Hnone k' found Hk' Hin').
  - intros sp Hsp. rewrite Hr in Hsp. injection Hsp as ->.
    destruct Hspec as [[k Hk] Hin]. split; [| exact Hin].
    apply list_elem_of_In. eapply list_elem_of_lookup_2. exact Hk.
Qed.

Lemma findPDFSpanAt_finds_the_span_witness :
  let spans := pageSpans 0 0 0 (pagesOf [[[72; 105]%N; [121; 111; 117]%N]; [[66; 121; 101]%N]]) in
  (sp_start <$> spans) = [0; 3; 8]
  /\ (sp_end <$> spans) = [3; 6; 11]
  /\ findPDFSpanAt spans 4 = Some (spans !! 1%nat)
  /\ findPDFSpanAt spans 7 = Some None.
Proof.
  intros spans.
  assert (spansSorted spans) as Hsorted.
  { split.
    - intros [| [| [| i]]] a Ha; vm_compute in Ha; try discriminate;
        injection Ha as <-; vm_compute; discriminate.
    - intros [| [| [| i]]] [| [| [| j]]] a b Hij Ha Hb;
        vm_compute in Ha, Hb; try discriminate; try lia;
        injection Ha as <-; injection Hb as <-; vm_compute; discriminate. }
  destruct (findPDFSpanAt_finds_the_span spans 4 Hsorted) as (Hfound & _).
  { vm_compute. reflexivity. }
  destruct (findPDFSpanAt_finds_the_span spans 7 Hsorted) as (_ & Hnone & _).
  { vm_compute. reflexivity. }
  split; [vm_compute; reflexivity |]. split; [vm_compute; reflexivity |].
  split.
  - rewrite (Hfound 1%nat
               {| sp_start := 3; sp_end := 6;
                  sp_el := {| el_id := 1; textContent := [121; 111; 117]%N;
                              data_page := 1; data_offset := 3 |} |}).
    + reflexivity.
    + vm_compute. reflexivity.
    + split; vm_compute; [discriminate | reflexivity].
  - apply Hnone.
    intros [| [| [| k]]] sp Hk; vm_compute in Hk; try discriminate;
      injection Hk as <-; intros [H1 H2]; vm_compute in H1, H2;
      try (apply H1; reflexivity); try discriminate.
Defined.

(** ** Rendering a PDF *)

Lemma pagesOf_wf (file : list (list jsstring)) :
  Forall (fun p => p_text p = joinSpace (textItems p)) (pagesOf file).
Proof.
  unfold pagesOf. induction file; cbn; constructor; [reflexivity | assumption].
Qed.

Lemma pageSpans_length (file : list (list jsstring)) :
  forall i pb id,
    length (pageSpans i pb id (pagesOf file)) = length (concat file).
Proof.
  induction file as [| items rest IH]; intros i pb id; cbn; [reflexivity |].
  rewrite !length_app, itemSpans_length, IH. reflexivity.
Qed.

Lemma renderPDF_eq (file : list (list jsstring)) (v : PdfView) (s : State) :
  renderPDF file v s
  = ({| isPDFMode := true;
        pdfSpans := pageSpans 0 0 (elementsCreated v) (pagesOf file);
        pdfPagesMeta := metaOf 0 (pagesOf file);
        currentPDFSpanEl := currentPDFSpanEl v;
        elementsCreated := elementsCreated v + length (concat file) |},
     buildChunks (set_currentIndex 0 (set_currentText (pagesText (pagesOf file)) s))).
Proof.
  unfold renderPDF. rewrite extract_eq. cbn [snd].
  fold (pagesOf file). rewrite pageLoop_eq. cbn [app length].
  rewrite Nat.add_0_r, pageSpans_length. reflexivity.
Qed.

(** The spans and the text of a rendered file. *)
Lemma rendered_spans_spec (file : list (list jsstring)) (created : nat) :
  let T := pagesText (pagesOf file) in
  let spans := pageSpans 0 0 created (pagesOf file) in
  Forall (spanShows T) spans
  /\ spansSorted spans
  /\ spansWithin 0 (len T - 2) spans
  /\ forall k sp,
       spans !! k = Some sp ->
       el_id (sp_el sp) = (created + k)%nat
       /\ pdfCharIndex (metaOf 0 (pagesOf file))
            (data_page (sp_el sp)) (data_offset (sp_el sp))
          = sp_start sp.
Proof.
  cbn zeta.
  destruct (pageSpans_spec (pagesText (pagesOf file)) (pagesOf file)
              (pagesOf_wf file) [] 0 created [])
    as (Hs & Hso & Hw & Hid).
  - reflexivity.
  - cbn. rewrite app_nil_r. reflexivity.
  - cbn zeta in *. change (len (pagesText [])) with 0 in *.
    split; [exact Hs |]. split; [exact Hso |]. split; [exact Hw |].
    intros k sp Hk. destruct (Hid k sp Hk) as [E1 E2]. split; [exact E1 | exact E2].
Qed.

(** X13. Rendering a PDF sets the document text to the page texts, each
    followed by two newlines, which is the full text
    [extractTextFromPDF] returns; the chunks are rebuilt from it; and
    every span of the text layer covers, in the document text, exactly
    the characters its element shows: the text from [start] to [end] is
    the element's [textContent].  There is one span for every text
    item. *)
Theorem pdf_spans_show_the_text (file : list (list jsstring)) (v : PdfView)
    (s : State) :
  let v' := fst (renderPDF file v s) in
  let s' := snd (renderPDF file v s) in
  currentText s' = fst (extractTextFromPDF file)
  /\ s' = renderPDFToViewer (joinSpace <$> file) s
  /\ currentChunks s' = chunksOf (currentText s')
  /\ isPDFMode v' = true
  /\ length (pdfSpans v') = length (concat file)
  /\ Forall (fun sp =>
               slice (currentText s') (sp_start sp) (sp_end sp)
               = textContent (sp_el sp)
               /\ sp_end sp = sp_start sp + len (textContent (sp_el sp)))
       (pdfSpans v').
Proof.
  cbn zeta. rewrite renderPDF_eq, extract_eq. cbn [fst snd pdfSpans isPDFMode].
  assert (pagesText (pagesOf file)
          = concat (map (fun items => joinSpace items ++ [10%N; 10%N]) file)) as Htext.
  { unfold pagesText, pagesOf. rewrite map_map. reflexivity. }
  split; [exact Htext |].
  split.
  { unfold renderPDFToViewer. rewrite Htext.
    replace (map (fun p : jsstring => p ++ [10%N; 10%N]) (joinSpace <$> file))
      with (map (fun items => joinSpace items ++ [10%N; 10%N]) file)
      by (symmetry; apply map_map).
    reflexivity. }
  split; [reflexivity |]. split; [reflexivity |].
  split.
  { apply pageSpans_length. }
  apply (rendered_spans_spec file (elementsCreated v)).
Qed.

(** X14. The spans of a rendered PDF are in reading order and do not overlap,
    as the binary search of [findPDFSpanAt] needs; they lie inside the
    document text; and the element of the span at index [k] is the
    [k]-th element this render created, an element that no earlier
    render created. *)
Theorem pdf_spans_are_sorted (file : list (list jsstring)) (v : PdfView)
    (s : State) :
  let v' := fst (renderPDF file v s) in
  let s' := snd (renderPDF file v s) in
  spansSorted (pdfSpans v')
  /\ spansWithin 0 (len (currentText s') - 2) (pdfSpans v')
  /\ (fun sp => el_id (sp_el sp)) <$> pdfSpans v'
     = seq (elementsCreated v) (length (pdfSpans v'))
  /\ elementsCreated v' = (elementsCreated v + length (pdfSpans v'))%nat.
Proof.
  cbn zeta. rewrite renderPDF_eq. cbn [fst snd pdfSpans elementsCreated].
  destruct (rendered_spans_spec file (elementsCreated v)) as (_ & Hso & Hw & Hid).
  split; [exact Hso |]. split; [exact Hw |].
  split; [| rewrite pageSpans_length; reflexivity].
  apply list_eq. intros k. rewrite list_lookup_fmap.
  destruct (pageSpans 0 0 (elementsCreated v) (pagesOf file) !! k) as [sp |] eqn:Hk; cbn.
  - destruct (Hid k sp Hk) as [-> _].
    symmetry. apply lookup_seq. split; [reflexivity |].
    eapply lookup_lt_Some. exact Hk.
  - symmetry. apply lookup_seq_ge. apply lookup_ge_None. exact Hk.
Qed.

(** X15. A double click on a span of a rendered PDF jumps to the span: the
    character index computed from the span's [dataset] is the span's
    start, and playback starts there. *)
Theorem pdf_dblclick_jumps_to_span (file : list (list jsstring)) (v : PdfView)
    (s : State) (k : nat) (sp : PdfSpan) :
  pdfSpans (fst (renderPDF file v s)) !! k = Some sp ->
  let v' := fst (renderPDF file v s) in
  let s' := snd (renderPDF file v s) in
  let s2 := pdfSpanDblClick v' (sp_el sp) s' in
  pdfCharIndex (pdfPagesMeta v') (data_page (sp_el sp)) (data_offset (sp_el sp))
  = sp_start sp
  /\ 0 <= sp_start sp < len (currentText s')
  /\ isPlaying s2 = true
  /\ currentIndex s2 = sp_start sp / internalChunkSize
  /\ lastBoundaryGlobalStart s2 = sp_start sp
  /\ exists u,
       heap s2 !! length (heap s) = Some u
       /\ u_base u = sp_start sp.
Proof.
  rewrite renderPDF_eq. cbn [fst snd pdfSpans pdfPagesMeta]. intros Hk. cbn zeta.
  destruct (rendered_spans_spec file (elementsCreated v)) as (_ & [Hwf _] & Hw & Hid).
  destruct (Hid k sp Hk) as [_ Hidx].
  destruct (Hw k sp Hk) as [Hlo Hhi]. pose proof (Hwf k sp Hk) as Hse.
  set (s' := buildChunks (set_currentIndex 0
               (set_currentText (pagesText (pagesOf file)) s))).
  assert (currentText s' = pagesText (pagesOf file)) as Ht by reflexivity.
  assert (0 <= sp_start sp < len (currentText s')) as Hin by (rewrite Ht; lia).
  split; [exact Hidx |]. split; [exact Hin |].
  unfold pdfSpanDblClick. cbn [pdfPagesMeta]. rewrite Hidx.
  destruct (jumpToCharIndex_inside s' (sp_start sp) (eq_refl : chunksInSync s') Hin)
    as (chunk & _ & _ & ->).
  match goal with |- context [speakChunk ?t ?c ?b ?st] =>
    destruct (speakChunk_frame t c b st) as (_ & _ & Hi & Hp & _);
    pose proof (speakChunk_lookup t c b st) as Hh;
    pose proof (speakChunk_lastBoundary t c b st) as Hb
  end.
  split; [exact Hp |]. split; [exact Hi |]. split; [exact Hb |].
  eexists. split; [exact Hh | reflexivity].
Qed.

Lemma pdf_dblclick_jumps_to_span_witness :
  let file := [[[72; 105]%N; [121; 111; 117]%N]; [[66; 121; 101]%N]] in
  let v := {| isPDFMode := false; pdfSpans := []; pdfPagesMeta := [];
              currentPDFSpanEl := None; elementsCreated := 0 |} in
  let s := initial (JNum 1) "" in
  let v' := fst (renderPDF file v s) in
  let s' := snd (renderPDF file v s) in
  currentText s' = [72; 105; 32; 121; 111; 117; 10; 10; 66; 121; 101; 10; 10]%N
  /\ exists sp,
       pdfSpans v' !! 2%nat = Some sp
       /\ textContent (sp_el sp) = [66; 121; 101]%N
       /\ lastBoundaryGlobalStart (pdfSpanDblClick v' (sp_el sp) s') = sp_start sp
       /\ sp_start sp = 8.
Proof.
  intros file v s v' s'.
  split; [vm_compute; reflexivity |].
  exists {| sp_start := 8; sp_end := 11;
            sp_el := {| el_id := 2; textContent := [66; 121; 101]%N;
                        data_page := 2; data_offset := 0 |} |}.
  destruct (pdf_dblclick_jumps_to_span file v s 2
              {| sp_start := 8; sp_end := 11;
                 sp_el := {| el_id := 2; textContent := [66; 121; 101]%N;
                             data_page := 2; data_offset := 0 |} |})
    as (_ & _ & _ & _ & Hb & _).
  - vm_compute. reflexivity.
  - split; [vm_compute; reflexivity |]. split; [reflexivity |].
    split; [exact Hb | reflexivity].
Defined.

(** X16. The highlight of a rendered PDF follows the spoken offset: a
    boundary at a global offset that falls in a span makes that span's
    element the highlighted one, whichever element was highlighted
    before the render, and a boundary at an offset that falls in no span
    (the newlines between pages) leaves the view as it is. *)
Theorem pdf_highlight_follows_offset (file : list (list jsstring)) (v : PdfView)
    (s : State) (g : Z) :
  len (concat file) < 2 ^ 30 ->
  let v' := fst (renderPDF file v s) in
  (forall k sp,
     pdfSpans v' !! k = Some sp -> inSpan g sp ->
     currentPDFSpanEl (highlightAt g v') = Some (el_id (sp_el sp))
     /\ el_id (sp_el sp) = (elementsCreated v + k)%nat)
  /\ ((forall k sp, pdfSpans v' !! k = Some sp -> ~ inSpan g sp) ->
      highlightAt g v' = v').
Proof.
  intros Hsize. cbn zeta. rewrite renderPDF_eq. cbn [fst].
  destruct (rendered_spans_spec file (elementsCreated v)) as (_ & Hso & _ & Hid).
  set (spans := pageSpans 0 0 (elementsCreated v) (pagesOf file)) in *.
  assert (len spans < 2 ^ 30) as Hsz.
  { replace (len spans) with (len (concat file)); [exact Hsize |].
    unfold len. f_equal. subst spans. symmetry. apply pageSpans_length. }
  destruct (findPDFSpanAt_spec spans g Hso Hsz) as (r & Hr & Hspec).
  unfold highlightAt. cbn [isPDFMode pdfSpans currentPDFSpanEl pdfPagesMeta andb].
  split.
  - intros k sp Hk Hin.
    destruct (Z.eqb_spec (len spans) 0) as [E | _].
    { apply lookup_lt_Some in Hk. unfold len in E. lia. }
    cbn [negb]. rewrite Hr. destruct r as [hit |]; [| exfalso; eapply Hspec; eauto].
    destruct Hspec as [[k' Hk'] Hin'].
    pose proof (inSpan_unique spans g k k' sp hit Hso Hk Hk' Hin Hin') as <-.
    assert (hit = sp) as -> by congruence.
    split; [| exact (proj1 (Hid k sp Hk))].
    destruct (currentPDFSpanEl v) as [cur |]; cbn; [| reflexivity].
    destruct (Nat.eqb_spec (el_id (sp_el sp)) cur) as [-> | _]; reflexivity.
  - intros Hnone.
    destruct (negb (len spans =? 0)); [| reflexivity].
    rewrite Hr. destruct r as [hit |]; [| reflexivity].
    destruct Hspec as [[k' Hk'] Hin']. exfalso. apply (Hnone k' hit Hk' Hin').
Qed.

Lemma pdf_highlight_follows_offset_witness :
  let file := [[[72; 105]%N; [121; 111; 117]%N]; [[66; 121; 101]%N]] in
  let v := {| isPDFMode := false; pdfSpans := []; pdfPagesMeta := [];
              currentPDFSpanEl := None; elementsCreated := 0 |} in
  let v' := fst (renderPDF file v (initial (JNum 1) "")) in
  let again := fst (renderPDF file (highlightAt 4 v') (initial (JNum 1) "")) in
  currentPDFSpanEl (highlightAt 4 v') = Some 1%nat
  /\ highlightAt 7 (highlightAt 4 v') = highlightAt 4 v'
  /\ currentPDFSpanEl again = Some 1%nat
  /\ currentPDFSpanEl (highlightAt 4 again) = Some 4%nat.
Proof.
  intros file v v' again.
  destruct (pdf_highlight_follows_offset file v (initial (JNum 1) "") 4)
    as [Hhit _].
  { vm_compute. reflexivity. }
  destruct (pdf_highlight_follows_offset file (highlightAt 4 v')
              (initial (JNum 1) "") 4) as [Hhit' _].
  { vm_compute. reflexivity. }
  split.
  - apply (Hhit 1%nat
             {| sp_start := 3; sp_end := 6;
                sp_el := {| el_id := 1; textContent := [121; 111; 117]%N;
                            data_page := 1; data_offset := 3 |} |}).
    + vm_compute. reflexivity.
    + split; vm_compute; [discriminate | reflexivity].
  - split; [vm_compute; reflexivity |]. split; [vm_compute; reflexivity |].
    apply (Hhit' 1%nat
             {| sp_start := 3; sp_end := 6;
                sp_el := {| el_id := 4; textContent := [121; 111; 117]%N;
                            data_page := 1; data_offset := 3 |} |}).
    + vm_compute. reflexivity.
    + split; vm_compute; [discriminate | reflexivity].
Defined.

(** X17. On sorted spans the highlight never moves backward: for two offsets
    in increasing order that both fall in spans, the span found for the
    later offset is not before the span found for the earlier one. *)
Theorem highlight_never_moves_backward (spans : list PdfSpan) (g1 g2 : Z)
    (a b : PdfSpan) :
  spansSorted spans ->
  len spans < 2 ^ 30 ->
  g1 <= g2 ->
  findPDFSpanAt spans g1 = Some (Some a) ->
  findPDFSpanAt spans g2 = Some (Some b) ->
  sp_start a <= sp_start b
  /\ exists i j, spans !! i = Some a /\ spans !! j = Some b /\ (i <= j)%nat.
Proof.
  intros Hsorted Hsize Hle Ha Hb.
  destruct (findPDFSpanAt_spec spans g1 Hsorted Hsize) as (r1 & Hr1 & H1).
  destruct (findPDFSpanAt_spec spans g2 Hsorted Hsize) as (r2 & Hr2 & H2).
  rewrite Hr1 in Ha. injection Ha as ->. rewrite Hr2 in Hb. injection Hb as ->.
  destruct H1 as [[i Hi] [A1 A2]]. destruct H2 as [[j Hj] [B1 B2]].
  destruct Hsorted as [Hwf Hord].
  destruct (Nat.le_gt_cases i j) as [Hij | Hji].
  - split; [| exists i, j; repeat split; assumption].
    destruct (Nat.eq_dec i j) as [-> | Hne]; [assert (a = b) as -> by congruence; lia |].
    pose proof (Hord i j a b ltac:(lia) Hi Hj). pose proof (Hwf i a Hi). lia.
  - exfalso. pose proof (Hord j i b a Hji Hj Hi). lia.
Qed.

Lemma highlight_never_moves_backward_witness :
  let spans := pageSpans 0 0 0 (pagesOf [[[72; 105]%N; [121; 111; 117]%N]; [[66; 121; 101]%N]]) in
  exists a b,
    findPDFSpanAt spans 1 = Some (Some a)
    /\ findPDFSpanAt spans 9 = Some (Some b)
    /\ (sp_start a, sp_start b) = (0, 8)
    /\ sp_start a <= sp_start b.
Proof.
  intros spans.
  assert (spansSorted spans) as Hsorted.
  { apply (rendered_spans_spec [[[72; 105]%N; [121; 111; 117]%N]; [[66; 121; 101]%N]] 0). }
  eexists. eexists.
  split; [vm_compute; reflexivity |]. split; [vm_compute; reflexivity |].
  split; [reflexivity |].
  refine (proj1 (highlight_never_moves_backward spans 1 9 _ _ Hsorted _ _ _ _)).
  - vm_compute. reflexivity.
  - vm_compute. discriminate.
  - vm_compute. reflexivity.
  - vm_compute. reflexivity.
Defined.

(** ** Loading several files *)

Lemma loadFile_spec (f : PickedFile) (v : PdfView) (s : State) :
  let s' := snd (loadFile f (v, s)) in
  currentText s' = default (currentText s) (loadedText f)
  /\ (chunksInSync s -> chunksInSync s')
  /\ (is_Some (loadedText f) -> currentIndex s' = 0)
  /\ isPlaying s' = isPlaying s
  /\ queue s' = queue s
  /\ heap s' = heap s
  /\ lastBoundaryGlobalStart s' = lastBoundaryGlobalStart s
  /\ alerts s' = (alerts s + if unreadable f then 1 else 0)%nat.
Proof.
  destruct f as [[pages |] | [txt |]]; cbn zeta; unfold loadFile.
  - rewrite renderPDF_eq. cbn [snd loadedText unreadable default from_option id].
    rewrite extract_eq. cbn [fst].
    assert (pagesText (pagesOf pages)
            = concat (map (fun items => joinSpace items ++ [10%N; 10%N]) pages)) as ->.
    { unfold pagesText, pagesOf. rewrite map_map. reflexivity. }
    unfold buildChunks. sfields.
    repeat split; try reflexivity. lia.
  - cbn. repeat split; try tauto; try lia. intros [x Hx]. discriminate.
  - cbn. repeat split; try reflexivity. lia.
  - cbn. repeat split; try tauto; try lia. intros [x Hx]. discriminate.
Qed.

(** X18. Picking several files loads them one after the other, so the last
    file that can be read is the document: the text is its text and the
    chunks are rebuilt from it, and when no file can be read the text is
    as before.  Every file that cannot be read raises one alert.
    Loading neither stops the playback nor touches the engine or the
    last boundary. *)
Theorem last_readable_file_is_the_document (files : list PickedFile)
    (v : PdfView) (s : State) :
  chunksInSync s ->
  let s' := snd (fileInputChange files (v, s)) in
  currentText s' = default (currentText s) (last (omap loadedText files))
  /\ currentChunks s' = chunksOf (currentText s')
  /\ (last (omap loadedText files) <> None -> currentIndex s' = 0)
  /\ alerts s' = (alerts s + length (filter (fun f => unreadable f = true) files))%nat
  /\ isPlaying s' = isPlaying s
  /\ queue s' = queue s
  /\ heap s' = heap s
  /\ lastBoundaryGlobalStart s' = lastBoundaryGlobalStart s.
Proof.
  revert v s. induction files as [| f rest IH] using rev_ind; intros v s Hsync.
  - cbn. repeat split; first [exact Hsync | reflexivity | congruence | lia].
  - cbn zeta. unfold fileInputChange in *. rewrite fold_left_app. cbn [fold_left].
    destruct (fold_left (fun vs f0 => loadFile f0 vs) rest (v, s)) as [v1 s1] eqn:E.
    specialize (IH v s Hsync). rewrite E in IH. cbn [snd] in IH.
    destruct IH as (Ht & Hc & Hi & Ha & Hp & Hq & Hh & Hb).
    destruct (loadFile_spec f v1 s1) as (Lt & Lc & Li & Lp & Lq & Lh & Lb & La).
    cbn zeta in *.
    rewrite omap_app, filter_app, length_app.
    assert (omap loadedText [f]
            = match loadedText f with Some y => [y] | None => [] end) as ->
      by reflexivity.
    assert (length (filter (fun f0 => unreadable f0 = true) [f])
            = if unreadable f then 1%nat else 0%nat) as ->.
    { cbn [filter list_filter]. destruct (unreadable f); cbn.
      - destruct (decide (true = true)); [reflexivity | congruence].
      - destruct (decide (false = true)); [discriminate | reflexivity]. }
    assert (chunksInSync (snd (loadFile f (v1, s1)))) as Hsync' by (apply Lc; exact Hc).
    unfold chunksInSync in Hsync'.
    unfold unreadable in *.
    destruct (loadedText f) as [t |] eqn:El;
      cbn [default from_option id] in *.
    + rewrite last_snoc. cbn [default from_option id].
      split; [exact Lt |]. split; [exact Hsync' |].
      split; [intros _; apply Li; eexists; reflexivity |].
      split; [lia |]. split; [congruence |]. split; [congruence |].
      split; congruence.
    + rewrite app_nil_r.
      split; [congruence |]. split; [exact Hsync' |].
      split.
      { intros Hl. specialize (Hi Hl).
        destruct f as [[pages |] | [txt |]]; try discriminate; cbn; exact Hi. }
      split; [lia |]. split; [congruence |]. split; [congruence |].
      split; congruence.
Qed.

Lemma last_readable_file_is_the_document_witness :
  let v := {| isPDFMode := false; pdfSpans := []; pdfPagesMeta := [];
              currentPDFSpanEl := None; elementsCreated := 0 |} in
  let files := [TextFile (Some [97; 98]%N); PdfFile (Some [[[72; 105]%N]]);
                TextFile None] in
  let s' := snd (fileInputChange files (v, initial (JNum 1) "")) in
  currentText s' = [72; 105; 10; 10]%N
  /\ currentChunks s' = [[72; 105; 10; 10]%N]
  /\ alerts s' = 1%nat.
Proof.
  intros v files s'.
  destruct (last_readable_file_is_the_document files v (initial (JNum 1) ""))
    as (Ht & Hc & _ & Ha & _).
  - reflexivity.
  - split; [exact Ht |]. split; [| exact Ha].
    vm_compute. reflexivity.
Defined.

(** ** Reading on after a jump *)

Lemma slice_app {A : Type} (t : list A) (a b c : Z) :
  0 <= a <= b -> b <= c -> b <= len t ->
  slice t a b ++ slice t b c = slice t a c.
Proof.
  intros Hab Hbc Hb.
  rewrite !slice_nonneg by lia.
  rewrite (Z.min_l b (len t)) by lia.
  replace (Z.to_nat (Z.min c (len t) - a))
    with (Z.to_nat (b - a) + Z.to_nat (Z.min c (len t) - b))%nat by lia.
  rewrite <- take_take_drop, drop_drop.
  replace (Z.to_nat a + Z.to_nat (b - a))%nat with (Z.to_nat b) by lia.
  reflexivity.
Qed.

Lemma slice_to_end {A : Type} (t : list A) (a c : Z) :
  0 <= a <= len t -> len t <= c -> slice t a c = drop (Z.to_nat a) t.
Proof.
  intros Ha Hc. rewrite slice_nonneg by lia. rewrite Z.min_r by lia.
  apply take_ge. rewrite length_drop. unfold len in *. lia.
Qed.

(** The end of the request for chunk [i], when another chunk follows,
    and the auto-advance timer after it: the next request is for the
    whole chunk [i + 1]. *)
Lemma advance_request (s0 s : State) (k i : nat) :
  chunksInSync s0 ->
  (S i < length (currentChunks s0))%nat ->
  readingAt s0 k i s ->
  let s' := run [EvEnd (length (heap s0) + k); EvTimer 0] s in
  readingAt s0 (S k) (S i) s'
  /\ u_text <$> heap s'
     = (u_text <$> heap s)
       ++ [slice (currentText s0) (Z.of_nat (S i) * internalChunkSize)
             (Z.of_nat (S i) * internalChunkSize + internalChunkSize)].
Proof.
  intros Hsync Hlt (Ht & Hc & Hi & Hp & Htm & Hu & Hq & Hh & Hcb). cbn zeta.
  cbn [run fold_left]. cbn [step].
  destruct (heap s !! (length (heap s0) + k)%nat) as [u |] eqn:Hlook; [| discriminate].
  cbn in Hcb. injection Hcb as Hcb. rewrite Hcb.
  cbn [onendHandler runCallback]. unfold autoAdvance, engineDone. sfields.
  rewrite Hi, Hc, Hp, Hq, Htm.
  destruct (Z.ltb_spec (Z.of_nat i + 1) (len (currentChunks s0))) as [_ | Hge];
    [| unfold len in Hge; lia].
  cbn [andb]. unfold addTimer. sfields.
  cbn [lookup list_lookup app t_offset delete list_delete].
  match goal with |- context [playFromCurrentChunk 0 ?st0] => set (st := st0) end.
  assert (chunksInSync st) as Hsync'
    by (unfold chunksInSync; subst st; sfields; rewrite ?Hc, ?Ht; exact Hsync).
  destruct (playFromCurrentChunk_in_sync st 0 Hsync') as (Ha & _ & ->).
  { subst st. sfields. rewrite ?Hc. unfold len. lia. }
  rewrite speakOffsetOf_inside
    by (pose proof (len_nonneg (currentText st)); unfold internalChunkSize in *; lia).
  rewrite Z.add_0_r.
  replace (currentIndex st) with (Z.of_nat (S i)) by (subst st; sfields; lia).
  replace (currentText st) with (currentText s0) by (subst st; sfields; congruence).
  match goal with |- context [speakChunk ?tx ?cb ?b ?s1] =>
    destruct (speakChunk_frame tx cb b s1) as (F1 & F2 & F3 & F4 & _ & F6 & _);
    pose proof (speakChunk_utterance tx cb b s1) as Hu';
    pose proof (speakChunk_lookup tx cb b s1) as Hl;
    pose proof (speakChunk_queue tx cb b s1) as Hqu;
    pose proof (speakChunk_heap tx cb b s1) as Hheap
  end.
  subst st. sfields. rewrite Hh in Hu', Hl, Hqu.
  replace (length (heap s0) + k + 1)%nat with (length (heap s0) + S k)%nat in * by lia.
  split.
  - unfold readingAt.
    split; [congruence |]. split; [congruence |].
    split; [rewrite F3; lia |]. split; [exact F4 |].
    split; [exact F6 |]. split; [exact Hu' |].
    split; [rewrite Hqu, Hu; reflexivity |].
    split; [rewrite Hheap, length_app, retiredHeap_length; cbn; sfields; lia |].
    rewrite Hl. reflexivity.
  - rewrite Hheap, fmap_snoc, retiredHeap_text. reflexivity.
Qed.

(** The end of the request for the last chunk. *)
Lemma finish_request (s0 s : State) (k i : nat) :
  S i = length (currentChunks s0) ->
  readingAt s0 k i s ->
  let s' := step (EvEnd (length (heap s0) + k)) s in
  isPlaying s' = false
  /\ currentIndex s' = Z.of_nat (S i)
  /\ queue s' = []
  /\ timers s' = []
  /\ heap s' = heap s.
Proof.
  intros Hlast (Ht & Hc & Hi & Hp & Htm & Hu & Hq & Hh & Hcb).
  cbn zeta. cbn [step].
  destruct (heap s !! (length (heap s0) + k)%nat) as [u |] eqn:Hlook; [| discriminate].
  cbn in Hcb. injection Hcb as Hcb. rewrite Hcb.
  cbn [onendHandler runCallback]. unfold autoAdvance, engineDone. sfields.
  rewrite Hi, Hc, Hp, Hq.
  destruct (Z.ltb_spec (Z.of_nat i + 1) (len (currentChunks s0))) as [Hlt | _];
    [unfold len in Hlt; lia |].
  cbn [andb]. unfold updatePlayPauseUI. sfields.
  repeat split; try assumption; try lia.
  cbn. rewrite Nat.eqb_refl. reflexivity.
Qed.

(** Reading on from the request for chunk [i] to the end of the
    document: the requests made from then on speak the chunks after
    [i]. *)
Lemma read_on (s0 : State) (o : Z) (m : nat) :
  chunksInSync s0 ->
  forall k i s,
    (i + m + 1 = length (currentChunks s0))%nat ->
    0 <= o <= Z.of_nat (S i) * internalChunkSize ->
    Z.of_nat i * internalChunkSize < len (currentText s0) ->
    readingAt s0 k i s ->
    concat (u_text <$> drop (length (heap s0)) (heap s))
    = slice (currentText s0) o (Z.of_nat (S i) * internalChunkSize) ->
    let s' := run (readOn (length (heap s0)) k m) s in
    concat (u_text <$> drop (length (heap s0)) (heap s'))
    = drop (Z.to_nat o) (currentText s0)
    /\ isPlaying s' = false
    /\ currentIndex s' = Z.of_nat (length (currentChunks s0))
    /\ queue s' = []
    /\ timers s' = []
    /\ length (heap s') = (length (heap s0) + k + m + 1)%nat.
Proof.
  intros Hsync. induction m as [| m IH]; intros k i s Hn Ho Hin Hinv Hcat; cbn zeta.
  - unfold readOn. cbn [seq flat_map app run fold_left]. rewrite Nat.add_0_r.
    destruct (finish_request s0 s k i ltac:(lia) Hinv) as (Fp & Fi & Fq & Ft & Fh).
    cbn zeta in *. rewrite Fh, Hcat.
    assert (len (currentText s0) <= Z.of_nat (S i) * internalChunkSize) as Hend.
    { destruct (Z.le_gt_cases (len (currentText s0)) (Z.of_nat (S i) * internalChunkSize))
        as [H | H]; [exact H |].
      apply index_valid_iff in H; [| lia]. rewrite <- Hsync in H.
      unfold len in H. lia. }
    split.
    { destruct (Z.le_gt_cases o (len (currentText s0))) as [Hle | Hgt].
      - apply slice_to_end; lia.
      - unfold slice, relIndex.
        pose proof (len_nonneg (currentText s0)).
        destruct (Z.ltb_spec o 0); [lia |].
        destruct (Z.ltb_spec (Z.of_nat (S i) * internalChunkSize) 0); [lia |].
        rewrite !Z.min_r by lia. rewrite Z.sub_diag. cbn [Z.to_nat take].
        symmetry. apply drop_ge. unfold len in *. lia. }
    destruct Hinv as (_ & _ & _ & _ & _ & _ & _ & Hh & _).
    repeat split; try assumption; try lia.
  - unfold readOn. cbn [seq flat_map]. rewrite <- app_assoc.
    unfold run. rewrite fold_left_app.
    fold (run [EvEnd (length (heap s0) + k); EvTimer 0] s).
    destruct (advance_request s0 s k i Hsync ltac:(lia) Hinv) as [Hinv' Htexts].
    cbn zeta in *.
    set (s1 := run [EvEnd (length (heap s0) + k); EvTimer 0] s) in *.
    replace (k + S m)%nat with (S k + m)%nat by lia.
    fold (readOn (length (heap s0)) (S k) m). fold (run (readOn (length (heap s0)) (S k) m) s1).
    assert (Z.of_nat (S i) * internalChunkSize < len (currentText s0)) as Hin'.
    { apply index_valid_iff; [lia |]. rewrite <- Hsync. unfold len. lia. }
    destruct (IH (S k) (S i) s1) as (G1 & G2 & G3 & G4 & G5 & G6); try assumption.
    + lia.
    + unfold internalChunkSize in *. lia.
    + rewrite fmap_drop, Htexts.
      destruct Hinv as (_ & _ & _ & _ & _ & _ & _ & Hh & _).
      rewrite drop_app_le by (rewrite length_fmap; lia).
      rewrite <- fmap_drop, concat_app, Hcat. cbn [concat]. rewrite app_nil_r.
      replace (Z.of_nat (S (S i)) * internalChunkSize)
        with (Z.of_nat (S i) * internalChunkSize + internalChunkSize) by lia.
      apply slice_app; unfold internalChunkSize in *; lia.
    + repeat split; try assumption. lia.
Qed.

(** X19. After a jump into the document, an undisturbed reading speaks the
    rest of the document exactly once: the texts of the requests made
    from the jump on, put together, are the document from the offset of
    the jump to its end, and the reading ends with the playing flag
    cleared and the chunk index at the chunk count. *)
Theorem jump_then_reading_covers_the_rest (s0 : State) (o : Z) :
  chunksInSync s0 ->
  0 <= o < len (currentText s0) ->
  timers s0 = [] ->
  (utterance s0 = None -> queue s0 = []) ->
  let n := length (currentChunks s0) in
  let i0 := Z.to_nat (o / internalChunkSize) in
  let s := run (EvJump o :: readOn (length (heap s0)) 0 (n - 1 - i0)) s0 in
  concat (u_text <$> drop (length (heap s0)) (heap s))
  = drop (Z.to_nat o) (currentText s0)
  /\ length (heap s) = (length (heap s0) + (n - i0))%nat
  /\ isPlaying s = false
  /\ currentIndex s = Z.of_nat n
  /\ queue s = []
  /\ timers s = [].
Proof.
  intros Hsync Ho Htm Hq. cbn zeta.
  set (index := o / internalChunkSize).
  assert (0 <= index) as Hindex by (apply Z.div_pos; unfold internalChunkSize; lia).
  pose proof (Z.mul_div_le o internalChunkSize eq_refl) as Hle. fold index in Hle.
  pose proof (Z.mod_pos_bound o internalChunkSize eq_refl) as Hmod.
  pose proof (Z.div_mod o internalChunkSize ltac:(discriminate)) as Hdm.
  fold index in Hdm.
  assert (index * internalChunkSize < len (currentText s0)) as Hin by lia.
  assert (index < len (currentChunks s0)) as Hvalid
    by (rewrite Hsync; apply index_valid_iff; lia).
  unfold len in Hvalid.
  cbn [run fold_left]. fold (run (readOn (length (heap s0)) 0
        (length (currentChunks s0) - 1 - Z.to_nat index)) (step (EvJump o) s0)).
  cbn [step].
  destruct (jumpToCharIndex_inside s0 o Hsync Ho) as (chunk & Hchunk & Hoff & Hjump).
  cbn zeta in Hjump, Hoff, Hchunk. fold index in Hjump, Hoff, Hchunk.
  assert (chunk = slice (currentText s0) (index * internalChunkSize)
                    (index * internalChunkSize + internalChunkSize)) as Hchunk'.
  { rewrite Hsync, chunksOf_lookup in Hchunk by lia. congruence. }
  set (s1 := jumpToCharIndex o s0) in *.
  match type of Hjump with _ = speakChunk ?tx ?cb ?b ?st =>
    destruct (speakChunk_frame tx cb b st) as (F1 & F2 & F3 & F4 & _ & F6 & _);
    pose proof (speakChunk_utterance tx cb b st) as Hu;
    pose proof (speakChunk_lookup tx cb b st) as Hl;
    pose proof (speakChunk_queue tx cb b st) as Hqu;
    pose proof (speakChunk_heap tx cb b st) as Hheap
  end.
  rewrite <- Hjump in *. sfields.
  assert (readingAt s0 0 (Z.to_nat index) s1) as Hinv.
  { unfold readingAt. rewrite !Nat.add_0_r.
    split; [exact F1 |]. split; [exact F2 |]. split; [rewrite F3; lia |].
    split; [exact F4 |]. split; [rewrite F6; exact Htm |]. split; [exact Hu |].
    split.
    { rewrite Hqu. destruct (utterance s0); [reflexivity |].
      rewrite Hq by reflexivity. reflexivity. }
    split; [rewrite Hheap, length_app, retiredHeap_length; cbn; sfields; lia |].
    rewrite Hl. reflexivity. }
  assert (concat (u_text <$> drop (length (heap s0)) (heap s1))
          = slice (currentText s0) o
              (Z.of_nat (S (Z.to_nat index)) * internalChunkSize)) as Hcat.
  { rewrite Hheap.
    rewrite drop_app_length' by (rewrite retiredHeap_length; reflexivity).
    cbn. rewrite app_nil_r. rewrite Hchunk'.
    rewrite !slice_nonneg by (unfold internalChunkSize in *; lia).
    rewrite skipn_firstn_comm, drop_drop.
    unfold internalChunkSize in *. f_equal; [lia | f_equal; lia]. }
  destruct (read_on s0 o (length (currentChunks s0) - 1 - Z.to_nat index) Hsync
              0%nat (Z.to_nat index) s1) as (G1 & G2 & G3 & G4 & G5 & G6);
    try assumption.
  - lia.
  - unfold internalChunkSize in *. lia.
  - lia.
  - split; [exact G1 |]. split; [rewrite G6; lia |].
    repeat split; assumption.
Qed.

Lemma jump_then_reading_covers_the_rest_witness :
  let s0 := step (EvPasteInput (repeat 97%N (Z.to_nat 7000))) (initial (JNum 1) "") in
  let n := length (currentChunks s0) in
  let i0 := Z.to_nat (3500 / internalChunkSize) in
  let s := run (EvJump 3500 :: readOn (length (heap s0)) 0 (n - 1 - i0)) s0 in
  len <$> (u_text <$> heap s) = [2500; 1000]
  /\ concat (u_text <$> drop (length (heap s0)) (heap s))
     = drop (Z.to_nat 3500) (currentText s0)
  /\ isPlaying s = false.
Proof.
  intros s0 n i0 s.
  destruct (jump_then_reading_covers_the_rest s0 3500) as (Hc & _ & Hp & _).
  - vm_compute. reflexivity.
  - split; vm_compute; [discriminate | reflexivity].
  - vm_compute. reflexivity.
  - vm_compute. reflexivity.
  - split; [vm_compute; reflexivity |]. split; [exact Hc | exact Hp].
Defined.

(** ** The voice list *)

Lemma voiceObjects_fst (vs : list Voice) :
  fst <$> voiceObjects vs = seq 0 (length vs).
Proof.
  unfold voiceObjects. rewrite fmap_imap.
  rewrite (imap_ext _ (fun j _ => id j)) by reflexivity.
  rewrite imap_seq_0. apply list_fmap_id.
Qed.

Lemma voiceObjects_elem (vs : list Voice) (i : nat) (v : Voice) :
  (i, v) ∈ voiceObjects vs <-> vs !! i = Some v.
Proof.
  unfold voiceObjects. rewrite elem_of_lookup_imap. split.
  - intros (j & y & [= -> ->] & H). exact H.
  - intros H. exists i, v. split; [reflexivity | exact H].
Qed.

Lemma includes_spec (l : list VoiceObj) (v : VoiceObj) :
  includes l v = true <-> fst v ∈ fst <$> l.
Proof.
  unfold includes. rewrite existsb_exists, list_elem_of_fmap. split.
  - intros (w & Hin & Heq). exists w. apply Nat.eqb_eq in Heq.
    split; [exact Heq | apply list_elem_of_In; exact Hin].
  - intros (w & Heq & Hin). exists w.
    split; [apply list_elem_of_In; exact Hin | apply Nat.eqb_eq; exact Heq].
Qed.

Lemma find_elem {A : Type} (f : A -> bool) (l : list A) (x : A) :
  List.find f l = Some x -> x ∈ l.
Proof. intros H. apply list_elem_of_In. exact (proj1 (find_some _ _ H)). Qed.

Lemma distinctFrom_push (os unique : list VoiceObj) (v : VoiceObj) :
  distinctFrom os unique -> v ∈ os -> includes unique v = false ->
  distinctFrom os (unique ++ [v]).
Proof.
  intros [Hnd Hsub] Hv Hinc. split.
  - rewrite fmap_app. apply NoDup_app. split; [exact Hnd |]. split.
    + intros x Hx Hx'. cbn in Hx'. apply list_elem_of_singleton in Hx'. subst x.
      apply includes_spec in Hx. congruence.
    + cbn. apply NoDup_singleton.
  - intros w Hw. apply elem_of_app in Hw as [Hw | Hw]; [exact (Hsub w Hw) |].
    apply list_elem_of_singleton in Hw. subst w. exact Hv.
Qed.

Lemma pushPick_spec (os unique : list VoiceObj) (p : option VoiceObj) :
  distinctFrom os unique -> (forall v, p = Some v -> v ∈ os) ->
  distinctFrom os (pushPick unique p)
  /\ (length (pushPick unique p) <= S (length unique))%nat.
Proof.
  intros Hd Hp. unfold pushPick. destruct p as [v |]; [| split; [exact Hd | lia]].
  destruct (includes unique v) eqn:Hinc; cbn [negb]; [split; [exact Hd | lia] |].
  split; [apply distinctFrom_push; auto |]. rewrite length_app. cbn. lia.
Qed.

Lemma pushPicks_spec (os : list VoiceObj) (picks : list (option VoiceObj)) :
  forall unique,
    distinctFrom os unique ->
    (forall v, Some v ∈ picks -> v ∈ os) ->
    distinctFrom os (fold_left pushPick picks unique)
    /\ (length (fold_left pushPick picks unique) <= length unique + length picks)%nat.
Proof.
  induction picks as [| p picks IH]; intros unique Hd Hp; cbn [fold_left length].
  - split; [exact Hd | lia].
  - destruct (pushPick_spec os unique p Hd) as [Hd' Hlen].
    { intros v ->. apply Hp. left. }
    destruct (IH (pushPick unique p) Hd') as [Hd'' Hlen'].
    { intros v Hv. apply Hp. right. exact Hv. }
    split; [exact Hd'' | lia].
Qed.

Lemma voicePicks_spec (T : VoiceTests) (os : list VoiceObj) :
  length (voicePicks T os) = 5%nat
  /\ forall v, Some v ∈ voicePicks T os -> v ∈ os.
Proof.
  split; [reflexivity |]. intros v Hv. unfold voicePicks in Hv. cbn [app] in Hv.
  repeat (apply elem_of_cons in Hv as [Hv | Hv];
          [symmetry in Hv; exact (find_elem _ _ _ Hv) |]).
  inversion Hv.
Qed.

Lemma fillVoice_prefix (unique : list VoiceObj) (v : VoiceObj) :
  exists k, fillVoice unique v = unique ++ k.
Proof.
  unfold fillVoice. destruct (_ && _).
  - exists [v]. reflexivity.
  - exists []. rewrite app_nil_r. reflexivity.
Qed.

Lemma fill_prefix (l : list VoiceObj) :
  forall unique, exists k, fold_left fillVoice l unique = unique ++ k.
Proof.
  induction l as [| v l IH]; intros unique; cbn [fold_left].
  - exists []. rewrite app_nil_r. reflexivity.
  - destruct (fillVoice_prefix unique v) as [k1 H1].
    destruct (IH (fillVoice unique v)) as [k2 H2].
    exists (k1 ++ k2). rewrite H2, H1, app_assoc. reflexivity.
Qed.

Lemma fill_spec (os l : list VoiceObj) :
  forall unique,
    distinctFrom os unique -> (length unique <= 5)%nat ->
    (forall v, v ∈ l -> v ∈ os) ->
    let r := fold_left fillVoice l unique in
    distinctFrom os r /\ (length r <= 5)%nat
    /\ ((length r < 5)%nat -> forall v, v ∈ l -> fst v ∈ fst <$> r).
Proof.
  induction l as [| v l IH]; intros unique Hd Hlen Hl; cbn zeta; cbn [fold_left].
  - split; [exact Hd |]. split; [exact Hlen |]. intros _ v Hv. inversion Hv.
  - assert (distinctFrom os (fillVoice unique v)
            /\ (length (fillVoice unique v) <= 5)%nat
            /\ ((length (fillVoice unique v) < 5)%nat
                -> fst v ∈ fst <$> fillVoice unique v)) as (Hd' & Hlen' & Hv').
    { unfold fillVoice.
      destruct (Nat.ltb_spec (length unique) 5) as [Hlt | Hge]; cbn [andb].
      - destruct (includes unique v) eqn:Hinc; cbn [negb].
        + split; [exact Hd |]. split; [exact Hlen |]. intros _.
          apply includes_spec. exact Hinc.
        + split; [apply distinctFrom_push; auto; apply Hl; left |].
          rewrite length_app. cbn. split; [lia |]. intros _.
          rewrite fmap_app. apply elem_of_app. right. left.
      - split; [exact Hd |]. split; [exact Hlen |]. lia. }
    destruct (IH (fillVoice unique v) Hd' Hlen') as (Hd'' & Hlen'' & Hall).
    { intros w Hw. apply Hl. right. exact Hw. }
    cbn zeta in *.
    split; [exact Hd'' |]. split; [exact Hlen'' |]. intros Hlt w Hw.
    apply elem_of_cons in Hw as [-> | Hw]; [| exact (Hall Hlt w Hw)].
    destruct (fill_prefix l (fillVoice unique v)) as [k Hk]. rewrite Hk in *.
    rewrite fmap_app. apply elem_of_app. left. apply Hv'.
    rewrite length_app in Hlt. lia.
Qed.

Lemma uniqueVoices_spec (T : VoiceTests) (vs : list Voice) :
  let unique := uniqueVoices T (voiceObjects vs) in
  distinctFrom (voiceObjects vs) unique
  /\ length unique = Nat.min 5 (length vs).
Proof.
  cbn zeta. unfold uniqueVoices. set (os := voiceObjects vs).
  destruct (voicePicks_spec T os) as [Hfive Hpicks].
  destruct (pushPicks_spec os (voicePicks T os) []) as [Hd Hlen].
  { split; [apply NoDup_nil_2 | intros v Hv; inversion Hv]. }
  { exact Hpicks. }
  rewrite Hfive in Hlen. cbn [length] in Hlen.
  destruct (fill_spec os os (fold_left pushPick (voicePicks T os) []) Hd Hlen)
    as (Hd' & Hlen' & Hall); [auto |].
  cbn zeta in *. split; [exact Hd' |].
  set (r := fold_left fillVoice os (fold_left pushPick (voicePicks T os) [])) in *.
  destruct Hd' as [Hnd Hsub].
  assert (length r <= length vs)%nat as Hle.
  { rewrite <- (length_fmap fst r).
    replace (length vs) with (length (fst <$> voiceObjects vs))
      by (rewrite voiceObjects_fst; apply length_seq).
    apply submseteq_length, NoDup_submseteq; [exact Hnd |].
    intros x Hx. apply list_elem_of_fmap in Hx as (w & -> & Hw).
    apply list_elem_of_fmap. exists w. split; [reflexivity | exact (Hsub w Hw)]. }
  destruct (Nat.lt_ge_cases (length r) 5) as [Hlt | Hge]; [| lia].
  assert (length vs <= length r)%nat as Hge.
  { rewrite <- (length_fmap fst r).
    replace (length vs) with (length (fst <$> voiceObjects vs))
      by (rewrite voiceObjects_fst; apply length_seq).
    apply submseteq_length, NoDup_submseteq.
    - rewrite voiceObjects_fst. apply NoDup_seq.
    - intros x Hx. apply list_elem_of_fmap in Hx as (w & -> & Hw).
      exact (Hall Hlt w Hw). }
  lia.
Qed.

Lemma listToShow_unique (T : VoiceTests) (vs : list Voice) :
  listToShow T (voiceObjects vs) = uniqueVoices T (voiceObjects vs).
Proof.
  unfold listToShow.
  destruct (Nat.eqb_spec (length (uniqueVoices T (voiceObjects vs))) 0) as [Hz | _];
    [| reflexivity].
  destruct (uniqueVoices_spec T vs) as [_ Hlen]. cbn zeta in Hlen.
  rewrite Hz in Hlen.
  assert (length vs = 0%nat) as Hvs by lia.
  apply nil_length_inv in Hvs. subst vs.
  apply nil_length_inv in Hz. rewrite Hz. reflexivity.
Qed.

Lemma find_first {A : Type} (f : A -> bool) (l : list A) (x : A) :
  List.find f l = Some x ->
  exists i, l !! i = Some x /\ f x = true
            /\ forall j y, (j < i)%nat -> l !! j = Some y -> f y = false.
Proof.
  induction l as [| a l IH]; cbn [List.find]; [discriminate |].
  destruct (f a) eqn:Ha.
  - intros [= <-]. exists 0%nat. split; [reflexivity |]. split; [exact Ha |].
    intros j y Hj. lia.
  - intros Hfind. destruct (IH Hfind) as (i & Hi & Hx & Hbefore).
    exists (S i). split; [exact Hi |]. split; [exact Hx |].
    intros [| j] y Hj Hy.
    + cbn in Hy. injection Hy as <-. exact Ha.
    + apply (Hbefore j y); [lia | exact Hy].
Qed.

Lemma pickVoice_by_name (s : State) (v : Voice) :
  v ∈ voices s -> voiceSelect s = v_name v ->
  exists w i,
    pickVoice s = Some w
    /\ voices s !! i = Some w
    /\ v_name w = v_name v
    /\ forall j x, (j < i)%nat -> voices s !! j = Some x -> v_name x <> v_name v.
Proof.
  intros Hv Hsel. unfold pickVoice.
  destruct (List.find _ (voices s)) as [w |] eqn:Hfind.
  - destruct (find_first _ _ _ Hfind) as (i & Hi & Heq & Hbefore).
    exists w, i. apply String.eqb_eq in Heq.
    split; [reflexivity |]. split; [exact Hi |]. split; [congruence |].
    intros j x Hj Hx Hname. specialize (Hbefore j x Hj Hx). cbn in Hbefore.
    rewrite Hsel, Hname, String.eqb_refl in Hbefore. discriminate.
  - exfalso. apply list_elem_of_In in Hv.
    pose proof (find_none _ _ Hfind v Hv) as Hno. cbn in Hno.
    rewrite Hsel, String.eqb_refl in Hno. discriminate.
Qed.

(** X20. The suggestions heading the voice select are distinct voices of
    the engine's list, five of them or all of the list when it is
    shorter, and the fallback to the first five voices never shows
    anything else than the list of distinct voices. *)
Theorem suggested_voices_are_distinct (T : VoiceTests) (vs : list Voice) :
  let shown := listToShow T (voiceObjects vs) in
  shown = uniqueVoices T (voiceObjects vs)
  /\ NoDup (fst <$> shown)
  /\ (forall i v, (i, v) ∈ shown -> vs !! i = Some v)
  /\ length shown = Nat.min 5 (length vs).
Proof.
  cbn zeta. rewrite listToShow_unique.
  destruct (uniqueVoices_spec T vs) as [[Hnd Hsub] Hlen]. cbn zeta in *.
  split; [reflexivity |]. split; [exact Hnd |]. split; [| exact Hlen].
  intros i v Hin. apply voiceObjects_elem. exact (Hsub _ Hin).
Qed.

(** X21. The texts shown as top suggestions are those of the first five
    options of the select.  The divider between the suggestions and the
    installed voices is among them exactly when the engine has fewer
    than five voices; the installed voices after it then fill the five. *)
Theorem divider_is_suggested_iff_few_voices (T : VoiceTests) (vs : list Voice) :
  (Divider ∈ suggested T vs <-> (length vs < 5)%nat)
  /\ suggested T vs
     = ((fun v => VoiceOption (snd v)) <$> listToShow T (voiceObjects vs))
       ++ take (5 - length vs) (Divider :: (VoiceOption <$> vs)).
Proof.
  destruct (uniqueVoices_spec T vs) as [_ Hlen]. cbn zeta in Hlen.
  rewrite <- listToShow_unique in Hlen.
  assert (suggested T vs
          = ((fun v => VoiceOption (snd v)) <$> listToShow T (voiceObjects vs))
            ++ take (5 - length vs) (Divider :: (VoiceOption <$> vs))) as Heq.
  { unfold suggested, voiceOptions. rewrite take_app_ge by (rewrite length_fmap; lia).
    rewrite length_fmap, Hlen. f_equal. f_equal. lia. }
  split; [| exact Heq]. rewrite Heq. split.
  - intros Hin. destruct (Nat.lt_ge_cases (length vs) 5) as [Hlt | Hge]; [exact Hlt |].
    exfalso. replace (5 - length vs)%nat with 0%nat in Hin by lia.
    cbn [take] in Hin. rewrite app_nil_r in Hin.
    apply list_elem_of_fmap in Hin as (w & Hw & _). discriminate.
  - intros Hlt. apply elem_of_app. right.
    destruct (5 - length vs)%nat as [| k] eqn:Hk; [lia |]. cbn [take]. left.
Qed.

(** X22. Whichever voice option of the select is the selected one, the
    next request is spoken by the first voice of the engine's list that
    carries the name of the option: a voice of that name, with no voice
    of that name before it in the list.  When two voices share a name,
    this need not be the voice the option was made from. *)
Theorem selected_option_names_the_spoken_voice (T : VoiceTests) (vs : list Voice)
    (v : Voice) (s : State) (text : jsstring) (onend : option Callback)
    (base : option Z) :
  VoiceOption v ∈ voiceOptions T vs ->
  let s1 := step (EvVoices vs (v_name v)) s in
  exists w i,
    requestVoice text onend base s1 = Some (Some w)
    /\ vs !! i = Some w
    /\ v_name w = v_name v
    /\ forall j x, (j < i)%nat -> vs !! j = Some x -> v_name x <> v_name v.
Proof.
  intros Hopt. cbn zeta. cbn [step].
  assert (v ∈ vs) as Hv.
  { unfold voiceOptions in Hopt. apply elem_of_app in Hopt as [Hopt | Hopt].
    - apply list_elem_of_fmap in Hopt as ([i w] & [= ->] & Hw).
      destruct (uniqueVoices_spec T vs) as [[_ Hsub] _]. cbn zeta in Hsub.
      apply list_elem_of_lookup. exists i. apply voiceObjects_elem.
      rewrite listToShow_unique in Hw. exact (Hsub _ Hw).
    - apply elem_of_cons in Hopt as [Hopt | Hopt]; [discriminate |].
      apply list_elem_of_fmap in Hopt as (w & [= ->] & Hw). exact Hw. }
  destruct (pickVoice_by_name (set_voiceSelect (v_name v) (set_voices vs s)) v)
    as (w & i & Hpick & Hi & Hname & Hfirst); [exact Hv | reflexivity |].
  exists w, i. unfold requestVoice. rewrite speakChunk_lookup.
  cbn [fmap option_fmap option_map].
  unfold newUtterance. cbn [u_voice]. rewrite Hpick.
  split; [reflexivity |]. split; [exact Hi |]. split; [exact Hname | exact Hfirst].
Qed.

Lemma selected_option_names_the_spoken_voice_witness :
  let T := mkVoiceTests (String.eqb "en-US") (String.eqb "en-GB")
             (fun l => String.prefix "en" l)
             (String.eqb "Alex") (String.eqb "Emma") in
  let vs := [mkVoice "Hans" "de-DE" true; mkVoice "Emma" "en-GB" false;
             mkVoice "Alex" "en-US" false; mkVoice "Emma" "en-US" false] in
  voiceOptions T vs
  = (VoiceOption <$> [mkVoice "Alex" "en-US" false; mkVoice "Emma" "en-US" false;
                      mkVoice "Emma" "en-GB" false; mkVoice "Hans" "de-DE" true])
    ++ Divider :: (VoiceOption <$> vs)
  /\ requestVoice [104; 105]%N None None
       (step (EvVoices vs "Emma") (initial (JNum 1) ""))
     = Some (Some (mkVoice "Emma" "en-GB" false))
  /\ exists w i,
       requestVoice [104; 105]%N None None
         (step (EvVoices vs "Emma") (initial (JNum 1) "")) = Some (Some w)
       /\ vs !! i = Some w
       /\ v_name w = "Emma"
       /\ forall j x, (j < i)%nat -> vs !! j = Some x -> v_name x <> "Emma".
Proof.
  intros T vs. split; [reflexivity |]. split; [reflexivity |].
  apply (selected_option_names_the_spoken_voice T vs (mkVoice "Emma" "en-US" false)).
  unfold vs. vm_compute voiceOptions. apply list_elem_of_lookup. exists 1%nat. reflexivity.
Defined.

(** X23. The voice of a request is a voice of the engine's list, and a
    request is made without a voice only when that list is empty. *)
Theorem request_voice_comes_from_the_engine (text : jsstring)
    (onend : option Callback) (base : option Z) (s : State) :
  match requestVoice text onend base s with
  | Some (Some w) => w ∈ voices s
  | Some None => voices s = []
  | None => False
  end.
Proof.
  unfold requestVoice. rewrite speakChunk_lookup. cbn [fmap option_fmap option_map].
  unfold newUtterance. cbn [u_voice]. unfold pickVoice.
  destruct (List.find _ (voices s)) as [w |] eqn:H1.
  { apply list_elem_of_In. exact (proj1 (find_some _ _ H1)). }
  destruct (List.find v_default (voices s)) as [w |] eqn:H2.
  { apply list_elem_of_In. exact (proj1 (find_some _ _ H2)). }
  destruct (voices s) as [| w l]; cbn; [reflexivity | left].
Qed.
